(** * Iterable expansion of pipeline graphs (nipype/pipeline/utils.py)

    A shallow embedding of [walk], [_get_valid_pathstr], [_merge_graphs],
    [_generate_expanded_graph] and the [replacefunk] helper of
    [_write_detailed_dot], together with the part of the networkx
    [DiGraph] interface these functions call.  Python objects that are
    mutated or compared by identity (nodes, the [connect] lists carried by
    edges) live in a store and are addressed by references; immutable data
    (strings, numbers, tuples) is modelled by value. *)

From Stdlib Require Import ZArith Ascii String.
From stdpp Require Import base tactics option list numbers functions gmap
  strings fin_maps pretty sorting.

Local Open Scope Z_scope.
Local Open Scope nat_scope.

(** ** Python values and strings *)

(** The values a parameter sweep ranges over.  [str] of an integer is its
    decimal numeral, [str] of a string is the string itself. *)
Inductive value : Type :=
  | VInt (z : Z)
  | VStr (s : string).

#[global] Instance value_eq_dec : EqDecision value.
Proof. solve_decision. Defined.

Definition py_str (v : value) : string :=
  match v with
  | VInt z => pretty z
  | VStr s => s
  end.

(** [s.replace(old, new)]: every non-overlapping occurrence of [old], scanning
    from the left, is replaced by [new].  [skip] counts the characters of a
    matched occurrence that remain to be dropped. *)
Fixpoint replace_from (old new : string) (skip : nat) (s : string) : string :=
  match s with
  | EmptyString => EmptyString
  | String c s' =>
      match skip with
      | S k => replace_from old new k s'
      | O =>
          if String.prefix old s
          then new +:+ replace_from old new (String.length old - 1) s'
          else String c (replace_from old new 0 s')
      end
  end.

Fixpoint interleave (new : string) (s : string) : string :=
  match s with
  | EmptyString => new
  | String c s' => new +:+ String c (interleave new s')
  end.

Definition str_replace (s old new : string) : string :=
  match old with
  | EmptyString => interleave new s
  | _ => replace_from old new 0 s
  end.

(** [os.sep] on a POSIX host. *)
Definition os_sep : string := "/".

(** [_get_valid_pathstr], utils.py lines 158-163. *)
Definition _get_valid_pathstr (pathstr : string) : string :=
  let pathstr :=
    foldl (fun pathstr symbol => str_replace pathstr symbol "")
          pathstr [" "; "["; "]"] in
  let pathstr := str_replace pathstr os_sep "_" in
  let pathstr := str_replace pathstr "," "." in
  pathstr.

(** Replacing character by character. *)
Fixpoint subst_chars (f : ascii → string) (s : string) : string :=
  match s with
  | EmptyString => EmptyString
  | String c s' => f c +:+ subst_chars f s'
  end.

(** What the five [replace] passes of [_get_valid_pathstr] do to one
    character. *)
Definition valid_char (c : ascii) : string :=
  if decide (c = " "%char ∨ c = "["%char ∨ c = "]"%char) then ""
  else if decide (c = "/"%char) then "_"
  else if decide (c = ","%char) then "."
  else String c "".

(** [replacefunk], the lambda of [_write_detailed_dot], utils.py lines
    104-105. *)
Definition replacefunk (x : string) : string :=
  str_replace (str_replace (str_replace (str_replace x "_" "") "." "") "@" "")
    "-" "".

(** Python's whitespace: space, tab, line feed, vertical tab, form feed and
    carriage return. *)
Definition is_whitespace (c : ascii) : bool :=
  bool_decide (c ∈ [" "; "009"; "010"; "011"; "012"; "013"]%char).

(** Sanitisation as the specification words it: whitespace and brackets are
    stripped, the path separator becomes an underscore, a comma a dot. *)
Definition spec_sanitize_char (c : ascii) : string :=
  if is_whitespace c then ""
  else if decide (c = "["%char ∨ c = "]"%char) then ""
  else if decide (c = "/"%char) then "_"
  else if decide (c = ","%char) then "."
  else String c "".

Definition spec_sanitize (s : string) : string :=
  subst_chars spec_sanitize_char s.

(** ** Dictionary keys and [walk] *)

(** [walk] keys its result either by argument name or by tree level. *)
Inductive key : Type :=
  | KName (s : string)
  | KLevel (n : nat).

#[global] Instance key_eq_dec : EqDecision key.
Proof. solve_decision. Defined.

#[global] Instance key_countable : Countable key.
Proof.
  refine (inj_countable'
            (fun k => match k with KName s => inl s | KLevel n => inr n end)
            (fun x => match x with inl s => KName s | inr n => KLevel n end) _).
  by intros [].
Defined.

(** The value-producer of a child is a nullary function; what matters of it
    is the finite sequence its call returns. *)
Definition producer : Type := list value.

Definition walk_key (usename : bool) (name : string) (level : nat) : key :=
  if usename then KName name else KLevel level.

(** The generator [walk], utils.py lines 21-42.  The dictionary [path] is one
    object shared by all levels of the recursion and updated in place, so the
    body threads it: the result is the sequence of yielded copies together
    with the dictionary as the generator leaves it. *)
Fixpoint walk_run (children : list (string * producer)) (level : nat)
    (path : gmap key value) (usename : bool)
    : list (gmap key value) * gmap key value :=
  let path := if decide (level = 0) then ∅ else path in
  match children with
  | [] => ([path], path)
  | (name, func) :: tail =>
      foldl (fun acc child =>
               let path := <[walk_key usename name level := child]> acc.2 in
               let r := walk_run tail (S level) path usename in
               (acc.1 ++ r.1, r.2))
            ([], path) func
  end.

Definition walk (children : list (string * producer)) (level : nat)
    (path : gmap key value) (usename : bool) : list (gmap key value) :=
  (walk_run children level path usename).1.

(** The cartesian product in nested-loop order: the head of the sequence is
    the outermost loop. *)
Fixpoint cartesian {K : Type} (children : list (K * producer))
    : list (list (K * value)) :=
  match children with
  | [] => [[]]
  | (name, vals) :: tail =>
      v ← vals; (fun rest => (name, v) :: rest) <$> cartesian tail
  end.

(** Storing pairs one after the other into a dictionary. *)
Definition store_all (l : list (key * value)) (path : gmap key value)
    : gmap key value :=
  foldl (fun m kv => <[kv.1 := kv.2]> m) path l.

(** The mapping name -> value denoted by one element of the product. *)
Definition assignment_of (l : list (string * value)) : gmap key value :=
  store_all (prod_map KName id <$> l) ∅.

Fixpoint keyed (usename : bool) (level : nat)
    (children : list (string * producer)) : list (key * producer) :=
  match children with
  | [] => []
  | (name, func) :: tail =>
      (walk_key usename name level, func) :: keyed usename (S level) tail
  end.

(** [sorted(params.items())]: items are compared by key (the keys of a
    dictionary are distinct, so the values never decide).  Python 2 orders
    numbers before strings and strings bytewise. *)
Definition key_le (a b : key) : Prop :=
  match a, b with
  | KLevel m, KLevel n => m ≤ n
  | KLevel _, KName _ => True
  | KName _, KLevel _ => False
  | KName s, KName t => String.le s t
  end.

#[global] Instance key_le_dec : RelDecision key_le.
Proof. intros [s|m] [t|n]; simpl; apply _. Defined.

Definition item_le (x y : key * value) : Prop := key_le x.1 y.1.

#[global] Instance item_le_dec : RelDecision item_le.
Proof. intros x y. unfold item_le. apply _. Defined.

Definition sorted_items (d : gmap key value) : list (key * value) :=
  merge_sort item_le (map_to_list d).

(** ** Nodes, edges and the object store *)

(** Object identity. *)
Abbreviation ref := nat.

(** The [iterables] attribute as callers give it: one (name, values) tuple, a
    list of such tuples, or a dictionary from names to value-producers.  A
    dictionary is kept as the sequence [items()] returns. *)
Inductive iterables_t : Type :=
  | ItTuple (name : string) (vals : list value)
  | ItList (l : list (string * list value))
  | ItDict (d : list (string * producer)).

(** Modelled from the spec: the node class (NodeWrapper) is defined outside
    the files at hand.  Section 3 and 6 of the specification give it an
    identity string, iterables, a parameterization list (possibly unset) and
    an input mapping written through [set_input]. *)
Record Node : Type := mkNode {
  _id : string;
  iterables : iterables_t;
  parameterization : option (list string);
  inputs : gmap key value
}.

(** Modelled from the spec: [set_input(name, value)] stores [value] under
    [name] in the node's inputs. *)
Definition set_input (k : key) (v : value) (n : Node) : Node :=
  mkNode (_id n) (iterables n) (parameterization n) (<[k := v]> (inputs n)).

Definition with_id (s : string) (n : Node) : Node :=
  mkNode s (iterables n) (parameterization n) (inputs n).

Definition with_iterables (it : iterables_t) (n : Node) : Node :=
  mkNode (_id n) it (parameterization n) (inputs n).

Definition with_parameterization (p : option (list string)) (n : Node) : Node :=
  mkNode (_id n) (iterables n) p (inputs n).

(** The [connect] list of an edge: (source port, destination field) pairs. *)
Definition payload : Type := list (string * string).

(** An edge (u, v, data); [data] is a dictionary whose only entry is the
    reference to the [connect] list. *)
Record Edge : Type := mkEdge {
  e_src : ref;
  e_dst : ref;
  e_connect : ref
}.

#[global] Instance Edge_eq_dec : EqDecision Edge.
Proof. solve_decision. Defined.

(** A networkx DiGraph: the node set in iteration order and the adjacency,
    at most one edge per ordered pair of nodes. *)
Record DiGraph : Type := mkDiGraph {
  g_nodes : list ref;
  g_edges : list Edge
}.

(** The store: node objects, connect lists, the next free reference of each
    kind, and the one graph object [_generate_expanded_graph] and
    [_merge_graphs] mutate in place (their [graph_in] / [supergraph]). *)
Record State : Type := mkState {
  node_at : ref → Node;
  connect_at : ref → payload;
  next_node : ref;
  next_connect : ref;
  graph : DiGraph
}.

Definition set_graph (g : DiGraph) (st : State) : State :=
  mkState (node_at st) (connect_at st) (next_node st) (next_connect st) g.

Definition update_node (r : ref) (f : Node → Node) (st : State) : State :=
  mkState (<[r := f (node_at st r)]> (node_at st)) (connect_at st)
          (next_node st) (next_connect st) (graph st).

#[global] Instance Node_inhabited : Inhabited Node :=
  populate (mkNode "" (ItDict []) None ∅).

(** A store holding the given node objects and connect lists at references
    0, 1, 2, ... *)
Definition store_of (ns : list Node) (cs : list payload) (g : DiGraph)
    : State :=
  mkState (λ r, ns !!! r) (λ c, cs !!! c) (length ns) (length cs) g.

(** ** Exceptions and the state monad *)

Inductive exn : Type :=
  | ValueError          (* list.index on a missing item *)
  | TypeError           (* str.join on a non-string *)
  | AttributeError      (* .keys() on something that is no dictionary *)
  | NetworkXUnfeasible  (* no topological order: the graph has a cycle *)
  | OutOfFuel.          (* the model's loop bound, not a Python exception *)

#[global] Instance exn_eq_dec : EqDecision exn.
Proof. solve_decision. Defined.

Inductive result (A : Type) : Type :=
  | Ok (a : A)
  | Raise (e : exn).
Arguments Ok {A} a.
Arguments Raise {A} e.

#[global] Instance result_eq_dec {A} `{EqDecision A} : EqDecision (result A).
Proof. solve_decision. Defined.

Definition M (A : Type) : Type := State → result A * State.

#[global] Instance M_ret : MRet M := λ A a st, (Ok a, st).
#[global] Instance M_bind : MBind M := λ A B f m st,
  match m st with
  | (Ok a, st') => f a st'
  | (Raise e, st') => (Raise e, st')
  end.

Definition raise {A : Type} (e : exn) : M A := λ st, (Raise e, st).
Definition get_state : M State := λ st, (Ok st, st).
Definition modify (f : State → State) : M unit := λ st, (Ok tt, f st).
Definition from_option_or {A : Type} (e : exn) (o : option A) : M A :=
  match o with Some a => mret a | None => raise e end.

Fixpoint for_each {A : Type} (l : list A) (body : A → M unit) : M unit :=
  match l with
  | [] => mret tt
  | x :: l' => body x ≫= λ _, for_each l' body
  end.

Fixpoint fold_each {A B : Type} (l : list A) (b : B) (body : B → A → M B)
    : M B :=
  match l with
  | [] => mret b
  | x :: l' => body b x ≫= λ b', fold_each l' b' body
  end.

(** [l.index(x)]. *)
Definition py_index {A : Type} `{EqDecision A} (x : A) (l : list A)
    : option nat :=
  fst <$> list_find (x =.) l.

(** [enumerate(l)]. *)
Definition enumerate {A : Type} (l : list A) : list (nat * A) :=
  imap (λ i x, (i, x)) l.

(** ** The networkx interface

    networkx is a library the module imports; the functions below model the
    documented behaviour of the DiGraph methods and algorithms that
    [_merge_graphs] and [_generate_expanded_graph] call. *)
Module nx.

Definition add_node (n : ref) (g : DiGraph) : DiGraph :=
  if decide (n ∈ g_nodes g) then g
  else mkDiGraph (g_nodes g ++ [n]) (g_edges g).

Definition same_ends (e e' : Edge) : Prop :=
  e_src e = e_src e' ∧ e_dst e = e_dst e'.

#[global] Instance same_ends_dec : RelDecision same_ends.
Proof. intros e e'. unfold same_ends. apply _. Defined.

(** [add_edge]: missing end points are added; the data of an edge that is
    already present is updated with the new entries. *)
Definition add_edge (e : Edge) (g : DiGraph) : DiGraph :=
  let g := add_node (e_dst e) (add_node (e_src e) g) in
  if decide (Exists (same_ends e) (g_edges g))
  then mkDiGraph (g_nodes g)
         ((λ e', if decide (same_ends e e') then e else e') <$> g_edges g)
  else mkDiGraph (g_nodes g) (g_edges g ++ [e]).

Definition add_nodes_from (ns : list ref) (g : DiGraph) : DiGraph :=
  foldl (λ g n, add_node n g) g ns.

Definition add_edges_from (es : list Edge) (g : DiGraph) : DiGraph :=
  foldl (λ g e, add_edge e g) g es.

(** [remove_nodes_from]: the nodes and every edge touching one of them. *)
Definition remove_nodes_from (ns : list ref) (g : DiGraph) : DiGraph :=
  mkDiGraph (filter (λ n, n ∉ ns) (g_nodes g))
            (filter (λ e, (e_src e ∉ ns) ∧ (e_dst e ∉ ns)) (g_edges g)).

Definition in_edges (g : DiGraph) (n : ref) : list Edge :=
  filter (λ e, e_dst e = n) (g_edges g).

Definition successors (g : DiGraph) (n : ref) : list ref :=
  e_dst <$> filter (λ e, e_src e = n) (g_edges g).

(** [subgraph]: the nodes of [nbunch] that are in the graph, and the edges
    between them; the edge data are the very objects of the graph. *)
Definition subgraph (g : DiGraph) (nbunch : list ref) : DiGraph :=
  mkDiGraph (filter (λ n, n ∈ nbunch) (g_nodes g))
            (filter (λ e, e_src e ∈ nbunch ∧ e_dst e ∈ nbunch) (g_edges g)).

(** A node all of whose predecessors have been output already. *)
Definition is_source (g : DiGraph) (remaining : list ref) (n : ref) : Prop :=
  Forall (λ e, ¬ (e_dst e = n ∧ e_src e ∈ remaining)) (g_edges g).

#[global] Instance is_source_dec g remaining n :
  Decision (is_source g remaining n).
Proof. unfold is_source. apply _. Defined.

(** [topological_sort]: a list of the nodes in which every edge points
    forward, or no result when the graph has a cycle.  The order among
    unrelated nodes is the library's choice; here the first node without
    pending predecessor is output next. *)
Fixpoint topo_order (fuel : nat) (g : DiGraph) (remaining : list ref)
    : option (list ref) :=
  match remaining with
  | [] => Some []
  | _ :: _ =>
      match fuel with
      | O => None
      | S fuel' =>
          match list_find (is_source g remaining) remaining with
          | None => None
          | Some (_, n) =>
              cons n <$> topo_order fuel' g (filter (λ m, m ≠ n) remaining)
          end
      end
  end.

Definition topological_sort (g : DiGraph) : option (list ref) :=
  topo_order (length (g_nodes g)) g (g_nodes g).

(** [dfs_preorder(G, source)]: depth-first search with an explicit stack;
    a node is listed when it is first taken from the stack.  Every step
    takes one entry from the stack and at most one entry per edge is ever
    put on it, which bounds the number of steps. *)
Fixpoint dfs_visit (fuel : nat) (g : DiGraph) (stack pre : list ref)
    : list ref :=
  match fuel with
  | O => pre
  | S fuel' =>
      match stack with
      | [] => pre
      | v :: rest =>
          if decide (v ∈ pre) then dfs_visit fuel' g rest pre
          else dfs_visit fuel' g (successors g v ++ rest) (pre ++ [v])
      end
  end.

Definition dfs_preorder (g : DiGraph) (source : ref) : list ref :=
  dfs_visit (2 + length (g_edges g)) g [source] [].

End nx.

(** A DiGraph value as networkx keeps it: the nodes are a set and every
    edge joins two of them. *)
Definition graph_ok (g : DiGraph) : Prop :=
  NoDup (g_nodes g)
  ∧ ∀ e, e ∈ g_edges g → e_src e ∈ g_nodes g ∧ e_dst e ∈ g_nodes g.

(** Edges, paths and cycles. *)
Definition adjacent (g : DiGraph) (u v : ref) : Prop :=
  ∃ e, e ∈ g_edges g ∧ e_src e = u ∧ e_dst e = v.

Definition reachable (g : DiGraph) : relation ref := rtc (adjacent g).

Definition has_cycle (g : DiGraph) : Prop := ∃ u, tc (adjacent g) u u.

Definition acyclic (g : DiGraph) : Prop := ∀ u, ¬ tc (adjacent g) u u.

(** A numbering of the nodes that grows along every edge. *)
Definition ranking (g : DiGraph) (rank : ref → nat) : Prop :=
  ∀ e, e ∈ g_edges g → rank (e_src e) < rank (e_dst e).

(** ** deepcopy *)

Definition index_of {A : Type} `{EqDecision A} (x : A) (l : list A) : nat :=
  default (length l) (py_index x l).

(** [deepcopy(subgraph)]: every node object and every connect list reachable
    from the graph is copied once (the memo keeps objects shared inside the
    graph shared inside the copy) into fresh store cells.  [node_copy] and
    [connect_copy] are the memo: the copy an original is mapped to. *)
Definition node_copy (st : State) (g : DiGraph) (r : ref) : ref :=
  next_node st + index_of r (g_nodes g).

Definition copied_connects (g : DiGraph) : list ref :=
  remove_dups (e_connect <$> g_edges g).

Definition connect_copy (st : State) (g : DiGraph) (c : ref) : ref :=
  next_connect st + index_of c (copied_connects g).

Definition edge_copy (st : State) (g : DiGraph) (e : Edge) : Edge :=
  mkEdge (node_copy st g (e_src e)) (node_copy st g (e_dst e))
         (connect_copy st g (e_connect e)).

Definition graph_copy (st : State) (g : DiGraph) : DiGraph :=
  mkDiGraph (node_copy st g <$> g_nodes g) (edge_copy st g <$> g_edges g).

Definition deepcopy (g : DiGraph) : M DiGraph := λ st,
  let ns := g_nodes g in
  let cs := copied_connects g in
  (Ok (graph_copy st g),
   mkState
     (λ r, if decide (next_node st ≤ r < next_node st + length ns)
           then node_at st (ns !!! (r - next_node st))
           else node_at st r)
     (λ c, if decide (next_connect st ≤ c < next_connect st + length cs)
           then connect_at st (cs !!! (c - next_connect st))
           else connect_at st c)
     (next_node st + length ns)
     (next_connect st + length cs)
     (graph st)).

(** ** [_merge_graphs], utils.py lines 165-239 *)

(** [edgeinfo]: for a node identity, the (source node, edge data) pairs of
    the edges that enter it from outside the subgraph. *)
Definition record_edge (subgraph : DiGraph) (nid : string)
    (edgeinfo : gmap string (list (ref * ref))) (edge : Edge)
    : gmap string (list (ref * ref)) :=
  if decide (e_src edge ∉ g_nodes subgraph) then
    let edgeinfo :=
      if decide (nid ∉ dom edgeinfo) then <[nid := []]> edgeinfo
      else edgeinfo in
    <[nid := default [] (edgeinfo !! nid) ++ [(e_src edge, e_connect edge)]]>
      edgeinfo
  else edgeinfo.

Definition collect_edgeinfo (subgraph : DiGraph)
    : M (gmap string (list (ref * ref))) :=
  st ← get_state;
  let supernodes := g_nodes (graph st) in
  let ids := (λ n, _id (node_at st n)) <$> supernodes in
  fold_each (g_nodes subgraph) ∅ (λ edgeinfo n,
    nidx ← from_option_or ValueError (py_index (_id (node_at st n)) ids);
    mret (foldl (record_edge subgraph (_id (node_at st n))) edgeinfo
                (nx.in_edges (graph st) (supernodes !!! nidx)))).

(** What [collect_edgeinfo] records: every entry filed under an identity
    comes from an edge of the supergraph that enters a node of that identity
    from outside the subgraph, and holds the source node and the data object
    of that edge. *)
Definition recorded_from (st : State) (subgraph : DiGraph)
    (edgeinfo : gmap string (list (ref * ref))) : Prop :=
  ∀ nid infos info, edgeinfo !! nid = Some infos → info ∈ infos →
    ∃ e, e ∈ g_edges (graph st) ∧ (e_src e ∉ g_nodes subgraph)
         ∧ e_dst e ∈ g_nodes (graph st)
         ∧ _id (node_at st (e_dst e)) = nid
         ∧ info = (e_src e, e_connect e).

(** ['_'.join((paramstr, key, _get_valid_pathstr(str(val))))]. *)
Definition join_param (paramstr name : string) (val : value) : string :=
  paramstr +:+ "_" +:+ name +:+ "_" +:+ _get_valid_pathstr (py_str val).

(** The [for key, val in sorted(params.items())] loop: it builds the path
    segment and sets the inputs of the node the iterables belong to. *)
Definition apply_params (target : ref) (params : gmap key value) : M string :=
  fold_each (sorted_items params) "" (λ paramstr kv,
    match kv.1 with
    | KName name =>
        modify (update_node target (set_input kv.1 kv.2));;
        mret (join_param paramstr name kv.2)
    | KLevel _ => raise TypeError
    end).

(** [n.parameterization = paramlist + n.parameterization] when the attribute
    is set and not empty, [n.parameterization = paramlist] otherwise. *)
Definition prepend_parameterization (paramstr : string) (nd : Node) : Node :=
  let paramlist := [paramstr] in
  match parameterization nd with
  | Some (p :: ps) => with_parameterization (Some (paramlist ++ p :: ps)) nd
  | _ => with_parameterization (Some paramlist) nd
  end.

(** The last loop over the copy's nodes: the recorded edges from outside are
    attached to the node, then the iteration index is appended to its
    identity. *)
Definition reconnect (edgeinfo : gmap string (list (ref * ref))) (i : nat)
    (node : ref) : M unit :=
  st ← get_state;
  match edgeinfo !! _id (node_at st node) with
  | Some infos =>
      for_each infos (λ info,
        modify (λ st, set_graph
          (nx.add_edges_from [mkEdge info.1 node info.2] (graph st)) st))
  | None => mret tt
  end;;
  modify (update_node node (λ nd, with_id (_id nd +:+ pretty i) nd)).

(** The body of the loop over [enumerate(walk(iterables.items()))]. *)
Definition merge_copy (subgraph : DiGraph) (nodeid : string)
    (edgeinfo : gmap string (list (ref * ref))) (i : nat)
    (params : gmap key value) : M unit :=
  Gc ← deepcopy subgraph;
  st ← get_state;
  let ids := (λ n, _id (node_at st n)) <$> g_nodes Gc in
  nodeidx ← from_option_or ValueError (py_index nodeid ids);
  paramstr ← apply_params (g_nodes Gc !!! nodeidx) params;
  for_each (g_nodes Gc) (λ n,
    modify (update_node n (prepend_parameterization paramstr)));;
  modify (λ st, set_graph (nx.add_nodes_from (g_nodes Gc) (graph st)) st);;
  modify (λ st, set_graph (nx.add_edges_from (g_edges Gc) (graph st)) st);;
  for_each (g_nodes Gc) (reconnect edgeinfo i).

(** The loops of [merge_copy] as functions on the store, for the runs in
    which no exception is raised. *)
Definition path_segment (params : gmap key value) : string :=
  foldl (λ paramstr kv,
           match kv.1 with
           | KName name => join_param paramstr name kv.2
           | KLevel _ => paramstr
           end) "" (sorted_items params).

Definition apply_params_store (target : ref) (params : gmap key value)
    (st : State) : State :=
  foldl (λ st kv, update_node target (set_input kv.1 kv.2) st) st
        (sorted_items params).

Definition recorded_edges (edgeinfo : gmap string (list (ref * ref)))
    (st : State) (node : ref) : list Edge :=
  (λ info, mkEdge info.1 node info.2)
    <$> default [] (edgeinfo !! _id (node_at st node)).

Definition reconnect_store (edgeinfo : gmap string (list (ref * ref)))
    (i : nat) (node : ref) (st : State) : State :=
  update_node node (λ nd, with_id (_id nd +:+ pretty i) nd)
    (set_graph (nx.add_edges_from (recorded_edges edgeinfo st node) (graph st))
               st).

Definition merge_copy_store (subgraph : DiGraph) (nodeidx : nat)
    (edgeinfo : gmap string (list (ref * ref))) (i : nat)
    (params : gmap key value) (st : State) : State :=
  let Gc := graph_copy st subgraph in
  let st := (deepcopy subgraph st).2 in
  let st := apply_params_store (g_nodes Gc !!! nodeidx) params st in
  let st := foldl (λ st n,
              update_node n (prepend_parameterization (path_segment params)) st)
              st (g_nodes Gc) in
  let st := set_graph (nx.add_nodes_from (g_nodes Gc) (graph st)) st in
  let st := set_graph (nx.add_edges_from (g_edges Gc) (graph st)) st in
  foldl (λ st n, reconnect_store edgeinfo i n st) st (g_nodes Gc).

Definition set_inputs (params : gmap key value) (nd : Node) : Node :=
  foldl (λ nd kv, set_input kv.1 kv.2 nd) nd (sorted_items params).

(** What [merge_copy] makes of the copy of a node: the inputs are set on the
    node the iterables belong to, the path segment is put in front of the
    parameterization, and the index is appended to the identity. *)
Definition copied_node (i : nat) (params : gmap key value) (is_target : bool)
    (nd : Node) : Node :=
  with_id (_id nd +:+ pretty i)
    (prepend_parameterization (path_segment params)
       (if is_target then set_inputs params nd else nd)).

(** The assignments [walk] yields for dictionary items are keyed by name. *)
Definition named (params : gmap key value) : Prop :=
  ∀ kv, kv ∈ map_to_list params → ∃ name, kv.1 = KName name.

(** The loop over the enumerated assignments as a function on the store;
    [nodeidx] is the position of [nodeid] among the nodes of the subgraph. *)
Definition merge_store (subgraph : DiGraph) (nodeidx : nat)
    (edgeinfo : gmap string (list (ref * ref)))
    (assignments : list (gmap key value)) (st : State) : State :=
  foldl (λ st ip, merge_copy_store subgraph nodeidx edgeinfo ip.1 ip.2 st)
        st (enumerate assignments).

Definition _merge_graphs (nodes : list ref) (subgraph : DiGraph)
    (nodeid : string) (iterables : list (string * producer)) : M unit :=
  edgeinfo ← collect_edgeinfo subgraph;
  modify (λ st, set_graph (nx.remove_nodes_from nodes (graph st)) st);;
  for_each (enumerate (walk iterables 0 ∅ true)) (λ ip,
    merge_copy subgraph nodeid edgeinfo ip.1 ip.2).

(** ** Vocabulary for the statements about a duplication pass *)

(** The store cell of the [j]-th node of the [i]-th copy of the subgraph. *)
Definition copy_ref (st : State) (subgraph : DiGraph) (i j : nat) : ref :=
  next_node st + i * length (g_nodes subgraph) + j.

(** What a call of [_merge_graphs] may rely on: the subgraph is a graph made
    of nodes of the supergraph, its objects are in the store, and [nodeid]
    is the identity of one of its nodes. *)
Definition merge_ready (st : State) (subgraph : DiGraph) (nodeid : string)
    : Prop :=
  NoDup (g_nodes subgraph)
  ∧ Forall (λ e, e_src e ∈ g_nodes subgraph ∧ e_dst e ∈ g_nodes subgraph
                 ∧ e_connect e < next_connect st) (g_edges subgraph)
  ∧ Forall (λ r, r < next_node st ∧ r ∈ g_nodes (graph st)) (g_nodes subgraph)
  ∧ Forall (λ e, e_connect e < next_connect st) (g_edges (graph st))
  ∧ nodeid ∈ (λ n, _id (node_at st n)) <$> g_nodes subgraph.

#[global] Instance merge_ready_dec st subgraph nodeid :
  Decision (merge_ready st subgraph nodeid).
Proof. unfold merge_ready. apply _. Defined.

(** The piece of a path segment one (name, value) pair contributes, for a
    given way of sanitising the value's string form. *)
Definition item_segment (sanitize : string → string) (kv : key * value)
    : string :=
  match kv.1 with
  | KName name => "_" +:+ name +:+ "_" +:+ sanitize (py_str kv.2)
  | KLevel _ => ""
  end.

Definition segment_of (sanitize : string → string)
    (items : list (key * value)) : string :=
  foldr (λ kv acc, item_segment sanitize kv +:+ acc) "" items.

(** The path segment as the specification words it. *)
Definition spec_path_segment (params : gmap key value) : string :=
  segment_of spec_sanitize (sorted_items params).

(** ** [_generate_expanded_graph], utils.py lines 241-276 *)

(** [dict(pairs)]: a later pair with the same name replaces the earlier. *)
Fixpoint dict_set {V : Type} (k : string) (v : V) (d : list (string * V))
    : list (string * V) :=
  match d with
  | [] => [(k, v)]
  | (k', v') :: d' =>
      if decide (k = k') then (k, v) :: d' else (k', v') :: dict_set k v d'
  end.

Definition dict_of_pairs {V : Type} (l : list (string * V))
    : list (string * V) :=
  foldl (λ d kv, dict_set kv.1 kv.2 d) [] l.

(** The two loops that bring every [iterables] to dictionary form. *)
Definition tuple_to_list (node : ref) : M unit :=
  st ← get_state;
  match iterables (node_at st node) with
  | ItTuple name vals =>
      modify (update_node node (with_iterables (ItList [(name, vals)])))
  | _ => mret tt
  end.

Definition list_to_dict (node : ref) : M unit :=
  st ← get_state;
  match iterables (node_at st node) with
  | ItList l =>
      modify (update_node node (with_iterables (ItDict (dict_of_pairs l))))
  | _ => mret tt
  end.

(** The items of [node.iterables] when it is a dictionary; [keys()] and
    [copy()] fail on anything else. *)
Definition iterables_items (n : Node) : option (list (string * producer)) :=
  match iterables n with
  | ItDict d => Some d
  | _ => None
  end.

(** [[node for node in nodes if len(node.iterables.keys()) > 0]]. *)
Fixpoint select_iterable (st : State) (nodes : list ref)
    : option (list ref) :=
  match nodes with
  | [] => Some []
  | n :: nodes' =>
      items ← iterables_items (node_at st n);
      inodes ← select_iterable st nodes';
      Some (if decide (0 < length (items.*1)) then n :: inodes else inodes)
  end.

(** The branch of the loop taken for the selected node. *)
Definition expand_node (node : ref) : M bool :=
  st ← get_state;
  iterables ← from_option_or AttributeError
                 (iterables_items (node_at st node));
  modify (update_node node (with_iterables (ItDict [])));;
  modify (update_node node (λ nd, with_id (_id nd +:+ "I") nd));;
  st ← get_state;
  let subnodes := nx.dfs_preorder (graph st) node in
  let subgraph := nx.subgraph (graph st) subnodes in
  _merge_graphs subnodes subgraph (_id (node_at st node)) iterables;;
  mret true.

(** One turn of the [while moreiterables] loop; the result tells whether the
    loop goes on. *)
Definition expand_step : M bool :=
  st ← get_state;
  nodes ← from_option_or NetworkXUnfeasible (nx.topological_sort (graph st));
  let nodes := reverse nodes in
  inodes ← from_option_or AttributeError (select_iterable st nodes);
  match inodes with
  | node :: _ => expand_node node
  | [] => mret false
  end.

Fixpoint expand_loop (fuel : nat) : M unit :=
  match fuel with
  | O => raise OutOfFuel
  | S fuel' =>
      more ← expand_step;
      if more : bool then expand_loop fuel' else mret tt
  end.

Definition _generate_expanded_graph (fuel : nat) : M unit :=
  st ← get_state;
  for_each (g_nodes (graph st)) tuple_to_list;;
  st ← get_state;
  for_each (g_nodes (graph st)) list_to_dict;;
  expand_loop fuel.


(** ** Vocabulary for the statements about the driver *)

(** The two conversion loops on one [iterables] value. *)
Definition as_list (it : iterables_t) : iterables_t :=
  match it with
  | ItTuple name vals => ItList [(name, vals)]
  | _ => it
  end.

Definition as_dict (it : iterables_t) : iterables_t :=
  match it with
  | ItList l => ItDict (dict_of_pairs l)
  | _ => it
  end.

Definition normal_iterables (it : iterables_t) : iterables_t :=
  as_dict (as_list it).

(** The conversion loops as functions on the store. *)
Definition tuple_to_list_store (node : ref) (st : State) : State :=
  match iterables (node_at st node) with
  | ItTuple name vals =>
      update_node node (with_iterables (ItList [(name, vals)])) st
  | _ => st
  end.

Definition list_to_dict_store (node : ref) (st : State) : State :=
  match iterables (node_at st node) with
  | ItList l =>
      update_node node (with_iterables (ItDict (dict_of_pairs l))) st
  | _ => st
  end.

Definition normalize_store (st : State) : State :=
  let st1 := foldl (λ st n, tuple_to_list_store n st) st
                   (g_nodes (graph st)) in
  foldl (λ st n, list_to_dict_store n st) st1 (g_nodes (graph st1)).

(** A node still carries iterables when, in dictionary form, they have at
    least one key. *)
Definition has_iterables (nd : Node) : bool :=
  match normal_iterables (iterables nd) with
  | ItDict (_ :: _) => true
  | _ => false
  end.

(** The number of nodes of the graph that still carry iterables. *)
Definition pending_count (st : State) : nat :=
  length (filter (λ n, has_iterables (node_at st n)) (g_nodes (graph st))).

(** The store holds a networkx graph whose objects are allocated. *)
Definition store_ok (st : State) : Prop :=
  NoDup (g_nodes (graph st))
  ∧ Forall (λ e, e_src e ∈ g_nodes (graph st) ∧ e_dst e ∈ g_nodes (graph st)
                 ∧ e_connect e < next_connect st) (g_edges (graph st))
  ∧ Forall (λ r, r < next_node st) (g_nodes (graph st)).

#[global] Instance store_ok_dec st : Decision (store_ok st).
Proof. unfold store_ok. apply _. Defined.

(** A DiGraph holds at most one edge per ordered pair of nodes. *)
Definition simple (g : DiGraph) : Prop :=
  NoDup ((λ e, (e_src e, e_dst e)) <$> g_edges g).

#[global] Instance simple_dec g : Decision (simple g).
Proof. unfold simple. apply _. Defined.

(** [supernodes[ids.index(nid)]]: the first node of the supergraph whose
    identity is [nid]. *)
Definition first_with_id (st : State) (nid : string) : option ref :=
  nidx ← py_index nid ((λ n, _id (node_at st n)) <$> g_nodes (graph st));
  g_nodes (graph st) !! nidx.

(** The edges the first loop of [_merge_graphs] records for the node [y] of
    the subgraph: those that enter, from outside the subgraph, the node of
    the supergraph that [ids.index] finds for the identity of [y] (the node
    [y] itself when no earlier node of the supergraph has its identity). *)
Definition inbound (st : State) (subgraph : DiGraph) (y : ref) (e0 : Edge)
    : Prop :=
  e0 ∈ g_edges (graph st) ∧ (e_src e0 ∉ g_nodes subgraph)
  ∧ first_with_id st (_id (node_at st y)) = Some (e_dst e0).

(** The dictionary [edgeinfo] the first loop of [_merge_graphs] builds when
    every [ids.index] succeeds. *)
Definition edgeinfo_of (st : State) (subgraph : DiGraph)
    : gmap string (list (ref * ref)) :=
  foldl (λ edgeinfo n,
           foldl (record_edge subgraph (_id (node_at st n))) edgeinfo
             (nx.in_edges (graph st)
                (g_nodes (graph st) !!!
                   default 0 (py_index (_id (node_at st n))
                     ((λ n, _id (node_at st n)) <$> g_nodes (graph st))))))
        ∅ (g_nodes subgraph).

(** Every node of the graph has its iterables in dictionary form, as after
    the two conversion loops. *)
Definition normal (st : State) : Prop :=
  ∀ n, n ∈ g_nodes (graph st) → ∃ d, iterables (node_at st n) = ItDict d.

(** The store in which the driver calls [_merge_graphs] for [node]: the
    iterables are taken off the node and "I" is appended to its identity. *)
Definition taken (node : ref) (st : State) : State :=
  update_node node (λ nd, with_id (_id nd +:+ "I") nd)
    (update_node node (with_iterables (ItDict [])) st).

(** ** Example stores *)

Definition plain_node (nid : string) : Node := mkNode nid (ItDict []) None ∅.

(** X -> A -> B, where A is the node whose iterables [{a: [1, 2], b: [3, 4]}]
    the driver has just taken off; B already has a parameterization. *)
Definition chain_store : State :=
  store_of
    [plain_node "X"; plain_node "AI";
     mkNode "B" (ItDict []) (Some ["_x_0"]) ∅]
    [[("out", "in")]; [("res", "arg")]]
    (mkDiGraph [0; 1; 2] [mkEdge 0 1 0; mkEdge 1 2 1]).

Definition chain_subgraph : DiGraph := nx.subgraph (graph chain_store) [1; 2].

Definition chain_iterables : list (string * producer) :=
  [("a", [VInt 1; VInt 2]); ("b", [VInt 3; VInt 4])].

(** Two unrelated nodes named "a" and "a0". *)
Definition twin_store : State :=
  store_of [plain_node "a"; plain_node "a0"] [] (mkDiGraph [0; 1] []).

(** One node swept over a single string value that contains a tab. *)
Definition tab_store : State :=
  store_of [plain_node "n"] [] (mkDiGraph [0] []).

Definition tab_iterables : list (string * producer) :=
  [("a", [VStr (String "x" (String "009" "y"))])].

(** X -> A -> B, where A sweeps [a] over 1 and 2, given as a tuple, the
    way a workflow hands the graph to the driver. *)
Definition sweep_store : State :=
  store_of
    [plain_node "X"; mkNode "A" (ItTuple "a" [VInt 1; VInt 2]) None ∅;
     plain_node "B"]
    [[("out", "in")]; [("res", "arg")]]
    (mkDiGraph [0; 1; 2] [mkEdge 0 1 0; mkEdge 1 2 1]).

(** The same graph when A's producer has no value. *)
Definition barren_store : State :=
  store_of
    [plain_node "X"; mkNode "A" (ItDict [("a", [])]) None ∅; plain_node "B"]
    [[("out", "in")]; [("res", "arg")]]
    (mkDiGraph [0; 1; 2] [mkEdge 0 1 0; mkEdge 1 2 1]).

(** Two nodes that feed each other; P still has its iterables as a list. *)
Definition loop_store : State :=
  store_of
    [mkNode "P" (ItList [("a", [VInt 1])]) None ∅; plain_node "Q"]
    [[("o", "i")]; [("o", "i")]]
    (mkDiGraph [0; 1] [mkEdge 0 1 0; mkEdge 1 0 1]).
(** * Properties *)

(** ** Strings *)

Lemma string_app_nil (b : string) : "" +:+ b = b.
Proof. reflexivity. Qed.

Lemma string_app_cons (x : ascii) (a b : string) :
  String x a +:+ b = String x (a +:+ b).
Proof. reflexivity. Qed.

Lemma string_app_assoc (a b c : string) : (a +:+ b) +:+ c = a +:+ (b +:+ c).
Proof.
  induction a as [|x a IH]; [done|]. by rewrite !string_app_cons, IH.
Qed.

Lemma subst_chars_app f a b :
  subst_chars f (a +:+ b) = subst_chars f a +:+ subst_chars f b.
Proof.
  induction a as [|c a IH]; [done|].
  rewrite string_app_cons. cbn [subst_chars].
  by rewrite IH, string_app_assoc.
Qed.

Lemma str_replace_char (a : ascii) (new s : string) :
  str_replace s (String a "") new
  = subst_chars (λ c, if decide (c = a) then new else String c "") s.
Proof.
  unfold str_replace. induction s as [|c s IH]; [done|].
  cbn [replace_from subst_chars String.prefix String.length].
  destruct (Ascii.ascii_dec a c) as [->|Hne].
  - rewrite decide_True by done.
    assert (String.prefix "" s = true) as -> by (by destruct s).
    change (1 - 1) with 0. by rewrite IH.
  - rewrite decide_False by congruence. rewrite string_app_cons, string_app_nil.
    by rewrite IH.
Qed.

Lemma _get_valid_pathstr_chars (s : string) :
  _get_valid_pathstr s = subst_chars valid_char s.
Proof.
  unfold _get_valid_pathstr, os_sep. cbn [foldl].
  rewrite !str_replace_char.
  induction s as [|c s IH]; [done|].
  cbn [subst_chars]. rewrite !subst_chars_app, IH. f_equal.
  unfold valid_char.
  repeat (case_decide; simplify_eq/=; try done); naive_solver.
Qed.

(** ** [walk] *)

Lemma store_all_union l p :
  store_all l p = list_to_map (reverse l) ∪ p.
Proof.
  revert p. induction l as [|[k v] l IH]; intros p.
  - unfold store_all. simpl. by rewrite (left_id_L ∅ (∪)).
  - unfold store_all in *. simpl. rewrite IH, reverse_cons, list_to_map_app.
    simpl. rewrite insert_empty, <-(assoc_L (∪)).
    by rewrite <-insert_union_singleton_l.
Qed.

Lemma store_all_agree l p p' :
  (∀ k, k ∉ l.*1 → p !! k = p' !! k) → store_all l p = store_all l p'.
Proof.
  intros Hag. rewrite !store_all_union. apply map_eq. intros k.
  rewrite !lookup_union.
  destruct (list_to_map (reverse l) !! k) as [v|] eqn:Hk.
  - by destruct (p !! k), (p' !! k).
  - apply not_elem_of_list_to_map in Hk. rewrite fmap_reverse in Hk.
    rewrite Hag; [done|]. by rewrite elem_of_reverse in Hk.
Qed.

Lemma cartesian_keys {K} (children : list (K * producer)) l :
  l ∈ cartesian children → l.*1 = children.*1.
Proof.
  revert l. induction children as [|[k vals] tail IH]; intros l; simpl.
  - by intros ->%list_elem_of_singleton.
  - intros (v & Hl & _)%list_elem_of_bind.
    apply list_elem_of_fmap in Hl as (rest & -> & Hrest). simpl.
    f_equal. by apply IH.
Qed.

Lemma cartesian_keyed_names level children :
  cartesian (keyed true level children)
  = (λ l : list (string * value), prod_map KName id <$> l)
    <$> cartesian children.
Proof.
  revert level. induction children as [|[name vals] tail IH]; intros level.
  - done.
  - cbn [cartesian keyed walk_key]. rewrite IH. clear IH.
    induction vals as [|v vals IHv]; [done|].
    rewrite !bind_cons, fmap_app, <-IHv. f_equal.
    by rewrite <-!list_fmap_compose.
Qed.

Lemma walk_loop_spec (k0 : key) (kt : list (key * producer))
    (rec : gmap key value → list (gmap key value) * gmap key value)
    (start : gmap key value) :
  (∀ p, (rec p).1 = (λ l, store_all l p) <$> cartesian kt
        ∧ ∀ k, k ∉ kt.*1 → (rec p).2 !! k = p !! k) →
  ∀ vals out pcur,
    (∀ k, k ∉ k0 :: kt.*1 → pcur !! k = start !! k) →
    let r := foldl (λ acc child,
               let path := <[k0 := child]> acc.2 in
               let r := rec path in (acc.1 ++ r.1, r.2)) (out, pcur) vals in
    r.1 = out ++ ((λ l, store_all l start) <$>
                  (v ← vals; (λ rest, (k0, v) :: rest) <$> cartesian kt))
    ∧ ∀ k, k ∉ k0 :: kt.*1 → r.2 !! k = start !! k.
Proof.
  intros Hrec. induction vals as [|v vals IHv]; intros out pcur Hag.
  - simpl. by rewrite (right_id_L [] (++)).
  - cbn [foldl]. cbv zeta. cbn [fst snd].
    destruct (Hrec (<[k0 := v]> pcur)) as [Hy Hp].
    destruct (IHv (out ++ (rec (<[k0:=v]> pcur)).1) (rec (<[k0:=v]> pcur)).2)
      as [Hy' Hp'].
    { intros k Hk. rewrite Hp by set_solver.
      rewrite lookup_insert_ne by set_solver. by apply Hag. }
    cbv zeta in Hy', Hp'. split; [|exact Hp'].
    rewrite Hy', Hy, bind_cons, fmap_app, <-(assoc_L (++)).
    do 2 f_equal. rewrite <-list_fmap_compose.
    apply Forall_fmap_ext, Forall_forall; intros l Hl. simpl.
    change (store_all ((k0, v) :: l) start)
      with (store_all l (<[k0 := v]> start)).
    apply store_all_agree. intros k Hk.
    rewrite (cartesian_keys _ _ Hl) in Hk.
    destruct (decide (k = k0)) as [->|Hne].
    + by rewrite !lookup_insert_eq.
    + rewrite !lookup_insert_ne by done. apply Hag. set_solver.
Qed.

Lemma walk_run_spec children level path usename :
  let start := if decide (level = 0) then ∅ else path in
  let r := walk_run children level path usename in
  r.1 = (λ l, store_all l start) <$> cartesian (keyed usename level children)
  ∧ ∀ k, k ∉ (keyed usename level children).*1 → r.2 !! k = start !! k.
Proof.
  revert level path.
  induction children as [|[name func] tail IH]; intros level path.
  - simpl. split; [by destruct (decide _)|done].
  - cbn [walk_run keyed cartesian]. cbv zeta.
    set (start := if decide (level = 0) then ∅ else path).
    destruct (walk_loop_spec (walk_key usename name level)
                (keyed usename (S level) tail)
                (λ p, walk_run tail (S level) p usename) start) with
      (vals := func) (out := @nil (gmap key value)) (pcur := start)
      as [Hy Hp]; [|done|].
    + intros p. apply (IH (S level) p).
    + split; [exact Hy|exact Hp].
Qed.

(** C4: the assignments [walk] yields are those of the cartesian product in
    nested-loop order (first pair outermost, last pair innermost), each pair
    list read as a mapping; for no pairs at all it yields the empty mapping
    once. *)
Theorem walk_cartesian_product (children : list (string * producer))
    (path : gmap key value) :
  walk children 0 path true = assignment_of <$> cartesian children
  ∧ walk [] 0 path true = [∅].
Proof.
  split; [|done]. unfold walk.
  destruct (walk_run_spec children 0 path true) as [Hy _]. simpl in Hy.
  rewrite Hy, cartesian_keyed_names, <-list_fmap_compose. done.
Qed.

(** ** The state monad *)

Lemma bind_run {A B} (m : M A) (f : A → M B) (st : State) :
  (m ≫= f) st = match m st with
                | (Ok a, st') => f a st'
                | (Raise e, st') => (Raise e, st')
                end.
Proof. reflexivity. Qed.

Lemma for_each_store {A} (l : list A) (body : A → M unit)
    (f : A → State → State) (st : State) :
  (∀ x st, x ∈ l → body x st = (Ok tt, f x st)) →
  for_each l body st = (Ok tt, foldl (λ st x, f x st) st l).
Proof.
  revert st. induction l as [|x l IH]; intros st Hbody; [done|].
  cbn [for_each foldl]. rewrite bind_run, Hbody by set_solver.
  apply IH. intros y st' Hy. apply Hbody. set_solver.
Qed.

Lemma for_each_modify {A} (l : list A) (f : A → State → State) (st : State) :
  for_each l (λ x, modify (f x)) st = (Ok tt, foldl (λ st x, f x st) st l).
Proof. by apply for_each_store. Qed.

(** ** Store updates *)

Lemma node_at_update_node r f st r' :
  node_at (update_node r f st) r'
  = if decide (r = r') then f (node_at st r) else node_at st r'.
Proof.
  unfold update_node. simpl. destruct (decide (r = r')) as [->|Hne].
  - by rewrite fn_lookup_insert.
  - by rewrite fn_lookup_insert_ne.
Qed.

Lemma foldl_update_node_fields (l : list ref) (f : ref → Node → Node) st :
  let st' := foldl (λ st n, update_node n (f n) st) st l in
  connect_at st' = connect_at st ∧ next_node st' = next_node st
  ∧ next_connect st' = next_connect st ∧ graph st' = graph st.
Proof.
  revert st. induction l as [|x l IH]; intros st; [done|].
  simpl. destruct (IH (update_node x (f x) st)) as (-> & -> & -> & ->). done.
Qed.

Lemma foldl_update_node_at (l : list ref) (f : ref → Node → Node) st r :
  NoDup l →
  node_at (foldl (λ st n, update_node n (f n) st) st l) r
  = if decide (r ∈ l) then f r (node_at st r) else node_at st r.
Proof.
  intros Hnd. revert st. induction Hnd as [|x l Hx Hnd IH]; intros st.
  - done.
  - simpl. rewrite IH, !node_at_update_node.
    repeat case_decide; simplify_eq; try done; set_solver.
Qed.

(** ** Lists: [index] *)

Lemma py_index_lookup {A} `{EqDecision A} (l : list A) j (x : A) :
  NoDup l → l !! j = Some x → py_index x l = Some j.
Proof.
  intros Hnd Hj. unfold py_index.
  assert (list_find (x =.) l = Some (j, x)) as ->; [|done].
  apply list_find_Some. split_and!; [done..|].
  intros j' y Hj' Hlt ->. pose proof (NoDup_lookup _ _ _ _ Hnd Hj Hj'). lia.
Qed.

Lemma py_index_Some {A} `{EqDecision A} (l : list A) j (x : A) :
  py_index x l = Some j →
  l !! j = Some x ∧ ∀ j' y, l !! j' = Some y → j' < j → x ≠ y.
Proof.
  unfold py_index. destruct (list_find _ l) as [[j' y]|] eqn:Hf; [|done].
  intros [= <-]. apply list_find_Some in Hf as (Hl & <- & Hmin). eauto.
Qed.

Lemma py_index_None {A} `{EqDecision A} (l : list A) (x : A) :
  py_index x l = None ↔ x ∉ l.
Proof.
  unfold py_index. rewrite fmap_None, list_find_None, Forall_forall.
  split; [intros H' Hx; by eapply H'|intros H' y Hy ->; done].
Qed.

Lemma py_index_is_Some {A} `{EqDecision A} (l : list A) (x : A) :
  x ∈ l → is_Some (py_index x l).
Proof.
  intros Hx. destruct (py_index x l) eqn:E; [by eexists|].
  by apply py_index_None in E.
Qed.

Lemma index_of_lookup {A} `{EqDecision A} (l : list A) j (x : A) :
  NoDup l → l !! j = Some x → index_of x l = j.
Proof. intros. unfold index_of. by erewrite py_index_lookup. Qed.

Lemma index_of_elem {A} `{EqDecision A} (l : list A) (x : A) :
  x ∈ l → l !! index_of x l = Some x.
Proof.
  intros [j Hj]%py_index_is_Some. unfold index_of. rewrite Hj. simpl.
  by apply py_index_Some in Hj as [? _].
Qed.

Lemma index_of_lt {A} `{EqDecision A} (l : list A) (x : A) :
  x ∈ l → index_of x l < length l.
Proof. intros Hx%index_of_elem. by eapply lookup_lt_Some. Qed.

Lemma index_of_not_elem {A} `{EqDecision A} (l : list A) (x : A) :
  x ∉ l → index_of x l = length l.
Proof. intros Hx%py_index_None. unfold index_of. by rewrite Hx. Qed.

Lemma fmap_index_of_seq {A} `{EqDecision A} (l : list A) (base : nat) :
  NoDup l → (λ x, base + index_of x l) <$> l = seq base (length l).
Proof.
  intros Hnd. apply list_eq. intros j.
  rewrite list_lookup_fmap.
  destruct (l !! j) as [x|] eqn:Hj; simpl.
  - rewrite (index_of_lookup _ _ _ Hnd Hj).
    apply lookup_lt_Some in Hj. by rewrite lookup_seq_lt.
  - apply lookup_ge_None in Hj. by rewrite lookup_seq_ge.
Qed.

(** ** deepcopy *)

Lemma graph_copy_nodes st g :
  NoDup (g_nodes g) →
  g_nodes (graph_copy st g) = seq (next_node st) (length (g_nodes g)).
Proof. intros. by apply fmap_index_of_seq. Qed.

Lemma deepcopy_run g st :
  deepcopy g st = (Ok (graph_copy st g), (deepcopy g st).2).
Proof. done. Qed.

Lemma deepcopy_node_old g st r :
  r < next_node st → node_at (deepcopy g st).2 r = node_at st r.
Proof. intros. simpl. rewrite decide_False by lia. done. Qed.

Lemma deepcopy_node_new g st j n :
  g_nodes g !! j = Some n →
  node_at (deepcopy g st).2 (next_node st + j) = node_at st n.
Proof.
  intros Hj. simpl. pose proof (lookup_lt_Some _ _ _ Hj).
  rewrite decide_True by lia.
  replace (next_node st + j - next_node st) with j by lia.
  by rewrite (list_lookup_total_correct _ _ _ Hj).
Qed.

Lemma deepcopy_connect_old g st c :
  c < next_connect st → connect_at (deepcopy g st).2 c = connect_at st c.
Proof. intros. simpl. rewrite decide_False by lia. done. Qed.

Lemma deepcopy_connect_new g st c :
  c ∈ e_connect <$> g_edges g →
  connect_at (deepcopy g st).2 (connect_copy st g c) = connect_at st c
  ∧ next_connect st ≤ connect_copy st g c < next_connect (deepcopy g st).2.
Proof.
  intros Hc. apply elem_of_remove_dups in Hc. fold (copied_connects g) in Hc.
  pose proof (index_of_lt _ _ Hc). pose proof (index_of_elem _ _ Hc) as Hl.
  unfold connect_copy. simpl. split; [|lia].
  rewrite decide_True by lia.
  replace (next_connect st + index_of c (copied_connects g) - next_connect st)
    with (index_of c (copied_connects g)) by lia.
  by rewrite (list_lookup_total_correct _ _ _ Hl).
Qed.

(** ** The loops of [merge_copy] *)

Lemma sorted_items_elem params kv :
  kv ∈ sorted_items params ↔ kv ∈ map_to_list params.
Proof. unfold sorted_items. by rewrite merge_sort_Permutation. Qed.

Lemma apply_params_run target params st :
  named params →
  apply_params target params st
  = (Ok (path_segment params), apply_params_store target params st).
Proof.
  intros Hn. unfold apply_params, path_segment, apply_params_store.
  assert (∀ kv, kv ∈ sorted_items params → ∃ name, kv.1 = KName name) as Hl.
  { intros kv Hkv. apply Hn. by apply sorted_items_elem. }
  generalize "" as acc. revert st Hl.
  induction (sorted_items params) as [|kv l IH]; intros st Hl acc; [done|].
  cbn [fold_each foldl]. rewrite bind_run.
  destruct (Hl kv) as [name Hname]; [set_solver|]. rewrite Hname.
  rewrite bind_run. simpl. rewrite <-Hname. apply IH.
  intros kv' Hkv'. apply Hl. set_solver.
Qed.

Lemma set_graph_same st : set_graph (graph st) st = st.
Proof. by destruct st. Qed.

Lemma reconnect_run edgeinfo i node st :
  reconnect edgeinfo i node st = (Ok tt, reconnect_store edgeinfo i node st).
Proof.
  unfold reconnect, reconnect_store, recorded_edges.
  rewrite bind_run. simpl. rewrite bind_run.
  destruct (edgeinfo !! _id (node_at st node)) as [infos|]; simpl.
  - rewrite for_each_modify. do 2 f_equal.
    clear. revert st. induction infos as [|info infos IH]; intros st.
    + simpl. by rewrite set_graph_same.
    + simpl. rewrite IH. by destruct st.
  - by rewrite set_graph_same.
Qed.

Lemma merge_copy_run subgraph nodeid edgeinfo i params st nodeidx :
  named params →
  py_index nodeid ((λ n, _id (node_at (deepcopy subgraph st).2 n))
                     <$> g_nodes (graph_copy st subgraph)) = Some nodeidx →
  merge_copy subgraph nodeid edgeinfo i params st
  = (Ok tt, merge_copy_store subgraph nodeidx edgeinfo i params st).
Proof.
  intros Hn Hidx. unfold merge_copy, merge_copy_store.
  rewrite bind_run, deepcopy_run. rewrite bind_run. cbn [get_state].
  rewrite Hidx. cbn [from_option_or]. rewrite bind_run. cbn [mret M_ret].
  rewrite bind_run, apply_params_run by done.
  rewrite bind_run, for_each_modify. rewrite bind_run. cbn [modify].
  rewrite bind_run. cbn [modify].
  apply for_each_store. intros. apply reconnect_run.
Qed.

Lemma merge_copy_fail subgraph nodeid edgeinfo i params st :
  py_index nodeid ((λ n, _id (node_at (deepcopy subgraph st).2 n))
                     <$> g_nodes (graph_copy st subgraph)) = None →
  merge_copy subgraph nodeid edgeinfo i params st
  = (Raise ValueError, (deepcopy subgraph st).2).
Proof.
  intros Hidx. unfold merge_copy.
  rewrite bind_run, deepcopy_run. rewrite bind_run. cbn [get_state].
  by rewrite Hidx.
Qed.

(** ** Node fields under the updates of [merge_copy] *)

Lemma set_inputs_fields params nd :
  _id (set_inputs params nd) = _id nd
  ∧ iterables (set_inputs params nd) = iterables nd
  ∧ parameterization (set_inputs params nd) = parameterization nd.
Proof.
  unfold set_inputs. revert nd.
  induction (sorted_items params) as [|kv l IH]; intros nd; [done|].
  simpl. destruct (IH (set_input kv.1 kv.2 nd)) as (-> & -> & ->). done.
Qed.

Lemma prepend_parameterization_fields s nd :
  _id (prepend_parameterization s nd) = _id nd
  ∧ iterables (prepend_parameterization s nd) = iterables nd
  ∧ inputs (prepend_parameterization s nd) = inputs nd
  ∧ parameterization (prepend_parameterization s nd)
    = Some (s :: default [] (parameterization nd)).
Proof.
  unfold prepend_parameterization. by destruct (parameterization nd) as [[|? ?]|].
Qed.

Lemma copied_node_fields i params b nd :
  _id (copied_node i params b nd) = _id nd +:+ pretty i
  ∧ iterables (copied_node i params b nd) = iterables nd
  ∧ parameterization (copied_node i params b nd)
    = Some (path_segment params :: default [] (parameterization nd))
  ∧ inputs (copied_node i params b nd)
    = inputs (if b then set_inputs params nd else nd).
Proof.
  unfold copied_node. simpl.
  destruct (prepend_parameterization_fields (path_segment params)
              (if b then set_inputs params nd else nd)) as (_ & -> & -> & ->).
  destruct b; [|done].
  by destruct (set_inputs_fields params nd) as (_ & -> & ->).
Qed.

Lemma apply_params_store_spec target params st :
  let st' := apply_params_store target params st in
  (∀ r, node_at st' r = if decide (r = target)
                        then set_inputs params (node_at st r)
                        else node_at st r)
  ∧ connect_at st' = connect_at st ∧ next_node st' = next_node st
  ∧ next_connect st' = next_connect st ∧ graph st' = graph st.
Proof.
  unfold apply_params_store, set_inputs. revert st.
  induction (sorted_items params) as [|kv l IH]; intros st.
  - simpl. split; [|done]. intros r. by case_decide; subst.
  - simpl. destruct (IH (update_node target (set_input kv.1 kv.2) st))
      as (Hn & -> & -> & -> & ->). split; [|done].
    intros r. rewrite Hn, node_at_update_node.
    case_decide; subst; [by rewrite decide_True|by rewrite decide_False].
Qed.

Lemma add_edges_from_app es1 es2 g :
  nx.add_edges_from (es1 ++ es2) g
  = nx.add_edges_from es2 (nx.add_edges_from es1 g).
Proof. unfold nx.add_edges_from. by rewrite foldl_app. Qed.

Lemma foldl_reconnect_store edgeinfo i l st :
  NoDup l →
  let st' := foldl (λ st n, reconnect_store edgeinfo i n st) st l in
  (∀ r, node_at st' r
        = if decide (r ∈ l)
          then with_id (_id (node_at st r) +:+ pretty i) (node_at st r)
          else node_at st r)
  ∧ connect_at st' = connect_at st ∧ next_node st' = next_node st
  ∧ next_connect st' = next_connect st
  ∧ graph st'
    = nx.add_edges_from (l ≫= recorded_edges edgeinfo st) (graph st).
Proof.
  intros Hnd. revert st. induction Hnd as [|x l Hx Hnd IH]; intros st.
  - simpl. done.
  - cbn [foldl]. cbv zeta.
    destruct (IH (reconnect_store edgeinfo i x st)) as (Hn & -> & -> & -> & ->).
    split; [|split_and!; try done].
    + intros r. rewrite Hn. unfold reconnect_store.
      rewrite !node_at_update_node. simpl.
      repeat case_decide; simplify_eq; try done; set_solver.
    + rewrite bind_cons, add_edges_from_app.
      assert (l ≫= recorded_edges edgeinfo (reconnect_store edgeinfo i x st)
              = l ≫= recorded_edges edgeinfo st) as ->; [|done].
      apply Forall_bind_ext, Forall_forall. intros n Hn'.
      unfold recorded_edges, reconnect_store.
      rewrite node_at_update_node. simpl.
      rewrite decide_False; [done|]. by intros ->.
Qed.

(** ** One copy of the subgraph *)

Lemma merge_copy_store_spec subgraph nodeidx edgeinfo i params st :
  NoDup (g_nodes subgraph) →
  nodeidx < length (g_nodes subgraph) →
  let ns := g_nodes subgraph in
  let st1 := (deepcopy subgraph st).2 in
  let st' := merge_copy_store subgraph nodeidx edgeinfo i params st in
  next_node st' = next_node st + length ns
  ∧ next_connect st' = next_connect st + length (copied_connects subgraph)
  ∧ connect_at st' = connect_at st1
  ∧ (∀ r, ¬ (next_node st ≤ r < next_node st + length ns) →
          node_at st' r = node_at st r)
  ∧ (∀ j n, ns !! j = Some n →
       node_at st' (next_node st + j)
       = copied_node i params (bool_decide (j = nodeidx)) (node_at st n))
  ∧ graph st'
    = nx.add_edges_from
        (seq (next_node st) (length ns) ≫= recorded_edges edgeinfo st1)
        (nx.add_edges_from (g_edges (graph_copy st subgraph))
           (nx.add_nodes_from (seq (next_node st) (length ns)) (graph st))).
Proof.
  intros Hnd Hidx ns st1 st'. subst ns. unfold st', merge_copy_store.
  rewrite graph_copy_nodes by done. fold st1.
  set (gc := seq (next_node st) (length (g_nodes subgraph))).
  assert (gc !!! nodeidx = next_node st + nodeidx) as Htarget.
  { apply list_lookup_total_correct. by apply lookup_seq_lt. }
  rewrite Htarget.
  set (st2 := apply_params_store (next_node st + nodeidx) params st1).
  destruct (apply_params_store_spec (next_node st + nodeidx) params st1)
    as (Hn2 & Hc2 & Hnn2 & Hnc2 & Hg2). fold st2 in Hn2, Hc2, Hnn2, Hnc2, Hg2.
  set (st3 := foldl (λ st n, update_node n
                 (prepend_parameterization (path_segment params)) st) st2 gc).
  destruct (foldl_update_node_fields gc
              (λ _, prepend_parameterization (path_segment params)) st2)
    as (Hc3 & Hnn3 & Hnc3 & Hg3). fold st3 in Hc3, Hnn3, Hnc3, Hg3.
  pose proof (λ r, foldl_update_node_at gc
              (λ _, prepend_parameterization (path_segment params)) st2 r
              (NoDup_seq _ _)) as Hn3. fold st3 in Hn3.
  set (st5 := set_graph _ (set_graph _ st3)).
  destruct (foldl_reconnect_store edgeinfo i gc st5 (NoDup_seq _ _))
    as (Hn6 & Hc6 & Hnn6 & Hnc6 & Hg6).
  assert (∀ r, node_at st5 r
             = if decide (r ∈ gc)
               then prepend_parameterization (path_segment params)
                      (if decide (r = next_node st + nodeidx)
                       then set_inputs params (node_at st1 r)
                       else node_at st1 r)
               else node_at st1 r) as Hn5.
  { intros r. unfold st5, set_graph. cbn [node_at]. rewrite Hn3, Hn2.
    destruct (decide (r ∈ gc)) as [Hin|Hin]; [done|].
    rewrite decide_False; [done|]. intros ->. apply Hin, elem_of_seq. lia. }
  split_and!.
  - rewrite Hnn6. unfold st5, set_graph. cbn [next_node]. by rewrite Hnn3, Hnn2.
  - rewrite Hnc6. unfold st5, set_graph. cbn [next_connect].
    by rewrite Hnc3, Hnc2.
  - rewrite Hc6. unfold st5, set_graph. cbn [connect_at]. by rewrite Hc3, Hc2.
  - intros r Hr. rewrite Hn6, Hn5.
    rewrite !decide_False; [|unfold gc; rewrite elem_of_seq; lia..].
    unfold st1, deepcopy. cbn [snd node_at]. by rewrite decide_False by lia.
  - intros j n Hj. pose proof (lookup_lt_Some _ _ _ Hj) as Hlt.
    assert (next_node st + j ∈ gc) as Hin by (apply elem_of_seq; lia).
    rewrite Hn6, Hn5, !decide_True by done.
    pose proof (deepcopy_node_new subgraph st j n Hj) as Hcopy.
    fold st1 in Hcopy. rewrite Hcopy. unfold copied_node.
    destruct (prepend_parameterization_fields (path_segment params)
      (if decide (next_node st + j = next_node st + nodeidx)
       then set_inputs params (node_at st n) else node_at st n)) as (-> & _).
    destruct (decide (j = nodeidx)) as [->|Hne].
    + rewrite decide_True, bool_decide_eq_true_2 by done.
      by destruct (set_inputs_fields params (node_at st n)) as (-> & _).
    + rewrite decide_False, bool_decide_eq_false_2 by lia. done.
  - rewrite Hg6.
    assert (gc ≫= recorded_edges edgeinfo st5
            = gc ≫= recorded_edges edgeinfo st1) as ->.
    { apply Forall_bind_ext, Forall_forall. intros r Hr.
      unfold recorded_edges. rewrite Hn5, decide_True by done.
      destruct (prepend_parameterization_fields (path_segment params)
        (if decide (r = next_node st + nodeidx)
         then set_inputs params (node_at st1 r) else node_at st1 r))
        as (-> & _).
      case_decide; [|done].
      by destruct (set_inputs_fields params (node_at st1 r)) as (-> & _). }
    unfold st5, set_graph. cbn [graph]. rewrite Hg3, Hg2. done.
Qed.

(** ** The networkx operations *)

Lemma add_node_nodes x n g :
  x ∈ g_nodes (nx.add_node n g) ↔ x ∈ g_nodes g ∨ x = n.
Proof.
  unfold nx.add_node. case_decide; simpl; [naive_solver|].
  rewrite elem_of_app, list_elem_of_singleton. done.
Qed.

Lemma add_node_edges n g : g_edges (nx.add_node n g) = g_edges g.
Proof. unfold nx.add_node. by case_decide. Qed.

Lemma add_node_NoDup n g : NoDup (g_nodes g) → NoDup (g_nodes (nx.add_node n g)).
Proof.
  intros Hnd. unfold nx.add_node. case_decide; simpl; [done|].
  apply NoDup_app. split_and!; [done| |apply NoDup_singleton].
  intros x Hx ->%list_elem_of_singleton. done.
Qed.

Lemma add_edge_nodes x e g :
  x ∈ g_nodes (nx.add_edge e g) ↔ x ∈ g_nodes g ∨ x = e_src e ∨ x = e_dst e.
Proof.
  unfold nx.add_edge. case_decide; simpl; rewrite !add_node_nodes; naive_solver.
Qed.

Lemma add_edge_NoDup e g :
  NoDup (g_nodes g) → NoDup (g_nodes (nx.add_edge e g)).
Proof.
  intros Hnd. unfold nx.add_edge.
  case_decide; simpl; by do 2 apply add_node_NoDup.
Qed.

Lemma add_edge_edges e' e g :
  e' ∈ g_edges (nx.add_edge e g) → e' = e ∨ e' ∈ g_edges g.
Proof.
  unfold nx.add_edge. rewrite !add_node_edges. case_decide; simpl.
  - intros (e0 & -> & He0)%list_elem_of_fmap. case_decide; auto.
  - rewrite elem_of_app, list_elem_of_singleton. naive_solver.
Qed.

Lemma add_nodes_from_nodes x ns g :
  x ∈ g_nodes (nx.add_nodes_from ns g) ↔ x ∈ g_nodes g ∨ x ∈ ns.
Proof.
  unfold nx.add_nodes_from. revert g.
  induction ns as [|n ns IH]; intros g; simpl.
  - set_solver.
  - rewrite IH, add_node_nodes. set_solver.
Qed.

Lemma add_nodes_from_edges ns g :
  g_edges (nx.add_nodes_from ns g) = g_edges g.
Proof.
  unfold nx.add_nodes_from. revert g.
  induction ns as [|n ns IH]; intros g; simpl; [done|].
  by rewrite IH, add_node_edges.
Qed.

Lemma add_nodes_from_NoDup ns g :
  NoDup (g_nodes g) → NoDup (g_nodes (nx.add_nodes_from ns g)).
Proof.
  unfold nx.add_nodes_from. revert g.
  induction ns as [|n ns IH]; intros g Hnd; simpl; [done|].
  by apply IH, add_node_NoDup.
Qed.

Lemma add_edges_from_nodes x es g :
  x ∈ g_nodes (nx.add_edges_from es g)
  ↔ x ∈ g_nodes g ∨ ∃ e, e ∈ es ∧ (x = e_src e ∨ x = e_dst e).
Proof.
  unfold nx.add_edges_from. revert g.
  induction es as [|e es IH]; intros g; simpl.
  - set_solver.
  - rewrite IH, add_edge_nodes. set_solver.
Qed.

Lemma add_edges_from_NoDup es g :
  NoDup (g_nodes g) → NoDup (g_nodes (nx.add_edges_from es g)).
Proof.
  unfold nx.add_edges_from. revert g.
  induction es as [|e es IH]; intros g Hnd; simpl; [done|].
  by apply IH, add_edge_NoDup.
Qed.

Lemma add_edges_from_edges e' es g :
  e' ∈ g_edges (nx.add_edges_from es g) → e' ∈ es ∨ e' ∈ g_edges g.
Proof.
  unfold nx.add_edges_from. revert g.
  induction es as [|e es IH]; intros g; simpl; [auto|].
  intros [?|[->|?]%add_edge_edges]%IH; set_solver.
Qed.

Lemma remove_nodes_from_nodes x ns g :
  x ∈ g_nodes (nx.remove_nodes_from ns g) ↔ x ∈ g_nodes g ∧ x ∉ ns.
Proof. unfold nx.remove_nodes_from. simpl. rewrite list_elem_of_filter. tauto. Qed.

Lemma remove_nodes_from_edges e ns g :
  e ∈ g_edges (nx.remove_nodes_from ns g)
  ↔ e ∈ g_edges g ∧ (e_src e ∉ ns) ∧ (e_dst e ∉ ns).
Proof. unfold nx.remove_nodes_from. simpl. rewrite list_elem_of_filter. tauto. Qed.

Lemma remove_nodes_from_NoDup ns g :
  NoDup (g_nodes g) → NoDup (g_nodes (nx.remove_nodes_from ns g)).
Proof. intros. by apply NoDup_filter. Qed.

Lemma subgraph_nodes x ns g :
  x ∈ g_nodes (nx.subgraph g ns) ↔ x ∈ g_nodes g ∧ x ∈ ns.
Proof. unfold nx.subgraph. simpl. rewrite list_elem_of_filter. tauto. Qed.

Lemma subgraph_edges e ns g :
  e ∈ g_edges (nx.subgraph g ns)
  ↔ e ∈ g_edges g ∧ e_src e ∈ ns ∧ e_dst e ∈ ns.
Proof. unfold nx.subgraph. simpl. rewrite list_elem_of_filter. tauto. Qed.

Lemma subgraph_NoDup ns g :
  NoDup (g_nodes g) → NoDup (g_nodes (nx.subgraph g ns)).
Proof. intros. by apply NoDup_filter. Qed.

Lemma in_edges_elem e g n :
  e ∈ nx.in_edges g n ↔ e ∈ g_edges g ∧ e_dst e = n.
Proof. unfold nx.in_edges. rewrite list_elem_of_filter. tauto. Qed.

(** ** The loop over the assignments *)

Lemma enumerate_snoc {A} (l : list A) (x : A) :
  enumerate (l ++ [x]) = enumerate l ++ [(length l, x)].
Proof.
  unfold enumerate. rewrite imap_app. simpl. by rewrite Nat.add_0_r.
Qed.

Lemma merge_store_snoc subgraph nodeidx edgeinfo assignments params st :
  merge_store subgraph nodeidx edgeinfo (assignments ++ [params]) st
  = merge_copy_store subgraph nodeidx edgeinfo (length assignments) params
      (merge_store subgraph nodeidx edgeinfo assignments st).
Proof. unfold merge_store. by rewrite enumerate_snoc, foldl_app. Qed.

Lemma merge_store_store subgraph nodeidx edgeinfo assignments st :
  NoDup (g_nodes subgraph) →
  nodeidx < length (g_nodes subgraph) →
  (∀ r, r ∈ g_nodes subgraph → r < next_node st) →
  let n := length (g_nodes subgraph) in
  let m := length (copied_connects subgraph) in
  let st' := merge_store subgraph nodeidx edgeinfo assignments st in
  next_node st' = next_node st + length assignments * n
  ∧ next_connect st' = next_connect st + length assignments * m
  ∧ (∀ r, ¬ (next_node st ≤ r < next_node st + length assignments * n) →
          node_at st' r = node_at st r)
  ∧ (∀ i params j x, assignments !! i = Some params →
       g_nodes subgraph !! j = Some x →
       node_at st' (next_node st + i * n + j)
       = copied_node i params (bool_decide (j = nodeidx)) (node_at st x))
  ∧ (∀ c, c < next_connect st → connect_at st' c = connect_at st c)
  ∧ (∀ i c, i < length assignments → c ∈ e_connect <$> g_edges subgraph →
       c < next_connect st →
       connect_at st' (next_connect st + i * m
                       + index_of c (copied_connects subgraph))
       = connect_at st c).
Proof.
  intros Hnd Hidx Hold n m. cbv zeta.
  induction assignments as [|params assignments IH] using rev_ind.
  - unfold merge_store. simpl. split_and!; try done; try lia.
  - rewrite merge_store_snoc, length_app. simpl.
    set (stk := merge_store subgraph nodeidx edgeinfo assignments st) in *.
    destruct IH as (Hnn & Hnc & Hframe & Hcopies & Hcold & Hcnew).
    destruct (merge_copy_store_spec subgraph nodeidx edgeinfo
                (length assignments) params stk Hnd Hidx)
      as (Hnn' & Hnc' & Hc' & Hframe' & Hcopy' & _).
    fold n in Hnn', Hframe', Hcopy'. fold m in Hnc'.
    split_and!.
    + rewrite Hnn', Hnn. lia.
    + rewrite Hnc', Hnc. lia.
    + intros r Hr. rewrite Hframe' by (rewrite Hnn; lia).
      apply Hframe. lia.
    + intros i params' j x Hi Hj.
      pose proof (lookup_lt_Some _ _ _ Hj) as Hjn. fold n in Hjn.
      apply lookup_app_Some in Hi as [Hi|[Hlen Hi]].
      * pose proof (lookup_lt_Some _ _ _ Hi) as Hik.
        rewrite Hframe' by (rewrite Hnn; nia). by apply Hcopies.
      * apply list_lookup_singleton_Some in Hi as [Hi0 <-].
        assert (i = length assignments) as -> by lia.
        rewrite <-Hnn, (Hcopy' j x Hj). f_equal.
        apply Hframe. apply list_elem_of_lookup_2 in Hj. apply Hold in Hj. lia.
    + intros c Hc. rewrite Hc', deepcopy_connect_old by (rewrite Hnc; lia).
      by apply Hcold.
    + intros i c Hi Hc Hc0. rewrite Hc'.
      pose proof Hc as Hc2. apply elem_of_remove_dups in Hc2.
      fold (copied_connects subgraph) in Hc2.
      pose proof (index_of_lt _ _ Hc2) as Hlt. fold m in Hlt.
      destruct (decide (i = length assignments)) as [->|Hne].
      * destruct (deepcopy_connect_new subgraph stk c Hc) as [Heq _].
        unfold connect_copy in Heq. rewrite Hnc in Heq. rewrite Heq.
        apply Hcold. done.
      * rewrite deepcopy_connect_old by (rewrite Hnc; nia).
        apply Hcnew; [lia|done..].
Qed.

Lemma merge_store_graph subgraph nodeidx edgeinfo assignments st :
  graph_ok subgraph →
  nodeidx < length (g_nodes subgraph) →
  (∀ r, r ∈ g_nodes subgraph → r < next_node st) →
  let ns := g_nodes subgraph in
  let n := length ns in
  let m := length (copied_connects subgraph) in
  let st' := merge_store subgraph nodeidx edgeinfo assignments st in
  (NoDup (g_nodes (graph st)) → NoDup (g_nodes (graph st')))
  ∧ (∀ x, x ∈ g_nodes (graph st) → x ∈ g_nodes (graph st'))
  ∧ (∀ x, next_node st ≤ x < next_node st + length assignments * n →
          x ∈ g_nodes (graph st'))
  ∧ (∀ x, x ∈ g_nodes (graph st') →
       x ∈ g_nodes (graph st)
       ∨ next_node st ≤ x < next_node st + length assignments * n
       ∨ ∃ j y info, ns !! j = Some y
           ∧ info ∈ default [] (edgeinfo !! _id (node_at st y))
           ∧ x = info.1)
  ∧ (∀ e, e ∈ g_edges (graph st') →
       e ∈ g_edges (graph st)
       ∨ (∃ i e0, i < length assignments ∧ e0 ∈ g_edges subgraph
           ∧ e = mkEdge (next_node st + i * n + index_of (e_src e0) ns)
                        (next_node st + i * n + index_of (e_dst e0) ns)
                        (next_connect st + i * m
                         + index_of (e_connect e0) (copied_connects subgraph)))
       ∨ (∃ i j y info, i < length assignments ∧ ns !! j = Some y
           ∧ info ∈ default [] (edgeinfo !! _id (node_at st y))
           ∧ e = mkEdge info.1 (next_node st + i * n + j) info.2)).
Proof.
  intros [Hnd Hends] Hidx Hold ns n m. subst ns n m. cbv zeta.
  remember (length (g_nodes subgraph)) as n eqn:Hn.
  remember (length (copied_connects subgraph)) as m eqn:Hm.
  induction assignments as [|params assignments IH] using rev_ind.
  - unfold merge_store. simpl. split_and!; try done; try lia; auto.
  - rewrite merge_store_snoc, length_app. simpl.
    set (stk := merge_store subgraph nodeidx edgeinfo assignments st) in *.
    destruct IH as (IHnd & IHold & IHnew & IHnodes & IHedges).
    destruct (merge_store_store subgraph nodeidx edgeinfo assignments st
                Hnd ltac:(by rewrite <-Hn) Hold) as (Hnn & Hnc & Hframe & _).
    fold stk in Hnn, Hnc, Hframe.
    rewrite <-Hn in Hnn, Hframe. rewrite <-Hm in Hnc.
    destruct (merge_copy_store_spec subgraph nodeidx edgeinfo
                (length assignments) params stk Hnd ltac:(by rewrite <-Hn))
      as (_ & _ & _ & _ & _ & Hg).
    rewrite <-Hn in Hg. rewrite Hg. clear Hg.
    set (gc := seq (next_node stk) n).
    set (st1 := (deepcopy subgraph stk).2).
    assert (∀ e, e ∈ gc ≫= recorded_edges edgeinfo st1 →
       ∃ j y info, g_nodes subgraph !! j = Some y
         ∧ info ∈ default [] (edgeinfo !! _id (node_at st y))
         ∧ e = mkEdge info.1 (next_node st + length assignments * n + j) info.2)
      as Hrec.
    { intros e (r & He & Hr)%list_elem_of_bind.
      apply elem_of_seq in Hr.
      destruct (lookup_lt_is_Some_2 (g_nodes subgraph) (r - next_node stk))
        as [y Hy]; [lia|].
      unfold recorded_edges in He.
      apply list_elem_of_fmap in He as (info & -> & Hinfo).
      exists (r - next_node stk), y, info. split_and!; [done| |f_equal; lia].
      pose proof (deepcopy_node_new subgraph stk _ _ Hy) as Hcopy.
      replace (next_node stk + (r - next_node stk)) with r in Hcopy by lia.
      fold st1 in Hcopy. rewrite Hcopy in Hinfo.
      rewrite Hframe in Hinfo; [done|].
      apply list_elem_of_lookup_2, Hold in Hy. lia. }
    assert (∀ e, e ∈ g_edges (graph_copy stk subgraph) →
       ∃ e0, e0 ∈ g_edges subgraph
         ∧ e = mkEdge
             (next_node st + length assignments * n + index_of (e_src e0) (g_nodes subgraph))
             (next_node st + length assignments * n
              + index_of (e_dst e0) (g_nodes subgraph))
             (next_connect st + length assignments * m
              + index_of (e_connect e0) (copied_connects subgraph))) as Hcp.
    { intros e (e0 & -> & He0)%list_elem_of_fmap. exists e0. split; [done|].
      unfold edge_copy, node_copy, connect_copy.
      by rewrite Hnn, Hnc. }
    split_and!.
    + intros Hnd0. by apply add_edges_from_NoDup, add_edges_from_NoDup,
        add_nodes_from_NoDup, IHnd.
    + intros x Hx. apply add_edges_from_nodes. left.
      apply add_edges_from_nodes. left. apply add_nodes_from_nodes. auto.
    + intros x Hx. apply add_edges_from_nodes. left.
      apply add_edges_from_nodes. left. apply add_nodes_from_nodes.
      destruct (decide (x < next_node stk)).
      * left. apply IHnew. lia.
      * right. apply elem_of_seq. lia.
    + intros x [[[Hx|Hx]%add_nodes_from_nodes|(e & He & Hx)]%add_edges_from_nodes
               |(e & He & Hx)]%add_edges_from_nodes.
      * destruct (IHnodes x Hx) as [?|[?|?]]; [auto|right; left; lia|auto].
      * apply elem_of_seq in Hx. right; left. lia.
      * destruct (Hcp e He) as (e0 & He0 & ->). simpl in Hx.
        destruct (Hends e0 He0) as [Hs Hd].
        apply index_of_lt in Hs, Hd. rewrite <-Hn in Hs, Hd.
        right; left. lia.
      * destruct (Hrec e He) as (j & y & info & Hy & Hinfo & ->). simpl in Hx.
        pose proof (lookup_lt_Some _ _ _ Hy) as Hj.
        destruct Hx as [->| ->];
          [right; right; by exists j, y, info|right; left; lia].
    + intros e [He|[He|He]%add_edges_from_edges]%add_edges_from_edges.
      * destruct (Hrec e He) as (j & y & info & Hy & Hinfo & ->).
        right; right. exists (length assignments), j, y, info.
        split_and!; [lia|done..].
      * destruct (Hcp e He) as (e0 & He0 & ->).
        right; left. exists (length assignments), e0. split_and!; [lia|done..].
      * rewrite add_nodes_from_edges in He.
        destruct (IHedges e He) as [?|[(i & e0 & ? & ? & ->)|(i & j & y & info & ? & ? & ? & ->)]].
        -- auto.
        -- right; left. exists i, e0. split_and!; [lia|done..].
        -- right; right. exists i, j, y, info. split_and!; [lia|done..].
Qed.

(** ** [collect_edgeinfo] and [_merge_graphs] *)

Lemma fold_each_pure {A B} (l : list A) (b : B) (body : B → A → M B)
    (f : B → A → B) (I : B → Prop) (st : State) :
  I b →
  (∀ b x, x ∈ l → I b → body b x st = (Ok (f b x), st) ∧ I (f b x)) →
  fold_each l b body st = (Ok (foldl f b l), st) ∧ I (foldl f b l).
Proof.
  revert b. induction l as [|x l IH]; intros b Hb Hbody; [done|].
  cbn [fold_each foldl]. rewrite bind_run.
  destruct (Hbody b x) as [-> Hb']; [set_solver|done|].
  apply IH; [done|]. intros b' y Hy. apply Hbody. set_solver.
Qed.

Lemma record_edge_inv st subgraph sn edgeinfo (es : list Edge) :
  sn ∈ g_nodes (graph st) →
  (∀ e, e ∈ es → e ∈ g_edges (graph st) ∧ e_dst e = sn) →
  recorded_from st subgraph edgeinfo →
  recorded_from st subgraph
    (foldl (record_edge subgraph (_id (node_at st sn))) edgeinfo es).
Proof.
  intros Hsn. revert edgeinfo.
  induction es as [|e es IH]; intros edgeinfo Hes Hinv; [done|].
  simpl. apply IH; [intros e' He'; apply Hes; set_solver|].
  unfold record_edge. case_decide as Hsrc; [|done].
  destruct (Hes e) as [He Hdst]; [set_solver|].
  intros nid infos info Hl Hinfo.
  destruct (decide (nid = _id (node_at st sn))) as [->|Hne].
  - rewrite lookup_insert_eq in Hl. injection Hl as <-.
    apply elem_of_app in Hinfo as [Hinfo|Hinfo%list_elem_of_singleton].
    + case_decide as Hdom.
      * rewrite lookup_insert_eq in Hinfo. simpl in Hinfo. set_solver.
      * destruct (edgeinfo !! _id (node_at st sn)) as [infos|] eqn:Hl;
          [|simpl in Hinfo; set_solver].
        by eapply Hinv.
    + subst info. exists e. by rewrite Hdst.
  - rewrite lookup_insert_ne in Hl by done. case_decide.
    + rewrite lookup_insert_ne in Hl by done. by eapply Hinv.
    + by eapply Hinv.
Qed.

Lemma collect_edgeinfo_run subgraph st :
  (∀ n, n ∈ g_nodes subgraph →
        _id (node_at st n) ∈ (λ n, _id (node_at st n)) <$> g_nodes (graph st)) →
  ∃ edgeinfo, collect_edgeinfo subgraph st = (Ok edgeinfo, st)
              ∧ recorded_from st subgraph edgeinfo.
Proof.
  intros Hids. unfold collect_edgeinfo. rewrite bind_run. cbn [get_state].
  eexists. apply (fold_each_pure _ _ _
    (λ edgeinfo n,
       foldl (record_edge subgraph (_id (node_at st n))) edgeinfo
         (nx.in_edges (graph st)
            (g_nodes (graph st) !!!
               default 0 (py_index (_id (node_at st n))
                  ((λ n, _id (node_at st n)) <$> g_nodes (graph st))))))
    (recorded_from st subgraph)).
  - intros nid infos info Hl. by rewrite lookup_empty in Hl.
  - intros edgeinfo n Hn Hinv.
    destruct (py_index_is_Some _ _ (Hids n Hn)) as [nidx Hidx].
    rewrite Hidx. cbn [from_option_or default]. rewrite bind_run.
    cbn [mret M_ret]. split; [done|].
    apply py_index_Some in Hidx as [Hidx _].
    apply list_lookup_fmap_Some in Hidx as (sn & Hid & Hsn).
    rewrite (list_lookup_total_correct _ _ _ Hsn), Hid.
    apply record_edge_inv; [by eapply list_elem_of_lookup_2| |done].
    intros e. by rewrite in_edges_elem.
Qed.

Lemma for_each_store_inv {A} (l : list A) (body : A → M unit)
    (f : A → State → State) (I : State → Prop) (st : State) :
  I st →
  (∀ x st, x ∈ l → I st → body x st = (Ok tt, f x st) ∧ I (f x st)) →
  for_each l body st = (Ok tt, foldl (λ st x, f x st) st l).
Proof.
  revert st. induction l as [|x l IH]; intros st Hst Hbody; [done|].
  cbn [for_each foldl]. rewrite bind_run.
  destruct (Hbody x st) as [-> Hst']; [set_solver|done|].
  apply IH; [done|]. intros y st' Hy. apply Hbody. set_solver.
Qed.

Lemma store_all_keys l p kv :
  kv ∈ map_to_list (store_all l p) → kv.1 ∈ l.*1 ∨ kv ∈ map_to_list p.
Proof.
  destruct kv as [k v]. rewrite !elem_of_map_to_list, store_all_union.
  intros [Hl|[Hl Hp]]%lookup_union_Some_raw; simpl.
  - left. apply elem_of_list_to_map_2 in Hl.
    rewrite elem_of_reverse in Hl.
    apply (list_elem_of_fmap_2 fst) in Hl. exact Hl.
  - by right.
Qed.

Lemma walk_named children path params :
  params ∈ walk children 0 path true → named params.
Proof.
  unfold walk. destruct (walk_run_spec children 0 path true) as [Hy _].
  simpl in Hy. rewrite Hy, cartesian_keyed_names, <-list_fmap_compose.
  intros (l & -> & _)%list_elem_of_fmap kv Hkv. cbn [compose] in Hkv.
  apply store_all_keys in Hkv as [Hkv|Hkv].
  - rewrite <-list_fmap_compose in Hkv.
    apply list_elem_of_fmap in Hkv as ([name v] & -> & _). by exists name.
  - by rewrite map_to_list_empty in Hkv; set_solver.
Qed.

Lemma copied_ids subgraph st0 st :
  (∀ r, r ∈ g_nodes subgraph → r < next_node st0) →
  next_node st0 ≤ next_node st →
  (∀ r, r < next_node st0 → node_at st r = node_at st0 r) →
  (λ n, _id (node_at (deepcopy subgraph st).2 n))
    <$> g_nodes (graph_copy st subgraph)
  = (λ n, _id (node_at st0 n)) <$> g_nodes subgraph.
Proof.
  intros Hold Hle Hframe. unfold graph_copy. cbn [g_nodes].
  rewrite <-list_fmap_compose. apply Forall_fmap_ext, Forall_forall.
  intros x Hx. cbn [compose]. unfold node_copy.
  rewrite (deepcopy_node_new subgraph st _ x) by by apply index_of_elem.
  rewrite Hframe; [done|]. by apply Hold.
Qed.

Lemma merge_graphs_run nodes subgraph nodeid iterables st nodeidx :
  NoDup (g_nodes subgraph) →
  (∀ r, r ∈ g_nodes subgraph → r < next_node st) →
  (∀ n, n ∈ g_nodes subgraph →
        _id (node_at st n) ∈ (λ n, _id (node_at st n)) <$> g_nodes (graph st)) →
  py_index nodeid ((λ n, _id (node_at st n)) <$> g_nodes subgraph)
    = Some nodeidx →
  ∃ edgeinfo,
    recorded_from st subgraph edgeinfo
    ∧ _merge_graphs nodes subgraph nodeid iterables st
      = (Ok tt,
         merge_store subgraph nodeidx edgeinfo (walk iterables 0 ∅ true)
           (set_graph (nx.remove_nodes_from nodes (graph st)) st)).
Proof.
  intros Hnd Hold Hids Hidx.
  destruct (collect_edgeinfo_run subgraph st Hids) as (edgeinfo & Hrun & Hrec).
  exists edgeinfo. split; [done|].
  unfold _merge_graphs. rewrite bind_run, Hrun. rewrite bind_run.
  cbn [modify]. unfold merge_store.
  set (st0 := set_graph (nx.remove_nodes_from nodes (graph st)) st).
  assert (nodeidx < length (g_nodes subgraph)) as Hlt.
  { apply py_index_Some in Hidx as [Hidx _].
    apply lookup_lt_Some in Hidx. by rewrite length_fmap in Hidx. }
  apply (for_each_store_inv _ _
    (λ ip st, merge_copy_store subgraph nodeidx edgeinfo ip.1 ip.2 st)
    (λ stk, next_node st0 ≤ next_node stk
            ∧ ∀ r, r < next_node st0 → node_at stk r = node_at st0 r)).
  - done.
  - intros [i params] stk Hip [Hle Hframe].
    apply elem_of_lookup_imap in Hip as (i' & params' & [= -> ->] & Hi).
    split.
    + apply merge_copy_run.
      * eapply walk_named. by eapply list_elem_of_lookup_2.
      * by rewrite (copied_ids subgraph st0 stk).
    + cbn [fst snd].
      destruct (merge_copy_store_spec subgraph nodeidx edgeinfo i' params' stk
                  Hnd Hlt) as (Hnn & _ & _ & Hfr & _).
      split; [lia|]. intros r Hr. rewrite Hfr by lia. by apply Hframe.
Qed.

Lemma merge_graphs_no_assignment nodes subgraph nodeid iterables st :
  (∀ n, n ∈ g_nodes subgraph →
        _id (node_at st n) ∈ (λ n, _id (node_at st n)) <$> g_nodes (graph st)) →
  walk iterables 0 ∅ true = [] →
  _merge_graphs nodes subgraph nodeid iterables st
  = (Ok tt, set_graph (nx.remove_nodes_from nodes (graph st)) st).
Proof.
  intros Hids Hwalk.
  destruct (collect_edgeinfo_run subgraph st Hids) as (edgeinfo & Hrun & Hrec).
  unfold _merge_graphs. rewrite bind_run, Hrun.
  rewrite bind_run. cbn [modify]. by rewrite Hwalk.
Qed.

(** ** Path segments *)

#[global] Instance key_le_total : Total key_le.
Proof.
  intros [s|m] [t|n]; simpl; try tauto.
  - apply (total String.le).
  - lia.
Qed.

#[global] Instance item_le_total : Total item_le.
Proof. intros x y. apply (total key_le). Qed.

Lemma sorted_items_sorted params :
  Sorted item_le (sorted_items params)
  ∧ sorted_items params ≡ₚ map_to_list params.
Proof.
  split; [apply (Sorted_merge_sort _)|apply merge_sort_Permutation].
Qed.

Lemma path_segment_items params :
  path_segment params
  = segment_of (subst_chars valid_char) (sorted_items params).
Proof.
  unfold path_segment, segment_of.
  assert (∀ l acc,
    foldl (λ paramstr kv,
             match kv.1 with
             | KName name => join_param paramstr name kv.2
             | KLevel _ => paramstr
             end) acc l
    = acc +:+ foldr (λ kv acc, item_segment (subst_chars valid_char) kv
                               +:+ acc) "" l) as Hgen.
  { induction l as [|kv l IH]; intros acc; simpl.
    - clear. induction acc as [|c acc IH]; [done|].
      by rewrite string_app_cons, <-IH.
    - rewrite IH. unfold item_segment, join_param.
      destruct kv.1; [|done].
      rewrite _get_valid_pathstr_chars, !string_app_assoc. done. }
  by rewrite Hgen.
Qed.

(** ** A duplication pass of [_merge_graphs] *)

Lemma merge_ready_run nodes subgraph nodeid iterables st :
  merge_ready st subgraph nodeid →
  ∃ nodeidx edgeinfo,
    nodeidx < length (g_nodes subgraph)
    ∧ recorded_from st subgraph edgeinfo
    ∧ _merge_graphs nodes subgraph nodeid iterables st
      = (Ok tt,
         merge_store subgraph nodeidx edgeinfo (walk iterables 0 ∅ true)
           (set_graph (nx.remove_nodes_from nodes (graph st)) st)).
Proof.
  intros (Hnd & Hedges & Hnodes & Hconn & Hid).
  rewrite Forall_forall in Hnodes.
  destruct (py_index_is_Some _ _ Hid) as [nodeidx Hidx].
  destruct (merge_graphs_run nodes subgraph nodeid iterables st nodeidx)
    as (edgeinfo & Hrec & Hrun); [done| | |done|].
  - intros r Hr. by apply Hnodes.
  - intros n Hn. apply (list_elem_of_fmap_2 (λ n, _id (node_at st n))).
    by apply Hnodes.
  - exists nodeidx, edgeinfo. split_and!; [|done..].
    apply py_index_Some in Hidx as [Hidx _].
    apply lookup_lt_Some in Hidx. by rewrite length_fmap in Hidx.
Qed.

(** C6: in a duplication pass every node of every copy gets the one path
    segment of the copy's assignment put in front of the parameterization
    the node had (an unset parameterization counts as empty); nothing that
    was there is removed or reordered.  The copies are nodes of the
    resulting supergraph. *)
Theorem merge_prepends_segment nodes subgraph nodeid iterables st :
  merge_ready st subgraph nodeid →
  ∃ st',
    _merge_graphs nodes subgraph nodeid iterables st = (Ok tt, st')
    ∧ ∀ i params j x,
        walk iterables 0 ∅ true !! i = Some params →
        g_nodes subgraph !! j = Some x →
        copy_ref st subgraph i j ∈ g_nodes (graph st')
        ∧ parameterization (node_at st' (copy_ref st subgraph i j))
          = Some ([path_segment params]
                  ++ default [] (parameterization (node_at st x))).
Proof.
  intros Hready.
  destruct (merge_ready_run nodes subgraph nodeid iterables st Hready)
    as (nodeidx & edgeinfo & Hidx & Hrec & Hrun).
  destruct Hready as (Hnd & Hedges & Hnodes & Hconn & Hid).
  rewrite Forall_forall in Hnodes. rewrite Forall_forall in Hedges.
  set (st0 := set_graph (nx.remove_nodes_from nodes (graph st)) st) in *.
  eexists. split; [exact Hrun|]. intros i params j x Hi Hj.
  destruct (merge_store_store subgraph nodeidx edgeinfo
              (walk iterables 0 ∅ true) st0 Hnd Hidx)
    as (_ & _ & _ & Hcopies & _); [intros r Hr; by apply Hnodes|].
  destruct (merge_store_graph subgraph nodeidx edgeinfo
              (walk iterables 0 ∅ true) st0)
    as (_ & _ & Hnew & _); [|done|intros r Hr; by apply Hnodes|].
  { split; [done|]. intros e He. destruct (Hedges e He) as (? & ? & _). done. }
  pose proof (lookup_lt_Some _ _ _ Hi). pose proof (lookup_lt_Some _ _ _ Hj).
  split.
  - apply Hnew. unfold copy_ref. cbn [st0 set_graph next_node]. nia.
  - unfold copy_ref.
    change (next_node st) with (next_node st0).
    rewrite (Hcopies i params j x Hi Hj).
    by destruct (copied_node_fields i params (bool_decide (j = nodeidx))
                   (node_at st0 x)) as (_ & _ & -> & _).
Qed.

Lemma merge_ready_copies nodes subgraph nodeid iterables st :
  merge_ready st subgraph nodeid →
  ∃ st' nodeidx,
    _merge_graphs nodes subgraph nodeid iterables st = (Ok tt, st')
    ∧ ∀ i params j x,
        walk iterables 0 ∅ true !! i = Some params →
        g_nodes subgraph !! j = Some x →
        node_at st' (copy_ref st subgraph i j)
        = copied_node i params (bool_decide (j = nodeidx)) (node_at st x).
Proof.
  intros Hready.
  destruct (merge_ready_run nodes subgraph nodeid iterables st Hready)
    as (nodeidx & edgeinfo & Hidx & Hrec & Hrun).
  destruct Hready as (Hnd & Hedges & Hnodes & Hconn & Hid).
  rewrite Forall_forall in Hnodes.
  set (st0 := set_graph (nx.remove_nodes_from nodes (graph st)) st) in *.
  eexists _, nodeidx. split; [exact Hrun|]. intros i params j x Hi Hj.
  destruct (merge_store_store subgraph nodeidx edgeinfo
              (walk iterables 0 ∅ true) st0 Hnd Hidx)
    as (_ & _ & _ & Hcopies & _); [intros r Hr; by apply Hnodes|].
  unfold copy_ref. change (next_node st) with (next_node st0).
  by rewrite (Hcopies i params j x Hi Hj).
Qed.

(** C5 (as amended): the path segment attached to the nodes of a copy is the
    concatenation of ['_' name '_' sanitized-value] over the (name, value)
    pairs of the assignment sorted by name, where sanitising the value's
    string form removes the space character, '[' and ']', turns the path
    separator into '_' and ',' into '.', and leaves every other character,
    other whitespace included, as it is; the assignment {a: 1, b: 3} gives
    '_a_1_b_3'. *)
Theorem merge_path_segment nodes subgraph nodeid iterables st :
  merge_ready st subgraph nodeid →
  (∃ st',
    _merge_graphs nodes subgraph nodeid iterables st = (Ok tt, st')
    ∧ ∀ i params j x,
        walk iterables 0 ∅ true !! i = Some params →
        g_nodes subgraph !! j = Some x →
        ∃ items,
          Sorted item_le items
          ∧ items ≡ₚ map_to_list params
          ∧ Forall (λ kv, ∃ name, kv.1 = KName name) items
          ∧ head (default [] (parameterization
                                (node_at st' (copy_ref st subgraph i j))))
            = Some (segment_of (subst_chars valid_char) items))
  ∧ path_segment (<[KName "a" := VInt 1]> (<[KName "b" := VInt 3]> ∅))
    = "_a_1_b_3".
Proof.
  intros Hready. split; [|by vm_compute].
  destruct (merge_ready_copies nodes subgraph nodeid iterables st Hready)
    as (st' & nodeidx & Hrun & Hcopies).
  exists st'. split; [done|]. intros i params j x Hi Hj.
  exists (sorted_items params).
  destruct (sorted_items_sorted params) as [Hsorted Hperm].
  split_and!; [done..| |].
  - apply Forall_forall. intros kv Hkv.
    apply (walk_named iterables ∅ params); [by eapply list_elem_of_lookup_2|].
    by apply sorted_items_elem.
  - rewrite (Hcopies i params j x Hi Hj).
    destruct (copied_node_fields i params (bool_decide (j = nodeidx))
                (node_at st x)) as (_ & _ & -> & _).
    simpl. by rewrite path_segment_items.
Qed.

Lemma string_length_app (a b : string) :
  String.length (a +:+ b) = String.length a + String.length b.
Proof.
  induction a as [|c a IH]; [done|].
  rewrite string_app_cons. simpl. by rewrite IH.
Qed.

Lemma string_app_inj_r (a b s : string) : a +:+ s = b +:+ s → a = b.
Proof.
  revert b. induction a as [|c a IH]; intros [|d b] Heq; [done| | |].
  - apply (f_equal String.length) in Heq.
    rewrite string_app_nil, string_app_cons in Heq. simpl in Heq.
    rewrite string_length_app in Heq. lia.
  - apply (f_equal String.length) in Heq.
    rewrite string_app_nil, string_app_cons in Heq. simpl in Heq.
    rewrite string_length_app in Heq. lia.
  - rewrite !string_app_cons in Heq. injection Heq as -> Heq.
    f_equal. by apply IH.
Qed.

(** C2 (as amended): after a duplication pass every node of copy [i] has
    the identity of its original followed by [str(i)]; the identities of
    two copies of nodes with equal identities differ when the copies were
    made in different iterations, and the identities of two nodes of one
    copy differ when their originals' identities differ.  (An identity so
    formed may still coincide with that of a node outside the copies or of
    a copy of a differently named node in another iteration.) *)
Theorem merge_suffixed_identities nodes subgraph nodeid iterables st :
  merge_ready st subgraph nodeid →
  ∃ st',
    _merge_graphs nodes subgraph nodeid iterables st = (Ok tt, st')
    ∧ ∀ i params j x,
        walk iterables 0 ∅ true !! i = Some params →
        g_nodes subgraph !! j = Some x →
        _id (node_at st' (copy_ref st subgraph i j))
        = _id (node_at st x) +:+ pretty i
        ∧ ∀ i' params' j' x',
            walk iterables 0 ∅ true !! i' = Some params' →
            g_nodes subgraph !! j' = Some x' →
            (i ≠ i' ∧ _id (node_at st x) = _id (node_at st x')
             ∨ i = i' ∧ _id (node_at st x) ≠ _id (node_at st x')) →
            _id (node_at st' (copy_ref st subgraph i j))
            ≠ _id (node_at st' (copy_ref st subgraph i' j')).
Proof.
  intros Hready.
  destruct (merge_ready_copies nodes subgraph nodeid iterables st Hready)
    as (st' & nodeidx & Hrun & Hcopies).
  exists st'. split; [done|]. intros i params j x Hi Hj.
  assert (∀ i params j x,
    walk iterables 0 ∅ true !! i = Some params →
    g_nodes subgraph !! j = Some x →
    _id (node_at st' (copy_ref st subgraph i j))
    = _id (node_at st x) +:+ pretty i) as Hids.
  { clear i params j x Hi Hj. intros i params j x Hi Hj.
    rewrite (Hcopies i params j x Hi Hj).
    by destruct (copied_node_fields i params (bool_decide (j = nodeidx))
                   (node_at st x)) as (-> & _). }
  split; [by eapply Hids|].
  intros i' params' j' x' Hi' Hj' Hcase.
  rewrite (Hids i params j x Hi Hj), (Hids i' params' j' x' Hi' Hj').
  destruct Hcase as [[Hne Heq]|[-> Hne]].
  - rewrite Heq. intros Hs. apply (inj (String.append _)) in Hs.
    by apply (inj pretty) in Hs.
  - intros Hs. by apply string_app_inj_r in Hs.
Qed.

(** ** The claims on concrete stores *)

Lemma merge_prepends_segment_witness :
  merge_ready chain_store chain_subgraph "AI"
  ∧ ∃ st',
      _merge_graphs [1; 2] chain_subgraph "AI" chain_iterables chain_store
      = (Ok tt, st')
      ∧ ∀ i params j x,
          walk chain_iterables 0 ∅ true !! i = Some params →
          g_nodes chain_subgraph !! j = Some x →
          copy_ref chain_store chain_subgraph i j ∈ g_nodes (graph st')
          ∧ parameterization
              (node_at st' (copy_ref chain_store chain_subgraph i j))
            = Some ([path_segment params]
                    ++ default [] (parameterization (node_at chain_store x))).
Proof.
  split.
  - apply (bool_decide_unpack _). by vm_compute.
  - apply (merge_prepends_segment [1; 2] chain_subgraph "AI" chain_iterables
             chain_store).
    apply (bool_decide_unpack _). by vm_compute.
Defined.

Lemma merge_path_segment_witness :
  merge_ready chain_store chain_subgraph "AI"
  ∧ path_segment (<[KName "a" := VInt 1]> (<[KName "b" := VInt 3]> ∅))
    = "_a_1_b_3".
Proof.
  split.
  - apply (bool_decide_unpack _). by vm_compute.
  - apply (merge_path_segment [1; 2] chain_subgraph "AI" chain_iterables
             chain_store).
    apply (bool_decide_unpack _). by vm_compute.
Defined.

Lemma merge_suffixed_identities_witness :
  merge_ready chain_store chain_subgraph "AI"
  ∧ ∃ st',
      _merge_graphs [1; 2] chain_subgraph "AI" chain_iterables chain_store
      = (Ok tt, st')
      ∧ ∀ i params j x,
          walk chain_iterables 0 ∅ true !! i = Some params →
          g_nodes chain_subgraph !! j = Some x →
          _id (node_at st' (copy_ref chain_store chain_subgraph i j))
          = _id (node_at chain_store x) +:+ pretty i.
Proof.
  split.
  - apply (bool_decide_unpack _). by vm_compute.
  - destruct (merge_suffixed_identities [1; 2] chain_subgraph "AI"
                chain_iterables chain_store) as (st' & Hrun & Hids).
    + apply (bool_decide_unpack _). by vm_compute.
    + exists st'. split; [exact Hrun|]. intros i params j x Hi Hj.
      exact (proj1 (Hids i params j x Hi Hj)).
Defined.

(** C2, counterexample: in a supergraph with the two nodes "a" and "a0",
    duplicating "a" once gives the copy the identity "a0", which the other
    node already has. *)
Lemma merge_identity_collision :
  let run := _merge_graphs [0] (nx.subgraph (graph twin_store) [0]) "a"
               [("x", [VInt 1])] twin_store in
  merge_ready twin_store (nx.subgraph (graph twin_store) [0]) "a"
  ∧ NoDup ((λ n, _id (node_at twin_store n)) <$> g_nodes (graph twin_store))
  ∧ run.1 = Ok tt
  ∧ g_nodes (graph run.2) = [1; 2]
  ∧ _id (node_at run.2 1) = _id (node_at run.2 2).
Proof. cbv zeta. apply (bool_decide_unpack _). by vm_compute. Qed.

(** C5, counterexample: for the value "x<TAB>y" the segment attached to the
    copy keeps the tab, whereas stripping whitespace would remove it. *)
Lemma merge_segment_keeps_tab :
  let run := _merge_graphs [0] (nx.subgraph (graph tab_store) [0]) "n"
               tab_iterables tab_store in
  let params := assignment_of [("a", VStr (String "x" (String "009" "y")))] in
  run.1 = Ok tt
  ∧ walk tab_iterables 0 ∅ true = [params]
  ∧ parameterization (node_at run.2 1)
    = Some [String "_" (String "a" (String "_"
              (String "x" (String "009" "y"))))]
  ∧ spec_path_segment params = "_a_xy"
  ∧ parameterization (node_at run.2 1) ≠ Some [spec_path_segment params].
Proof. cbv zeta. apply (bool_decide_unpack _). by vm_compute. Qed.

(** C3, counterexample: the edge X -> A carries the connect list stored at
    reference 0; after the pass each copy of A has an inbound edge from X
    that was placed by the pass and carries that same list object. *)
Lemma merge_shares_inbound_payload :
  let run := _merge_graphs [1; 2] chain_subgraph "AI" chain_iterables
               chain_store in
  run.1 = Ok tt
  ∧ mkEdge 0 1 0 ∈ g_edges (graph chain_store)
  ∧ (mkEdge 0 (copy_ref chain_store chain_subgraph 0 0) 0
       ∉ g_edges (graph chain_store))
  ∧ mkEdge 0 (copy_ref chain_store chain_subgraph 0 0) 0
      ∈ g_edges (graph run.2)
  ∧ mkEdge 0 (copy_ref chain_store chain_subgraph 1 0) 0
      ∈ g_edges (graph run.2).
Proof. cbv zeta. apply (bool_decide_unpack _). by vm_compute. Qed.

(** ** Paths, cycles and rankings *)

Lemma ranking_tc g rank u v :
  ranking g rank → tc (adjacent g) u v → rank u < rank v.
Proof.
  intros Hr. induction 1 as [u v (e & He & <- & <-)|u w v (e & He & <- & <-) _ IH].
  - by apply Hr.
  - pose proof (Hr e He). lia.
Qed.

Lemma ranking_acyclic g rank : ranking g rank → acyclic g.
Proof. intros Hr u Hu. pose proof (ranking_tc g rank u u Hr Hu). lia. Qed.

Lemma ranking_reachable g rank u v :
  ranking g rank → reachable g u v → u = v ∨ rank u < rank v.
Proof.
  intros Hr [->|Htc]%rtc_tc; [by left|right]. by eapply ranking_tc.
Qed.

Lemma not_is_source g R x :
  ¬ nx.is_source g R x → ∃ z, z ∈ R ∧ adjacent g z x.
Proof.
  unfold nx.is_source. intros Hn. apply not_Forall_Exists in Hn; [|apply _].
  apply Exists_exists in Hn as (e & He & Hne).
  apply dec_stable in Hne as [Hd Hs].
  exists (e_src e). split; [done|]. by exists e.
Qed.

Lemma is_source_cons g R r x :
  nx.is_source g R x → ¬ adjacent g r x → nx.is_source g (r :: R) x.
Proof.
  unfold nx.is_source. rewrite !Forall_forall. intros Hs Hadj e He [Hd Hin].
  apply elem_of_cons in Hin as [Hr|Hin].
  - apply Hadj. by exists e.
  - by apply (Hs e He).
Qed.

#[global] Instance adjacent_dec g u v : Decision (adjacent g u v).
Proof.
  refine (cast_if (decide (Exists (λ e, e_src e = u ∧ e_dst e = v) (g_edges g))));
    unfold adjacent; rewrite Exists_exists in *; naive_solver.
Defined.

(** In a graph without cycle, every node of a set is reached from a node of
    the set that has no predecessor in the set. *)
Lemma source_above g R v :
  acyclic g → v ∈ R →
  ∃ u, u ∈ R ∧ nx.is_source g R u ∧ reachable g u v.
Proof.
  intros Hac. revert v. induction R as [|r R IH]; intros v Hv; [set_solver|].
  assert (∃ u, u ∈ r :: R ∧ nx.is_source g (r :: R) u ∧ reachable g u r)
    as Hr.
  { destruct (decide (nx.is_source g (r :: R) r)) as [Hs|Hs].
    { exists r. split_and!; [set_solver|done|apply rtc_refl]. }
    apply not_is_source in Hs as (z & Hz & Hzr).
    apply elem_of_cons in Hz as [->|Hz].
    { destruct (Hac r). by apply tc_once. }
    destruct (IH z Hz) as (u & Hu & Hus & Huz).
    destruct (decide (adjacent g r u)) as [Hru|Hru].
    { destruct (Hac r). eapply tc_rtc_r; [|by apply rtc_once].
      eapply tc_rtc_r; [by apply tc_once|done]. }
    exists u. split_and!; [set_solver|by apply is_source_cons|].
    eapply rtc_r; done. }
  apply elem_of_cons in Hv as [->|Hv]; [done|].
  destruct (IH v Hv) as (u & Hu & Hus & Huv).
  destruct (decide (adjacent g r u)) as [Hru|Hru].
  - destruct Hr as (u' & Hu' & Hus' & Hur). exists u'. split_and!; [done..|].
    etrans; [done|]. by eapply rtc_l.
  - exists u. split_and!; [set_solver|by apply is_source_cons|done].
Qed.

(** ** [topological_sort] *)

Lemma index_of_cons_eq {A} `{EqDecision A} (x : A) l : index_of x (x :: l) = 0.
Proof.
  unfold index_of, py_index. cbn [list_find]. by rewrite decide_True.
Qed.

Lemma index_of_cons_ne {A} `{EqDecision A} (x y : A) l :
  x ≠ y → index_of x (y :: l) = S (index_of x l).
Proof.
  intros Hne. unfold index_of, py_index. cbn [list_find length].
  rewrite decide_False by done.
  by destruct (list_find (eq x) l) as [[? ?]|].
Qed.

Lemma topo_order_sound fuel g rem l :
  nx.topo_order fuel g rem = Some l →
  (∀ x, x ∈ l ↔ x ∈ rem) ∧ NoDup l
  ∧ ∀ e, e ∈ g_edges g → e_src e ∈ rem → e_dst e ∈ rem →
         index_of (e_src e) l < index_of (e_dst e) l.
Proof.
  revert rem l. induction fuel as [|fuel IH]; intros rem l.
  - destruct rem; simpl; [|done]. intros [= <-].
    split_and!; [intros x; tauto|constructor|set_solver].
  - destruct rem as [|r rem]; cbn [nx.topo_order].
    { intros [= <-]. split_and!; [intros x; tauto|constructor|set_solver]. }
    destruct (list_find _ _) as [[i n]|] eqn:Hfind; [|done].
    apply list_find_Some in Hfind as (Hi & Hsrc & _).
    apply list_elem_of_lookup_2 in Hi.
    destruct (nx.topo_order fuel g _) as [l'|] eqn:Hrec; [|done].
    cbn [fmap option_fmap option_map]. intros [= <-].
    destruct (IH _ _ Hrec) as (Hmem & Hnd & Hedges).
    assert (∀ x, x ∈ l' ↔ x ∈ r :: rem ∧ x ≠ n) as Hmem'.
    { intros x. rewrite Hmem, list_elem_of_filter. tauto. }
    split_and!.
    + intros x. rewrite elem_of_cons, Hmem'.
      destruct (decide (x = n)) as [->|]; naive_solver.
    + constructor; [|done]. rewrite Hmem'. tauto.
    + intros e He Hs Hd.
      assert (e_dst e ≠ n) as Hdn.
      { intros Hdn. unfold nx.is_source in Hsrc.
        rewrite Forall_forall in Hsrc. by apply (Hsrc e He). }
      rewrite (index_of_cons_ne (e_dst e)) by done.
      destruct (decide (e_src e = n)) as [->|Hsn].
      * rewrite index_of_cons_eq. lia.
      * rewrite index_of_cons_ne by done.
        apply ->Nat.succ_lt_mono. apply Hedges; [done|..];
          apply list_elem_of_filter; done.
Qed.

Lemma filter_ne_length (n : nat) (l : list nat) :
  n ∈ l → length (filter (λ m, m ≠ n) l) < length l.
Proof.
  induction l as [|x l IH]; [set_solver|].
  intros Hn. rewrite filter_cons. case_decide as Hx; simpl.
  - apply elem_of_cons in Hn as [->|Hn]; [done|]. apply IH in Hn. lia.
  - pose proof (length_filter (λ m, m ≠ n) l). lia.
Qed.

Lemma topo_order_complete fuel g rem :
  acyclic g → length rem ≤ fuel → is_Some (nx.topo_order fuel g rem).
Proof.
  intros Hac. revert rem. induction fuel as [|fuel IH]; intros rem Hlen.
  - destruct rem; simpl in *; [by eexists|lia].
  - destruct rem as [|r rem]; cbn [nx.topo_order]; [by eexists|].
    destruct (source_above g (r :: rem) r Hac) as (u & Hu & Hsrc & _);
      [set_solver|].
    destruct (list_find (nx.is_source g (r :: rem)) (r :: rem))
      as [[i n]|] eqn:Hfind.
    + apply list_find_Some in Hfind as (Hi & _ & _).
      apply list_elem_of_lookup_2 in Hi.
      destruct (IH (filter (λ m, m ≠ n) (r :: rem))) as [l' ->].
      * pose proof (filter_ne_length n (r :: rem) Hi). simpl in *. lia.
      * by eexists.
    + apply list_find_None in Hfind. rewrite Forall_forall in Hfind.
      by destruct (Hfind u Hu).
Qed.

Lemma topological_sort_sound g l :
  graph_ok g → nx.topological_sort g = Some l →
  (∀ x, x ∈ l ↔ x ∈ g_nodes g) ∧ NoDup l
  ∧ ranking g (λ x, index_of x l).
Proof.
  intros [Hnd Hends] Hsort.
  destruct (topo_order_sound _ _ _ _ Hsort) as (Hmem & Hndl & Hedges).
  split_and!; [done..|]. intros e He.
  destruct (Hends e He). by apply Hedges.
Qed.

Lemma topological_sort_complete g :
  acyclic g → is_Some (nx.topological_sort g).
Proof. intros. by apply topo_order_complete. Qed.

Lemma topological_sort_cycle g :
  graph_ok g → has_cycle g → nx.topological_sort g = None.
Proof.
  intros Hok [u Hu]. destruct (nx.topological_sort g) as [l|] eqn:Hsort; [|done].
  destruct (topological_sort_sound g l Hok Hsort) as (_ & _ & Hrank).
  by destruct (ranking_acyclic g _ Hrank u).
Qed.

Lemma acyclic_ranking g :
  graph_ok g → acyclic g → ∃ rank, ranking g rank.
Proof.
  intros Hok Hac. destruct (topological_sort_complete g Hac) as [l Hl].
  destruct (topological_sort_sound g l Hok Hl) as (_ & _ & Hrank). eauto.
Qed.

(** ** [dfs_preorder] *)

Lemma successors_elem g u v : v ∈ nx.successors g u ↔ adjacent g u v.
Proof.
  unfold nx.successors, adjacent. rewrite list_elem_of_fmap. split.
  - intros (e & -> & [He Hs]%list_elem_of_filter). by exists e.
  - intros (e & He & Hs & Hd). exists e. split; [done|].
    by apply list_elem_of_filter.
Qed.

Lemma dfs_visit_incl fuel g stack pre x :
  x ∈ pre → x ∈ nx.dfs_visit fuel g stack pre.
Proof.
  revert stack pre. induction fuel as [|fuel IH]; intros stack pre Hx; [done|].
  simpl. destruct stack as [|v rest]; [done|].
  case_decide; apply IH; set_solver.
Qed.

Lemma dfs_visit_sound fuel g s stack pre x :
  (∀ y, y ∈ stack → reachable g s y) →
  (∀ y, y ∈ pre → reachable g s y) →
  x ∈ nx.dfs_visit fuel g stack pre → reachable g s x.
Proof.
  revert stack pre. induction fuel as [|fuel IH]; intros stack pre Hst Hpre;
    [by apply Hpre|].
  simpl. destruct stack as [|v rest]; [by apply Hpre|].
  case_decide.
  - apply IH; [intros; apply Hst; set_solver|done].
  - apply IH.
    + intros y [Hy|Hy]%elem_of_app; [|apply Hst; set_solver].
      apply successors_elem in Hy. eapply rtc_r; [|done]. apply Hst. set_solver.
    + intros y [Hy|Hy%list_elem_of_singleton]%elem_of_app; [by apply Hpre|].
      subst. apply Hst. set_solver.
Qed.

Lemma filter_src_split (es : list Edge) (pre : list nat) (v : nat) :
  v ∉ pre →
  length (filter (λ e, e_src e ∉ pre) es)
  = length (filter (λ e, e_src e = v) es)
    + length (filter (λ e, e_src e ∉ pre ++ [v]) es).
Proof.
  intros Hv. induction es as [|e es IH]; [done|].
  rewrite !filter_cons.
  destruct (decide (e_src e = v)) as [Hev|Hev].
  - rewrite decide_True by (by rewrite Hev).
    rewrite (decide_False (P := e_src e ∉ pre ++ [v])) by set_solver.
    simpl. lia.
  - destruct (decide (e_src e ∈ pre)) as [Hin|Hin].
    + rewrite (decide_False (P := e_src e ∉ pre)) by tauto.
      rewrite (decide_False (P := e_src e ∉ pre ++ [v])) by set_solver. done.
    + rewrite (decide_True (P := e_src e ∉ pre)) by done.
      rewrite (decide_True (P := e_src e ∉ pre ++ [v])) by set_solver.
      simpl. lia.
Qed.

Lemma dfs_visit_closed fuel g stack pre :
  length stack + length (filter (λ e, e_src e ∉ pre) (g_edges g)) < fuel →
  (∀ u v, u ∈ pre → adjacent g u v → v ∈ pre ∨ v ∈ stack) →
  let r := nx.dfs_visit fuel g stack pre in
  (∀ x, x ∈ stack → x ∈ r)
  ∧ (∀ u v, u ∈ r → adjacent g u v → v ∈ r).
Proof.
  revert stack pre. induction fuel as [|fuel IH]; intros stack pre Hfuel Hinv;
    [lia|].
  cbn [nx.dfs_visit]. cbv zeta. destruct stack as [|v rest].
  - split; [set_solver|]. intros u w Hu Huw.
    destruct (Hinv u w Hu Huw); set_solver.
  - case_decide as Hv.
    + destruct (IH rest pre) as [Hst Hcl].
      * cbn [length] in Hfuel. lia.
      * intros u w Hu Huw. destruct (Hinv u w Hu Huw) as [?|Hw]; [by left|].
        apply elem_of_cons in Hw as [->|?]; auto.
      * split; [|done]. intros x [->|Hx]%elem_of_cons; [|by apply Hst].
        by apply dfs_visit_incl.
    + destruct (IH (nx.successors g v ++ rest) (pre ++ [v])) as [Hst Hcl].
      * rewrite (filter_src_split _ pre v Hv) in Hfuel.
        unfold nx.successors. rewrite length_app, length_fmap.
        cbn [length] in Hfuel. lia.
      * intros u w [Hu|Hu%list_elem_of_singleton]%elem_of_app Huw.
        -- destruct (Hinv u w Hu Huw) as [?|Hw]; [set_solver|].
           apply elem_of_cons in Hw as [->|?]; set_solver.
        -- subst u. right. apply elem_of_app. left. by apply successors_elem.
      * split; [|done]. intros x [->|Hx]%elem_of_cons.
        -- apply dfs_visit_incl. set_solver.
        -- apply Hst. set_solver.
Qed.

Lemma dfs_preorder_source g s : s ∈ nx.dfs_preorder g s.
Proof.
  unfold nx.dfs_preorder.
  destruct (dfs_visit_closed (2 + length (g_edges g)) g [s] []) as [Hst _].
  - pose proof (length_filter (λ e, e_src e ∉ []) (g_edges g)).
    cbn [length]. lia.
  - set_solver.
  - apply Hst. set_solver.
Qed.

Lemma dfs_preorder_sound g s x : x ∈ nx.dfs_preorder g s → reachable g s x.
Proof.
  apply dfs_visit_sound; [|set_solver].
  intros y ->%list_elem_of_singleton. apply rtc_refl.
Qed.

Lemma dfs_preorder_complete g s x : reachable g s x → x ∈ nx.dfs_preorder g s.
Proof.
  unfold nx.dfs_preorder.
  destruct (dfs_visit_closed (2 + length (g_edges g)) g [s] []) as [Hst Hcl].
  - pose proof (length_filter (λ e, e_src e ∉ []) (g_edges g)).
    cbn [length]. lia.
  - set_solver.
  - intros Hreach. apply rtc_nsteps in Hreach as [k Hk].
    revert x Hk. induction k as [|k IH]; intros x Hk.
    + apply nsteps_once_inv || inversion Hk; subst. apply Hst. set_solver.
    + apply nsteps_inv_r in Hk as (y & Hy & Hyx).
      eapply Hcl; [by apply IH|done].
Qed.

(** ** The conversion loops of [_generate_expanded_graph] *)

Lemma tuple_to_list_run node st :
  tuple_to_list node st = (Ok tt, tuple_to_list_store node st).
Proof.
  unfold tuple_to_list, tuple_to_list_store. rewrite bind_run. cbn [get_state].
  by destruct (iterables (node_at st node)).
Qed.

Lemma list_to_dict_run node st :
  list_to_dict node st = (Ok tt, list_to_dict_store node st).
Proof.
  unfold list_to_dict, list_to_dict_store. rewrite bind_run. cbn [get_state].
  by destruct (iterables (node_at st node)).
Qed.

Lemma as_list_idemp it : as_list (as_list it) = as_list it.
Proof. by destruct it. Qed.

Lemma as_dict_idemp it : as_dict (as_dict it) = as_dict it.
Proof. by destruct it. Qed.

Lemma conversion_fold (step : ref → State → State) (f : iterables_t → iterables_t)
    (l : list ref) (st : State) :
  (∀ it, f (f it) = f it) →
  (∀ n st, graph (step n st) = graph st ∧ next_node (step n st) = next_node st
           ∧ next_connect (step n st) = next_connect st
           ∧ connect_at (step n st) = connect_at st
           ∧ ∀ r, _id (node_at (step n st) r) = _id (node_at st r)
                  ∧ parameterization (node_at (step n st) r)
                    = parameterization (node_at st r)
                  ∧ inputs (node_at (step n st) r) = inputs (node_at st r)
                  ∧ iterables (node_at (step n st) r)
                    = if decide (r = n) then f (iterables (node_at st r))
                      else iterables (node_at st r)) →
  let st' := foldl (λ st n, step n st) st l in
  graph st' = graph st ∧ next_node st' = next_node st
  ∧ next_connect st' = next_connect st ∧ connect_at st' = connect_at st
  ∧ ∀ r, _id (node_at st' r) = _id (node_at st r)
         ∧ parameterization (node_at st' r) = parameterization (node_at st r)
         ∧ inputs (node_at st' r) = inputs (node_at st r)
         ∧ iterables (node_at st' r)
           = if decide (r ∈ l) then f (iterables (node_at st r))
             else iterables (node_at st r).
Proof.
  intros Hidem Hstep. revert st. induction l as [|x l IH]; intros st.
  - cbn [foldl]. split_and!; try done.
  - cbn [foldl]. cbv zeta.
    destruct (IH (step x st)) as (-> & -> & -> & -> & Hn).
    destruct (Hstep x st) as (-> & -> & -> & -> & Hx).
    split_and!; try done. intros r.
    destruct (Hn r) as (-> & -> & -> & ->).
    destruct (Hx r) as (-> & -> & -> & ->).
    split_and!; try done.
    repeat case_decide; simplify_eq; try done; set_solver.
Qed.

Lemma tuple_to_list_store_step n st :
  graph (tuple_to_list_store n st) = graph st
  ∧ next_node (tuple_to_list_store n st) = next_node st
  ∧ next_connect (tuple_to_list_store n st) = next_connect st
  ∧ connect_at (tuple_to_list_store n st) = connect_at st
  ∧ ∀ r, _id (node_at (tuple_to_list_store n st) r) = _id (node_at st r)
         ∧ parameterization (node_at (tuple_to_list_store n st) r)
           = parameterization (node_at st r)
         ∧ inputs (node_at (tuple_to_list_store n st) r)
           = inputs (node_at st r)
         ∧ iterables (node_at (tuple_to_list_store n st) r)
           = if decide (r = n) then as_list (iterables (node_at st r))
             else iterables (node_at st r).
Proof.
  unfold tuple_to_list_store.
  destruct (iterables (node_at st n)) eqn:Hit; split_and!; try done;
    intros r; rewrite ?node_at_update_node;
    destruct (decide (n = r)) as [->|Hne];
    rewrite ?decide_True, ?decide_False by done; rewrite ?Hit; done.
Qed.

Lemma list_to_dict_store_step n st :
  graph (list_to_dict_store n st) = graph st
  ∧ next_node (list_to_dict_store n st) = next_node st
  ∧ next_connect (list_to_dict_store n st) = next_connect st
  ∧ connect_at (list_to_dict_store n st) = connect_at st
  ∧ ∀ r, _id (node_at (list_to_dict_store n st) r) = _id (node_at st r)
         ∧ parameterization (node_at (list_to_dict_store n st) r)
           = parameterization (node_at st r)
         ∧ inputs (node_at (list_to_dict_store n st) r)
           = inputs (node_at st r)
         ∧ iterables (node_at (list_to_dict_store n st) r)
           = if decide (r = n) then as_dict (iterables (node_at st r))
             else iterables (node_at st r).
Proof.
  unfold list_to_dict_store.
  destruct (iterables (node_at st n)) eqn:Hit; split_and!; try done;
    intros r; rewrite ?node_at_update_node;
    destruct (decide (n = r)) as [->|Hne];
    rewrite ?decide_True, ?decide_False by done; rewrite ?Hit; done.
Qed.

Lemma normalize_store_spec st :
  let st' := normalize_store st in
  graph st' = graph st ∧ next_node st' = next_node st
  ∧ next_connect st' = next_connect st ∧ connect_at st' = connect_at st
  ∧ ∀ r, _id (node_at st' r) = _id (node_at st r)
         ∧ parameterization (node_at st' r) = parameterization (node_at st r)
         ∧ inputs (node_at st' r) = inputs (node_at st r)
         ∧ iterables (node_at st' r)
           = if decide (r ∈ g_nodes (graph st))
             then normal_iterables (iterables (node_at st r))
             else iterables (node_at st r).
Proof.
  unfold normalize_store. cbv zeta.
  destruct (conversion_fold tuple_to_list_store as_list (g_nodes (graph st)) st
              as_list_idemp tuple_to_list_store_step)
    as (Hg1 & Hnn1 & Hnc1 & Hc1 & Hn1).
  set (st1 := foldl (λ st n, tuple_to_list_store n st) st (g_nodes (graph st)))
    in *.
  destruct (conversion_fold list_to_dict_store as_dict (g_nodes (graph st1)) st1
              as_dict_idemp list_to_dict_store_step)
    as (-> & -> & -> & -> & Hn2).
  split_and!; try done. intros r.
  destruct (Hn2 r) as (-> & -> & -> & ->).
  destruct (Hn1 r) as (-> & -> & -> & ->). rewrite Hg1.
  split_and!; try done. by case_decide.
Qed.

Lemma generate_expanded_graph_run fuel st :
  _generate_expanded_graph fuel st = expand_loop fuel (normalize_store st).
Proof.
  unfold _generate_expanded_graph, normalize_store.
  rewrite bind_run. cbn [get_state]. rewrite bind_run.
  rewrite (for_each_store _ _ tuple_to_list_store)
    by (intros; apply tuple_to_list_run).
  rewrite bind_run. cbn [get_state]. rewrite bind_run.
  by rewrite (for_each_store _ _ list_to_dict_store)
    by (intros; apply list_to_dict_run).
Qed.

(** ** Selecting the node to expand *)

Lemma has_iterables_dict nd d :
  iterables nd = ItDict d → has_iterables nd = bool_decide (d ≠ []).
Proof. unfold has_iterables. intros ->. by destruct d. Qed.

Lemma select_iterable_dicts st l :
  (∀ n, n ∈ l → ∃ d, iterables (node_at st n) = ItDict d) →
  select_iterable st l
  = Some (filter (λ n, has_iterables (node_at st n)) l).
Proof.
  induction l as [|n l IH]; intros Hd; [done|].
  cbn [select_iterable]. destruct (Hd n) as [d Hn]; [set_solver|].
  unfold iterables_items at 1. rewrite Hn. cbn [mbind option_bind].
  rewrite IH by (intros; apply Hd; set_solver). cbn [mbind option_bind].
  rewrite filter_cons, (has_iterables_dict _ d Hn). f_equal.
  destruct d as [|kv d]; [done|].
  rewrite decide_True by (cbn; lia). by rewrite decide_True.
Qed.

Lemma filter_head {A} (P : A → Prop) `{∀ x, Decision (P x)} (l : list A) n rest :
  filter P l = n :: rest →
  ∃ p q, l = p ++ n :: q ∧ Forall (λ x, ¬ P x) p ∧ P n ∧ rest = filter P q.
Proof.
  induction l as [|x l IH]; [done|]. rewrite filter_cons.
  case_decide as Hx.
  - intros [= -> <-]. by exists [], l.
  - intros (p & q & -> & Hp & Hn & ->)%IH.
    exists (x :: p), q. split_and!; [done| |done..]. by constructor.
Qed.

Lemma expand_step_cycle st :
  nx.topological_sort (graph st) = None →
  expand_step st = (Raise NetworkXUnfeasible, st).
Proof.
  intros Hsort. unfold expand_step. rewrite bind_run. cbn [get_state].
  by rewrite Hsort.
Qed.

Lemma conversion_noop (step : ref → State → State) (l : list ref) st :
  (∀ n, n ∈ l → step n st = st) → foldl (λ st n, step n st) st l = st.
Proof.
  induction l as [|x l IH]; intros Hstep; [done|].
  cbn [foldl]. rewrite Hstep by set_solver. apply IH.
  intros n Hn. apply Hstep. set_solver.
Qed.

Lemma normalize_store_dicts st :
  (∀ n, n ∈ g_nodes (graph st) → ∃ d, iterables (node_at st n) = ItDict d) →
  normalize_store st = st.
Proof.
  intros Hd. unfold normalize_store. cbv zeta.
  rewrite (conversion_noop tuple_to_list_store).
  - apply conversion_noop. intros n [d Hn]%Hd.
    unfold list_to_dict_store. by rewrite Hn.
  - intros n [d Hn]%Hd. unfold tuple_to_list_store. by rewrite Hn.
Qed.

(** ** More on [walk] *)

Lemma cartesian_length {K} (children : list (K * producer)) :
  length (cartesian children)
  = foldr (λ kv acc, length kv.2 * acc) 1 children.
Proof.
  induction children as [|[k vals] tail IH]; [done|].
  cbn [cartesian foldr snd]. rewrite <-IH. clear IH.
  induction vals as [|v vals IHv]; [done|].
  rewrite bind_cons, length_app, length_fmap, IHv. cbn [length]. lia.
Qed.

Lemma keyed_producers usename level children :
  (keyed usename level children).*2 = children.*2.
Proof.
  revert level. induction children as [|[name func] tail IH]; intros level;
    [done|]. cbn [keyed fmap list_fmap snd]. f_equal. apply IH.
Qed.

Lemma product_producers {K K'} (l : list (K * producer))
    (l' : list (K' * producer)) :
  l.*2 = l'.*2 →
  foldr (λ kv acc, length kv.2 * acc) 1 l
  = foldr (λ kv acc, length kv.2 * acc) 1 l'.
Proof.
  revert l'. induction l as [|[k v] l IH]; intros [|[k' v'] l']; try done.
  cbn. intros [= -> Heq]. f_equal. by apply IH.
Qed.

Lemma walk_length children level path usename :
  length (walk children level path usename)
  = foldr (λ kv acc, length kv.2 * acc) 1 children.
Proof.
  unfold walk. destruct (walk_run_spec children level path usename) as [-> _].
  rewrite length_fmap, cartesian_length.
  apply product_producers, keyed_producers.
Qed.

(** X1: [walk] yields as many assignments as the product of the numbers of
    values of the producers, whatever the level, the dictionary passed in and
    the choice of keys. *)
Theorem walk_yield_count children level path usename :
  length (walk children level path usename)
  = foldr (λ kv acc, length kv.2 * acc) 1 children.
Proof. apply walk_length. Qed.

Lemma product_empty {K} (l : list (K * producer)) name :
  (name, []) ∈ l → foldr (λ kv acc, length kv.2 * acc) 1 l = 0.
Proof.
  induction l as [|[k v] l IH]; [by intros ?%elem_of_nil|].
  intros [[= <- <-]|Hin]%elem_of_cons; cbn; [done|].
  rewrite IH by done. lia.
Qed.

Lemma walk_empty children level path usename name :
  (name, []) ∈ children → walk children level path usename = [].
Proof.
  intros Hin. apply length_zero_iff_nil.
  unfold walk. destruct (walk_run_spec children level path usename) as [-> _].
  rewrite length_fmap, cartesian_length.
  rewrite (product_producers _ children) by apply keyed_producers.
  by eapply product_empty.
Qed.

(** X2: a producer without values anywhere in the sequence leaves [walk]
    without a single assignment. *)
Theorem walk_empty_producer children level path usename name :
  (name, []) ∈ children → walk children level path usename = [].
Proof. apply walk_empty. Qed.

Lemma walk_empty_producer_witness :
  walk [("a", [VInt 1; VInt 2]); ("b", [])] 0 ∅ true = [].
Proof. apply (walk_empty_producer _ 0 ∅ true "b"). set_solver. Defined.

Lemma keyed_levels level children children' :
  children.*2 = children'.*2 →
  keyed false level children = keyed false level children'.
Proof.
  revert level children'.
  induction children as [|[n f] tail IH]; intros level [|[n' f'] tail'];
    try done.
  cbn. intros [= -> Heq]. f_equal. by apply IH.
Qed.

(** X3: with [usename] false the names play no part: two sequences with the
    same producers give the same assignments, keyed by level. *)
Theorem walk_levels_ignore_names children children' level path :
  children.*2 = children'.*2 →
  walk children level path false = walk children' level path false.
Proof.
  intros Heq. unfold walk.
  destruct (walk_run_spec children level path false) as [-> _].
  destruct (walk_run_spec children' level path false) as [-> _].
  by rewrite (keyed_levels level children children').
Qed.

Lemma walk_levels_ignore_names_witness :
  walk [("a", [VInt 1; VInt 2]); ("b", [VInt 3])] 0 ∅ false
  = walk [("x", [VInt 1; VInt 2]); ("x", [VInt 3])] 0 ∅ false.
Proof. by apply walk_levels_ignore_names. Defined.

(** X4: above level 0 the yielded assignments extend the dictionary passed
    in: outside the keys of the sequence they agree with it. *)
Theorem walk_extends_path children level path usename m k :
  level ≠ 0 →
  m ∈ walk children level path usename →
  k ∉ (keyed usename level children).*1 →
  m !! k = path !! k.
Proof.
  intros Hlevel Hm Hk. unfold walk in Hm.
  destruct (walk_run_spec children level path usename) as [Hy _].
  rewrite decide_False in Hy by done. rewrite Hy in Hm.
  apply list_elem_of_fmap in Hm as (l & -> & Hl).
  rewrite store_all_union, lookup_union.
  rewrite (not_elem_of_list_to_map_1 _ k); [by rewrite (left_id_L None _)|].
  rewrite fmap_reverse, elem_of_reverse. by rewrite (cartesian_keys _ _ Hl).
Qed.

Lemma walk_extends_path_witness :
  {[KName "a" := VInt 1; KName "z" := VInt 9]}
    ∈ walk [("a", [VInt 1])] 1 {[KName "z" := VInt 9]} true
  ∧ ({[KName "a" := VInt 1; KName "z" := VInt 9]} : gmap key value)
      !! KName "z"
    = ({[KName "z" := VInt 9]} : gmap key value) !! KName "z".
Proof.
  assert ({[KName "a" := VInt 1; KName "z" := VInt 9]}
          ∈ walk [("a", [VInt 1])] 1 {[KName "z" := VInt 9]} true) as Hm.
  { apply (bool_decide_unpack _). by vm_compute. }
  split; [exact Hm|].
  apply (walk_extends_path [("a", [VInt 1])] 1 _ true _ _); [lia|exact Hm|].
  apply (bool_decide_unpack _). by vm_compute.
Defined.

(** ** More on [_get_valid_pathstr] and [replacefunk] *)

Lemma list_ascii_app (a b : string) :
  list_ascii_of_string (a +:+ b)
  = list_ascii_of_string a ++ list_ascii_of_string b.
Proof.
  induction a as [|c a IH]; [done|].
  rewrite string_app_cons. cbn [list_ascii_of_string]. by rewrite IH.
Qed.

Lemma subst_chars_list f s :
  list_ascii_of_string (subst_chars f s)
  = c ← list_ascii_of_string s; list_ascii_of_string (f c).
Proof.
  induction s as [|c s IH]; [done|].
  cbn [subst_chars list_ascii_of_string]. by rewrite list_ascii_app, IH.
Qed.

Lemma valid_char_fixed c :
  subst_chars valid_char (valid_char c) = valid_char c.
Proof.
  unfold valid_char. repeat case_decide; try done; cbn [subst_chars];
    unfold valid_char; repeat case_decide; try done; naive_solver.
Qed.

Lemma valid_char_clean c :
  Forall (λ c, c ∉ [" "; "["; "]"; "/"; ","]%char)
         (list_ascii_of_string (valid_char c)).
Proof.
  unfold valid_char.
  repeat case_decide; cbn [list_ascii_of_string];
    first [by apply Forall_nil
          |apply Forall_singleton; rewrite !elem_of_cons, elem_of_nil;
           naive_solver].
Qed.

(** X5: the result of [_get_valid_pathstr] holds no space, no bracket, no
    path separator and no comma. *)
Theorem _get_valid_pathstr_clean (s : string) :
  Forall (λ c, c ∉ [" "; "["; "]"; "/"; ","]%char)
         (list_ascii_of_string (_get_valid_pathstr s)).
Proof.
  rewrite _get_valid_pathstr_chars, subst_chars_list.
  apply Forall_bind, Forall_forall. intros c _. apply valid_char_clean.
Qed.

(** X6: [_get_valid_pathstr] changes nothing in a string it has produced. *)
Theorem _get_valid_pathstr_idempotent (s : string) :
  _get_valid_pathstr (_get_valid_pathstr s) = _get_valid_pathstr s.
Proof.
  rewrite !_get_valid_pathstr_chars.
  induction s as [|c s IH]; [done|].
  cbn [subst_chars]. by rewrite subst_chars_app, IH, valid_char_fixed.
Qed.

(** X7: [_get_valid_pathstr] works character by character: the result for a
    concatenation is the concatenation of the results. *)
Theorem _get_valid_pathstr_app (a b : string) :
  _get_valid_pathstr (a +:+ b) = _get_valid_pathstr a +:+ _get_valid_pathstr b.
Proof. rewrite !_get_valid_pathstr_chars. apply subst_chars_app. Qed.

Lemma str_delete_list (s : string) (a : ascii) :
  list_ascii_of_string (str_replace s (String a "") "")
  = filter (λ c, c ≠ a) (list_ascii_of_string s).
Proof.
  rewrite str_replace_char. induction s as [|c s IH]; [done|].
  cbn [subst_chars list_ascii_of_string].
  rewrite list_ascii_app, IH, filter_cons.
  destruct (decide (c = a)) as [->|Hne].
  - by rewrite decide_False by (intros Hc; by apply Hc).
  - by rewrite decide_True.
Qed.

(** X8: [replacefunk] deletes the characters '_', '.', '@' and '-' and keeps
    every other character, in order. *)
Theorem replacefunk_filter (x : string) :
  list_ascii_of_string (replacefunk x)
  = filter (λ c, c ∉ ["_"; "."; "@"; "-"]%char) (list_ascii_of_string x).
Proof.
  unfold replacefunk. rewrite !str_delete_list, !list_filter_filter.
  apply list_filter_iff. intros c. rewrite !elem_of_cons, elem_of_nil.
  naive_solver.
Qed.

(** ** Failures of [_merge_graphs] *)

Lemma collect_edgeinfo_fail subgraph st n :
  n ∈ g_nodes subgraph →
  _id (node_at st n) ∉ (λ n, _id (node_at st n)) <$> g_nodes (graph st) →
  collect_edgeinfo subgraph st = (Raise ValueError, st).
Proof.
  intros Hn Hid. unfold collect_edgeinfo. rewrite bind_run. cbn [get_state].
  generalize (∅ : gmap string (list (ref * ref))).
  revert Hn. generalize (g_nodes subgraph) as l.
  induction l as [|x l IH]; intros Hn acc; [by apply elem_of_nil in Hn|].
  cbn [fold_each]. rewrite bind_run, bind_run.
  destruct (py_index (_id (node_at st x))
              ((λ n, _id (node_at st n)) <$> g_nodes (graph st)))
    as [nidx|] eqn:Hidx; [|done].
  cbn [from_option_or mret M_ret]. apply IH.
  apply elem_of_cons in Hn as [->|Hn]; [|done].
  apply py_index_Some in Hidx as [Hidx _].
  by apply list_elem_of_lookup_2 in Hidx.
Qed.

(** X9: when the identity of a node of the subgraph is not the identity of
    any node of the supergraph, [_merge_graphs] raises ValueError (from
    [ids.index]) and has changed nothing: no node is removed, no copy made. *)
Theorem merge_unknown_subgraph_identity nodes subgraph nodeid iterables st n :
  n ∈ g_nodes subgraph →
  _id (node_at st n) ∉ (λ n, _id (node_at st n)) <$> g_nodes (graph st) →
  _merge_graphs nodes subgraph nodeid iterables st = (Raise ValueError, st).
Proof.
  intros Hn Hid. unfold _merge_graphs.
  by rewrite bind_run, (collect_edgeinfo_fail subgraph st n).
Qed.

Lemma merge_unknown_subgraph_identity_witness :
  2 ∈ g_nodes (mkDiGraph [2] [])
  ∧ (_id (node_at chain_store 2)
      ∉ (λ n, _id (node_at chain_store n))
          <$> g_nodes (graph (set_graph (mkDiGraph [0; 1] []) chain_store)))
  ∧ _merge_graphs [2] (mkDiGraph [2] []) "B" chain_iterables
      (set_graph (mkDiGraph [0; 1] []) chain_store)
    = (Raise ValueError, set_graph (mkDiGraph [0; 1] []) chain_store).
Proof.
  assert (2 ∈ g_nodes (mkDiGraph [2] [])) as H1 by set_solver.
  assert (_id (node_at chain_store 2)
      ∉ (λ n, _id (node_at chain_store n))
          <$> g_nodes (graph (set_graph (mkDiGraph [0; 1] []) chain_store)))
    as H2 by (apply (bool_decide_unpack _); by vm_compute).
  split_and!; [done..|].
  by apply (merge_unknown_subgraph_identity [2] (mkDiGraph [2] []) "B"
              chain_iterables _ 2).
Defined.

Lemma walk_nonempty iterables :
  Forall (λ kv, kv.2 ≠ []) iterables → walk iterables 0 ∅ true ≠ [].
Proof.
  intros Hall Hnil. apply (f_equal length) in Hnil.
  rewrite walk_length in Hnil. cbn [length] in Hnil.
  induction Hall as [|[name vals] l Hv _ IH]; [done|].
  cbn [foldr snd] in Hnil, Hv. destruct vals; [done|]. cbn [length] in Hnil.
  apply IH. lia.
Qed.

(** X10: when [nodeid] is not the identity of a node of the subgraph and
    every producer has a value, [_merge_graphs] raises ValueError (from the
    second [ids.index]) in the first turn of its loop, after the fact: the
    nodes are already removed from the supergraph and one copy of the
    subgraph's nodes is allocated; the objects that were there are as they
    were. *)
Theorem merge_unknown_nodeid nodes subgraph nodeid iterables st :
  (∀ n, n ∈ g_nodes subgraph →
        _id (node_at st n) ∈ (λ n, _id (node_at st n)) <$> g_nodes (graph st)) →
  (∀ r, r ∈ g_nodes subgraph → r < next_node st) →
  nodeid ∉ (λ n, _id (node_at st n)) <$> g_nodes subgraph →
  Forall (λ kv, kv.2 ≠ []) iterables →
  ∃ st',
    _merge_graphs nodes subgraph nodeid iterables st = (Raise ValueError, st')
    ∧ graph st' = nx.remove_nodes_from nodes (graph st)
    ∧ next_node st' = next_node st + length (g_nodes subgraph)
    ∧ ∀ r, r < next_node st → node_at st' r = node_at st r.
Proof.
  intros Hids Hold Hnone Hwalk%walk_nonempty.
  destruct (collect_edgeinfo_run subgraph st Hids) as (edgeinfo & Hrun & _).
  unfold _merge_graphs. rewrite bind_run, Hrun, bind_run. cbn [modify].
  destruct (walk iterables 0 ∅ true) as [|params rest]; [done|].
  set (st0 := set_graph (nx.remove_nodes_from nodes (graph st)) st).
  unfold enumerate. cbn [imap for_each]. rewrite bind_run.
  rewrite merge_copy_fail.
  - eexists. split; [done|]. split_and!; [done..|].
    intros r Hr. by rewrite deepcopy_node_old.
  - apply py_index_None. by rewrite (copied_ids subgraph st0 st0).
Qed.

Lemma merge_unknown_nodeid_witness :
  (∀ n, n ∈ g_nodes chain_subgraph →
        _id (node_at chain_store n)
          ∈ (λ n, _id (node_at chain_store n)) <$> g_nodes (graph chain_store))
  ∧ ∃ st',
      _merge_graphs [1; 2] chain_subgraph "X" chain_iterables chain_store
      = (Raise ValueError, st')
      ∧ graph st' = nx.remove_nodes_from [1; 2] (graph chain_store)
      ∧ next_node st' = next_node chain_store + length (g_nodes chain_subgraph)
      ∧ ∀ r, r < next_node chain_store →
             node_at st' r = node_at chain_store r.
Proof.
  assert (∀ n, n ∈ g_nodes chain_subgraph →
        _id (node_at chain_store n)
          ∈ (λ n, _id (node_at chain_store n)) <$> g_nodes (graph chain_store))
    as H1.
  { apply Forall_forall. apply (bool_decide_unpack _). by vm_compute. }
  split; [exact H1|].
  apply (merge_unknown_nodeid [1; 2] chain_subgraph "X" chain_iterables
           chain_store H1).
  - apply Forall_forall. apply (bool_decide_unpack _). by vm_compute.
  - apply (bool_decide_unpack _). by vm_compute.
  - apply (bool_decide_unpack _). by vm_compute.
Defined.

(** X11: when a producer has no value, [_merge_graphs] only removes [nodes]
    from the supergraph: no copy is made, and [nodeid] is never looked up,
    so that even an identity foreign to the subgraph raises nothing. *)
Theorem merge_empty_producer nodes subgraph nodeid iterables st name :
  (∀ n, n ∈ g_nodes subgraph →
        _id (node_at st n) ∈ (λ n, _id (node_at st n)) <$> g_nodes (graph st)) →
  (name, []) ∈ iterables →
  _merge_graphs nodes subgraph nodeid iterables st
  = (Ok tt, set_graph (nx.remove_nodes_from nodes (graph st)) st).
Proof.
  intros Hids Hin. apply merge_graphs_no_assignment; [done|].
  by eapply walk_empty.
Qed.

Lemma merge_empty_producer_witness :
  (∀ n, n ∈ g_nodes chain_subgraph →
        _id (node_at chain_store n)
          ∈ (λ n, _id (node_at chain_store n)) <$> g_nodes (graph chain_store))
  ∧ _merge_graphs [1; 2] chain_subgraph "nowhere"
      [("a", [VInt 1; VInt 2]); ("b", [])] chain_store
    = (Ok tt, set_graph (nx.remove_nodes_from [1; 2] (graph chain_store))
                chain_store).
Proof.
  assert (∀ n, n ∈ g_nodes chain_subgraph →
        _id (node_at chain_store n)
          ∈ (λ n, _id (node_at chain_store n)) <$> g_nodes (graph chain_store))
    as H1.
  { apply Forall_forall. apply (bool_decide_unpack _). by vm_compute. }
  split; [exact H1|].
  apply (merge_empty_producer [1; 2] chain_subgraph "nowhere" _ chain_store "b"
           H1).
  set_solver.
Defined.

(** ** What a duplication pass leaves alone *)

Lemma merge_ready_target nodes subgraph nodeid iterables st :
  merge_ready st subgraph nodeid →
  ∃ nodeidx edgeinfo,
    py_index nodeid ((λ n, _id (node_at st n)) <$> g_nodes subgraph)
      = Some nodeidx
    ∧ nodeidx < length (g_nodes subgraph)
    ∧ recorded_from st subgraph edgeinfo
    ∧ _merge_graphs nodes subgraph nodeid iterables st
      = (Ok tt,
         merge_store subgraph nodeidx edgeinfo (walk iterables 0 ∅ true)
           (set_graph (nx.remove_nodes_from nodes (graph st)) st)).
Proof.
  intros (Hnd & Hedges & Hnodes & Hconn & Hid).
  rewrite Forall_forall in Hnodes.
  destruct (py_index_is_Some _ _ Hid) as [nodeidx Hidx].
  destruct (merge_graphs_run nodes subgraph nodeid iterables st nodeidx)
    as (edgeinfo & Hrec & Hrun); [done| | |done|].
  - intros r Hr. by apply Hnodes.
  - intros n Hn. apply (list_elem_of_fmap_2 (λ n, _id (node_at st n))).
    by apply Hnodes.
  - exists nodeidx, edgeinfo. split_and!; [done| |done..].
    apply py_index_Some in Hidx as [Hidx _].
    apply lookup_lt_Some in Hidx. by rewrite length_fmap in Hidx.
Qed.

Lemma merge_ready_graph_ok st subgraph nodeid :
  merge_ready st subgraph nodeid →
  graph_ok subgraph ∧ ∀ r, r ∈ g_nodes subgraph → r < next_node st.
Proof.
  intros (Hnd & Hedges & Hnodes & _).
  rewrite Forall_forall in Hnodes. rewrite Forall_forall in Hedges.
  split; [split; [done|]|].
  - intros e He. destruct (Hedges e He) as (? & ? & _). done.
  - intros r Hr. by apply Hnodes.
Qed.

(** X12: a duplication pass allocates one node object per node of the
    subgraph and assignment and touches no object that was there before:
    the originals keep identity, iterables, parameterization and inputs, and
    the connect lists are as they were. *)
Theorem merge_leaves_objects nodes subgraph nodeid iterables st :
  merge_ready st subgraph nodeid →
  ∃ st',
    _merge_graphs nodes subgraph nodeid iterables st = (Ok tt, st')
    ∧ next_node st'
      = next_node st
        + foldr (λ kv acc, length kv.2 * acc) 1 iterables
          * length (g_nodes subgraph)
    ∧ (∀ r, r < next_node st → node_at st' r = node_at st r)
    ∧ (∀ c, c < next_connect st → connect_at st' c = connect_at st c).
Proof.
  intros Hready.
  destruct (merge_ready_run nodes subgraph nodeid iterables st Hready)
    as (nodeidx & edgeinfo & Hidx & Hrec & Hrun).
  destruct (merge_ready_graph_ok _ _ _ Hready) as [[Hnd _] Hold].
  set (st0 := set_graph (nx.remove_nodes_from nodes (graph st)) st) in *.
  eexists. split; [exact Hrun|].
  destruct (merge_store_store subgraph nodeidx edgeinfo
              (walk iterables 0 ∅ true) st0 Hnd Hidx Hold)
    as (Hnn & _ & Hframe & _ & Hcold & _).
  rewrite walk_length in Hnn.
  split_and!; [exact Hnn| |exact Hcold].
  intros r Hr. apply Hframe. cbn [st0 set_graph next_node]. lia.
Qed.

Lemma merge_leaves_objects_witness :
  merge_ready chain_store chain_subgraph "AI"
  ∧ ∃ st',
      _merge_graphs [1; 2] chain_subgraph "AI" chain_iterables chain_store
      = (Ok tt, st')
      ∧ next_node st'
        = next_node chain_store
          + foldr (λ kv acc, length kv.2 * acc) 1 chain_iterables
            * length (g_nodes chain_subgraph)
      ∧ (∀ r, r < next_node chain_store →
              node_at st' r = node_at chain_store r)
      ∧ (∀ c, c < next_connect chain_store →
              connect_at st' c = connect_at chain_store c).
Proof.
  split.
  - apply (bool_decide_unpack _). by vm_compute.
  - apply (merge_leaves_objects [1; 2] chain_subgraph "AI" chain_iterables
             chain_store).
    apply (bool_decide_unpack _). by vm_compute.
Defined.

Lemma set_inputs_union params nd :
  inputs (set_inputs params nd) = params ∪ inputs nd.
Proof.
  unfold set_inputs.
  assert (∀ l nd, inputs (foldl (λ nd kv, set_input kv.1 kv.2 nd) nd l)
                  = store_all l (inputs nd)) as ->.
  { clear. induction l as [|kv l IH]; intros nd; [done|].
    cbn [foldl]. by rewrite IH. }
  rewrite store_all_union. f_equal.
  destruct (sorted_items_sorted params) as [_ Hperm].
  rewrite <-(list_to_map_to_list params) at 2.
  apply list_to_map_proper.
  - rewrite fmap_reverse, reverse_Permutation, Hperm.
    apply NoDup_fst_map_to_list.
  - by rewrite reverse_Permutation.
Qed.

(** X13: in a duplication pass the assignment is stored into the inputs of
    one node per copy, the copy of the first node of the subgraph whose
    identity is [nodeid]: its inputs are those of the original overridden by
    the assignment.  Every other copy has the inputs of its original, and
    every copy has the iterables of its original. *)
Theorem merge_copy_inputs nodes subgraph nodeid its st :
  merge_ready st subgraph nodeid →
  ∃ st' nodeidx,
    _merge_graphs nodes subgraph nodeid its st = (Ok tt, st')
    ∧ py_index nodeid ((λ n, _id (node_at st n)) <$> g_nodes subgraph)
      = Some nodeidx
    ∧ ∀ i params j x,
        walk its 0 ∅ true !! i = Some params →
        g_nodes subgraph !! j = Some x →
        iterables (node_at st' (copy_ref st subgraph i j))
        = iterables (node_at st x)
        ∧ inputs (node_at st' (copy_ref st subgraph i j))
          = if decide (j = nodeidx) then params ∪ inputs (node_at st x)
            else inputs (node_at st x).
Proof.
  intros Hready.
  destruct (merge_ready_target nodes subgraph nodeid its st Hready)
    as (nodeidx & edgeinfo & Hpy & Hidx & Hrec & Hrun).
  destruct (merge_ready_graph_ok _ _ _ Hready) as [[Hnd _] Hold].
  set (st0 := set_graph (nx.remove_nodes_from nodes (graph st)) st) in *.
  eexists _, nodeidx. split_and!; [exact Hrun|exact Hpy|].
  intros i params j x Hi Hj.
  destruct (merge_store_store subgraph nodeidx edgeinfo
              (walk its 0 ∅ true) st0 Hnd Hidx Hold)
    as (_ & _ & _ & Hcopies & _).
  unfold copy_ref. change (next_node st) with (next_node st0).
  rewrite (Hcopies i params j x Hi Hj).
  destruct (copied_node_fields i params (bool_decide (j = nodeidx))
              (node_at st0 x)) as (_ & -> & _ & ->).
  split; [done|]. case_bool_decide.
  - rewrite decide_True by done. apply set_inputs_union.
  - by rewrite decide_False.
Qed.

Lemma merge_copy_inputs_witness :
  merge_ready chain_store chain_subgraph "AI"
  ∧ ∃ st' nodeidx,
      _merge_graphs [1; 2] chain_subgraph "AI" chain_iterables chain_store
      = (Ok tt, st')
      ∧ py_index "AI" ((λ n, _id (node_at chain_store n))
                         <$> g_nodes chain_subgraph) = Some nodeidx
      ∧ ∀ i params j x,
          walk chain_iterables 0 ∅ true !! i = Some params →
          g_nodes chain_subgraph !! j = Some x →
          iterables (node_at st' (copy_ref chain_store chain_subgraph i j))
          = iterables (node_at chain_store x)
          ∧ inputs (node_at st' (copy_ref chain_store chain_subgraph i j))
            = if decide (j = nodeidx)
              then params ∪ inputs (node_at chain_store x)
              else inputs (node_at chain_store x).
Proof.
  split.
  - apply (bool_decide_unpack _). by vm_compute.
  - apply (merge_copy_inputs [1; 2] chain_subgraph "AI" chain_iterables
             chain_store).
    apply (bool_decide_unpack _). by vm_compute.
Defined.

(** ** Well-formed graphs under the networkx operations *)

Lemma add_node_ok n g : graph_ok g → graph_ok (nx.add_node n g).
Proof.
  intros [Hnd Hends]. split; [by apply add_node_NoDup|].
  intros e. rewrite add_node_edges, !add_node_nodes.
  intros [? ?]%Hends. auto.
Qed.

Lemma add_edge_ok e g : graph_ok g → graph_ok (nx.add_edge e g).
Proof.
  intros [Hnd Hends]. split; [by apply add_edge_NoDup|].
  intros e' [->|[? ?]%Hends]%add_edge_edges; rewrite !add_edge_nodes; auto.
Qed.

Lemma add_nodes_from_ok ns g : graph_ok g → graph_ok (nx.add_nodes_from ns g).
Proof.
  unfold nx.add_nodes_from. revert g.
  induction ns as [|n ns IH]; intros g Hok; [done|].
  cbn [foldl]. by apply IH, add_node_ok.
Qed.

Lemma add_edges_from_ok es g : graph_ok g → graph_ok (nx.add_edges_from es g).
Proof.
  unfold nx.add_edges_from. revert g.
  induction es as [|e es IH]; intros g Hok; [done|].
  cbn [foldl]. by apply IH, add_edge_ok.
Qed.

Lemma remove_nodes_from_ok ns g :
  graph_ok g → graph_ok (nx.remove_nodes_from ns g).
Proof.
  intros [Hnd Hends]. split; [by apply remove_nodes_from_NoDup|].
  intros e (He & Hs & Hd)%remove_nodes_from_edges.
  rewrite !remove_nodes_from_nodes. destruct (Hends e He). auto.
Qed.

Lemma subgraph_ok ns g : graph_ok g → graph_ok (nx.subgraph g ns).
Proof.
  intros [Hnd Hends]. split; [by apply subgraph_NoDup|].
  intros e (He & Hs & Hd)%subgraph_edges.
  rewrite !subgraph_nodes. destruct (Hends e He). auto.
Qed.

Lemma merge_store_graph_ok subgraph nodeidx edgeinfo assignments st :
  NoDup (g_nodes subgraph) →
  nodeidx < length (g_nodes subgraph) →
  graph_ok (graph st) →
  graph_ok (graph (merge_store subgraph nodeidx edgeinfo assignments st)).
Proof.
  intros Hnd Hidx Hok.
  induction assignments as [|params assignments IH] using rev_ind; [done|].
  rewrite merge_store_snoc.
  destruct (merge_copy_store_spec subgraph nodeidx edgeinfo
              (length assignments) params
              (merge_store subgraph nodeidx edgeinfo assignments st) Hnd Hidx)
    as (_ & _ & _ & _ & _ & ->).
  by apply add_edges_from_ok, add_edges_from_ok, add_nodes_from_ok.
Qed.

Lemma store_ok_graph_ok st : store_ok st → graph_ok (graph st).
Proof.
  intros (Hnd & Hedges & _). rewrite Forall_forall in Hedges.
  split; [done|]. intros e He. destruct (Hedges e He) as (? & ? & _). done.
Qed.

Lemma store_ok_remove nodes st :
  store_ok st →
  store_ok (set_graph (nx.remove_nodes_from nodes (graph st)) st).
Proof.
  intros Hok. pose proof (store_ok_graph_ok _ Hok) as Hg.
  destruct Hok as (Hnd & Hedges & Hnodes).
  rewrite Forall_forall in Hedges. rewrite Forall_forall in Hnodes.
  destruct (remove_nodes_from_ok nodes _ Hg) as [Hnd' Hends'].
  split_and!; [done| |]; apply Forall_forall; cbn [graph set_graph].
  - intros e He. destruct (Hends' e He). split_and!; [done..|].
    apply remove_nodes_from_edges in He as [He _].
    by destruct (Hedges e He) as (_ & _ & ?).
  - intros r [Hr _]%remove_nodes_from_nodes. by apply Hnodes.
Qed.

(** The store after the loop over the assignments is well formed when the
    recorded edges come from objects in the store. *)
Lemma merge_store_ok subgraph nodeidx edgeinfo assignments st :
  graph_ok subgraph →
  nodeidx < length (g_nodes subgraph) →
  (∀ r, r ∈ g_nodes subgraph → r < next_node st) →
  store_ok st →
  (∀ nid infos info, edgeinfo !! nid = Some infos → info ∈ infos →
     info.1 < next_node st ∧ info.2 < next_connect st) →
  store_ok (merge_store subgraph nodeidx edgeinfo assignments st).
Proof.
  intros Hsub Hidx Hold Hok Hrec.
  pose proof (store_ok_graph_ok _ Hok) as Hg.
  destruct (merge_store_graph_ok subgraph nodeidx edgeinfo assignments st)
    as [Hnd' Hends']; [by destruct Hsub|done..|].
  destruct (merge_store_store subgraph nodeidx edgeinfo assignments st)
    as (Hnn & Hnc & _); [by destruct Hsub|done..|].
  destruct (merge_store_graph subgraph nodeidx edgeinfo assignments st
              Hsub Hidx Hold) as (_ & _ & _ & Hnodes & Hedges).
  destruct Hok as (Hnd & Hedges0 & Hnodes0).
  rewrite Forall_forall in Hedges0. rewrite Forall_forall in Hnodes0.
  assert (∀ y info, info ∈ default [] (edgeinfo !! _id (node_at st y)) →
            info.1 < next_node st ∧ info.2 < next_connect st) as Hrec'.
  { intros y info Hinfo.
    destruct (edgeinfo !! _id (node_at st y)) as [infos|] eqn:Hl;
      [|by apply elem_of_nil in Hinfo].
    by eapply Hrec. }
  split_and!; [done| |]; apply Forall_forall.
  - intros e He. destruct (Hends' e He). split_and!; [done..|].
    rewrite Hnc.
    destruct (Hedges e He)
      as [Hin|[(i & e0 & Hi & He0 & ->)|(i & j & y & info & Hi & Hy & Hinfo & ->)]].
    + destruct (Hedges0 e Hin) as (_ & _ & ?). lia.
    + cbn [e_connect].
      assert (index_of (e_connect e0) (copied_connects subgraph)
              < length (copied_connects subgraph)) as Hlt.
      { apply index_of_lt, elem_of_remove_dups.
        by apply (list_elem_of_fmap_2 e_connect). }
      nia.
    + cbn [e_connect]. destruct (Hrec' y info Hinfo). lia.
  - intros x Hx. rewrite Hnn.
    destruct (Hnodes x Hx) as [Hin|[?|(j & y & info & Hy & Hinfo & ->)]].
    + apply Hnodes0 in Hin. lia.
    + lia.
    + destruct (Hrec' y info Hinfo). lia.
Qed.

(** ** The graph after a duplication pass *)

Lemma recorded_from_bounds st subgraph edgeinfo :
  store_ok st → recorded_from st subgraph edgeinfo →
  ∀ nid infos info, edgeinfo !! nid = Some infos → info ∈ infos →
    info.1 ∈ g_nodes (graph st) ∧ (info.1 ∉ g_nodes subgraph)
    ∧ info.1 < next_node st ∧ info.2 < next_connect st.
Proof.
  intros (_ & Hedges & Hnodes) Hrec nid infos info Hl Hinfo.
  rewrite Forall_forall in Hedges. rewrite Forall_forall in Hnodes.
  destruct (Hrec nid infos info Hl Hinfo) as (e & He & Hsrc & _ & _ & ->).
  destruct (Hedges e He) as (Hs & _ & Hc). cbn [fst snd].
  split_and!; [done..| |done]. by apply Hnodes.
Qed.

Lemma merge_graphs_result nodes subgraph nodeid its st :
  store_ok st →
  merge_ready st subgraph nodeid →
  let ns := g_nodes subgraph in
  let k := length (walk its 0 ∅ true) in
  ∃ st' nodeidx,
    _merge_graphs nodes subgraph nodeid its st = (Ok tt, st')
    ∧ py_index nodeid ((λ n, _id (node_at st n)) <$> ns) = Some nodeidx
    ∧ store_ok st'
    ∧ next_node st' = next_node st + k * length ns
    ∧ (∀ r, r < next_node st → node_at st' r = node_at st r)
    ∧ (∀ i params j x,
         walk its 0 ∅ true !! i = Some params → ns !! j = Some x →
         node_at st' (copy_ref st subgraph i j)
         = copied_node i params (bool_decide (j = nodeidx)) (node_at st x))
    ∧ (∀ x, x ∈ g_nodes (graph st') →
         x ∈ g_nodes (graph st) ∧ ((x ∉ nodes) ∨ (x ∉ ns))
         ∨ next_node st ≤ x < next_node st + k * length ns)
    ∧ (∀ x, x ∈ g_nodes (graph st) → x ∉ nodes → x ∈ g_nodes (graph st'))
    ∧ (∀ x, next_node st ≤ x < next_node st + k * length ns →
            x ∈ g_nodes (graph st'))
    ∧ (∀ e, e ∈ g_edges (graph st') →
         e ∈ g_edges (graph st) ∧ (e_src e ∉ nodes) ∧ (e_dst e ∉ nodes)
         ∨ (∃ i e0, i < k ∧ e0 ∈ g_edges subgraph
              ∧ e_src e = copy_ref st subgraph i (index_of (e_src e0) ns)
              ∧ e_dst e = copy_ref st subgraph i (index_of (e_dst e0) ns))
         ∨ (∃ i j, i < k ∧ j < length ns
              ∧ e_src e ∈ g_nodes (graph st) ∧ (e_src e ∉ ns)
              ∧ e_dst e = copy_ref st subgraph i j)).
Proof.
  intros Hok Hready ns k.
  destruct (merge_ready_target nodes subgraph nodeid its st Hready)
    as (nodeidx & edgeinfo & Hpy & Hidx & Hrec & Hrun).
  destruct (merge_ready_graph_ok _ _ _ Hready) as [Hsub Hold].
  pose proof (recorded_from_bounds st subgraph edgeinfo Hok Hrec) as Hbounds.
  set (st0 := set_graph (nx.remove_nodes_from nodes (graph st)) st) in *.
  pose proof (store_ok_remove nodes st Hok) as Hok0. fold st0 in Hok0.
  destruct (merge_store_store subgraph nodeidx edgeinfo
              (walk its 0 ∅ true) st0 (proj1 Hsub) Hidx Hold)
    as (Hnn & _ & Hframe & Hcopies & _).
  destruct (merge_store_graph subgraph nodeidx edgeinfo
              (walk its 0 ∅ true) st0 Hsub Hidx Hold)
    as (_ & Hkeep & Hnew & Hnodes & Hedges).
  assert (∀ y info, info ∈ default [] (edgeinfo !! _id (node_at st0 y)) →
            info.1 ∈ g_nodes (graph st) ∧ (info.1 ∉ g_nodes subgraph))
    as Hrec'.
  { intros y info Hinfo.
    destruct (edgeinfo !! _id (node_at st0 y)) as [infos|] eqn:Hl;
      [|by apply elem_of_nil in Hinfo].
    destruct (Hbounds _ _ _ Hl Hinfo) as (? & ? & _). done. }
  eexists _, nodeidx. split_and!; [exact Hrun|exact Hpy|..].
  - apply merge_store_ok; [done..|].
    intros nid infos info Hl Hinfo.
    destruct (Hbounds _ _ _ Hl Hinfo) as (_ & _ & ? & ?). done.
  - exact Hnn.
  - intros r Hr. apply Hframe. cbn [st0 set_graph next_node]. lia.
  - intros i params j x Hi Hj. unfold copy_ref.
    change (next_node st) with (next_node st0).
    by rewrite (Hcopies i params j x Hi Hj).
  - intros x Hx.
    destruct (Hnodes x Hx) as [Hin|[?|(j & y & info & Hy & Hinfo & ->)]].
    + apply remove_nodes_from_nodes in Hin as [? ?]. left. auto.
    + by right.
    + destruct (Hrec' y info Hinfo). left. auto.
  - intros x Hx Hnot. apply Hkeep. by apply remove_nodes_from_nodes.
  - exact Hnew.
  - intros e He.
    destruct (Hedges e He)
      as [Hin|[(i & e0 & Hi & He0 & ->)|(i & j & y & info & Hi & Hy & Hinfo & ->)]].
    + left. by apply remove_nodes_from_edges in Hin.
    + right; left. by exists i, e0.
    + right; right. exists i, j. destruct (Hrec' y info Hinfo).
      pose proof (lookup_lt_Some _ _ _ Hy). done.
Qed.

(** X14: called, as the driver does, with [nodes] among the nodes of the
    subgraph, a duplication pass leaves a well-formed store whose supergraph
    has exactly the nodes that were not removed and the copies, each once. *)
Theorem merge_node_set nodes subgraph nodeid its st :
  store_ok st →
  merge_ready st subgraph nodeid →
  (∀ x, x ∈ nodes → x ∈ g_nodes subgraph) →
  ∃ st',
    _merge_graphs nodes subgraph nodeid its st = (Ok tt, st')
    ∧ store_ok st'
    ∧ ∀ x, x ∈ g_nodes (graph st')
           ↔ x ∈ g_nodes (graph st) ∧ x ∉ nodes
             ∨ next_node st ≤ x
               < next_node st
                 + foldr (λ kv acc, length kv.2 * acc) 1 its
                   * length (g_nodes subgraph).
Proof.
  intros Hok Hready Hsub.
  destruct (merge_graphs_result nodes subgraph nodeid its st Hok Hready)
    as (st' & nodeidx & Hrun & _ & Hok' & _ & _ & _ & Hnodes & Hkeep & Hnew & _).
  rewrite walk_length in Hnodes, Hnew.
  exists st'. split_and!; [done..|]. intros x. split.
  - intros [[Hx [Hn|Hn]]|Hx]%Hnodes; [by left| |by right].
    left. split; [done|]. intros Hin. by apply Hn, Hsub.
  - intros [[Hx Hn]|Hx]; [by apply Hkeep|by apply Hnew].
Qed.

Lemma merge_node_set_witness :
  store_ok chain_store
  ∧ merge_ready chain_store chain_subgraph "AI"
  ∧ ∃ st',
      _merge_graphs [1; 2] chain_subgraph "AI" chain_iterables chain_store
      = (Ok tt, st')
      ∧ store_ok st'
      ∧ ∀ x, x ∈ g_nodes (graph st')
             ↔ x ∈ g_nodes (graph chain_store) ∧ x ∉ [1; 2]
               ∨ next_node chain_store ≤ x
                 < next_node chain_store
                   + foldr (λ kv acc, length kv.2 * acc) 1 chain_iterables
                     * length (g_nodes chain_subgraph).
Proof.
  assert (store_ok chain_store) as H1
    by (apply (bool_decide_unpack _); by vm_compute).
  assert (merge_ready chain_store chain_subgraph "AI") as H2
    by (apply (bool_decide_unpack _); by vm_compute).
  split_and!; [done..|].
  apply (merge_node_set [1; 2] chain_subgraph "AI" chain_iterables chain_store
           H1 H2).
  apply Forall_forall. apply (bool_decide_unpack _). by vm_compute.
Defined.

(** X15: after a duplication pass no edge leaves a copy of the subgraph: an
    edge whose source is a node of copy [i] ends in a node of copy [i].  In
    particular no edge joins two copies. *)
Theorem merge_copies_closed nodes subgraph nodeid its st :
  store_ok st →
  merge_ready st subgraph nodeid →
  ∃ st',
    _merge_graphs nodes subgraph nodeid its st = (Ok tt, st')
    ∧ ∀ e i, e ∈ g_edges (graph st') →
        copy_ref st subgraph i 0 ≤ e_src e < copy_ref st subgraph (S i) 0 →
        copy_ref st subgraph i 0 ≤ e_dst e < copy_ref st subgraph (S i) 0.
Proof.
  intros Hok Hready.
  destruct (merge_graphs_result nodes subgraph nodeid its st Hok Hready)
    as (st' & nodeidx & Hrun & _ & _ & _ & _ & _ & _ & _ & _ & Hedges).
  destruct (merge_ready_graph_ok _ _ _ Hready) as [[_ Hends] _].
  destruct Hok as (_ & Hedges0 & Hnodes0).
  rewrite Forall_forall in Hedges0. rewrite Forall_forall in Hnodes0.
  exists st'. split; [done|]. intros e i He. unfold copy_ref.
  remember (length (g_nodes subgraph)) as n eqn:Hn.
  destruct (Hedges e He)
    as [(Hin & _)|[(i' & e0 & Hi & He0 & Hs & Hd)|(i' & j & _ & _ & Hs & _)]].
  - destruct (Hedges0 e Hin) as (Hs%Hnodes0 & _). lia.
  - destruct (Hends e0 He0) as [Hs0%index_of_lt Hd0%index_of_lt].
    unfold copy_ref in Hs, Hd. rewrite <-Hn in Hs, Hd, Hs0, Hd0.
    rewrite Hs, Hd. intros Hrange.
    assert (i' = i) as -> by nia. nia.
  - apply Hnodes0 in Hs. lia.
Qed.

Lemma merge_copies_closed_witness :
  store_ok chain_store
  ∧ merge_ready chain_store chain_subgraph "AI"
  ∧ ∃ st',
      _merge_graphs [1; 2] chain_subgraph "AI" chain_iterables chain_store
      = (Ok tt, st')
      ∧ ∀ e i, e ∈ g_edges (graph st') →
          copy_ref chain_store chain_subgraph i 0 ≤ e_src e
            < copy_ref chain_store chain_subgraph (S i) 0 →
          copy_ref chain_store chain_subgraph i 0 ≤ e_dst e
            < copy_ref chain_store chain_subgraph (S i) 0.
Proof.
  assert (store_ok chain_store) as H1
    by (apply (bool_decide_unpack _); by vm_compute).
  assert (merge_ready chain_store chain_subgraph "AI") as H2
    by (apply (bool_decide_unpack _); by vm_compute).
  split_and!; [done..|].
  apply (merge_copies_closed [1; 2] chain_subgraph "AI" chain_iterables
           chain_store H1 H2).
Defined.

(** A ranking of the supergraph after the pass, from one of the supergraph
    before and one of the subgraph: the copies are ranked above every node
    that was there, in the order of their originals. *)
Lemma merge_graphs_ranking nodes subgraph nodeid its st st' rank_g rank_s :
  store_ok st →
  merge_ready st subgraph nodeid →
  _merge_graphs nodes subgraph nodeid its st = (Ok tt, st') →
  ranking (graph st) rank_g →
  ranking subgraph rank_s →
  ranking (graph st')
    (λ r, if decide (r < next_node st) then rank_g r
          else S (max_list (rank_g <$> g_nodes (graph st)))
               + rank_s (g_nodes subgraph
                         !!! ((r - next_node st)
                              mod length (g_nodes subgraph)))).
Proof.
  intros Hok Hready Hrun Hg Hs.
  destruct (merge_graphs_result nodes subgraph nodeid its st Hok Hready)
    as (st'' & nodeidx & Hrun' & _ & _ & _ & _ & _ & _ & _ & _ & Hedges).
  rewrite Hrun in Hrun'. injection Hrun' as <-.
  destruct (merge_ready_graph_ok _ _ _ Hready) as [[_ Hends] _].
  destruct Hok as (_ & Hedges0 & Hnodes0).
  rewrite Forall_forall in Hedges0. rewrite Forall_forall in Hnodes0.
  remember (length (g_nodes subgraph)) as n eqn:Hn.
  assert (∀ i a x, g_nodes subgraph !! a = Some x →
    g_nodes subgraph !!! ((next_node st + i * n + a - next_node st) mod n) = x)
    as Horig.
  { intros i a x Ha. pose proof (lookup_lt_Some _ _ _ Ha) as Hlt.
    rewrite <-Hn in Hlt.
    replace (next_node st + i * n + a - next_node st) with (a + i * n) by lia.
    rewrite Nat.Div0.mod_add, Nat.mod_small by done.
    by apply list_lookup_total_correct. }
  intros e He.
  destruct (Hedges e He)
    as [(Hin & _)|[(i & e0 & Hi & He0 & Hsrc & Hdst)|(i & j & _ & Hj & Hsrc & _ & Hdst)]].
  - destruct (Hedges0 e Hin) as (Hs0%Hnodes0 & Hd0%Hnodes0 & _).
    rewrite !decide_True by done. by apply Hg.
  - destruct (Hends e0 He0) as [Hs0 Hd0].
    pose proof (index_of_lt _ _ Hs0). pose proof (index_of_lt _ _ Hd0).
    apply index_of_elem in Hs0, Hd0.
    rewrite Hsrc, Hdst. unfold copy_ref. rewrite <-Hn.
    rewrite !decide_False by lia.
    rewrite (Horig i _ _ Hs0), (Horig i _ _ Hd0).
    pose proof (Hs e0 He0). lia.
  - rewrite Hdst. unfold copy_ref. rewrite <-Hn.
    rewrite decide_True by by apply Hnodes0.
    rewrite decide_False by lia.
    assert (rank_g (e_src e) ≤ max_list (rank_g <$> g_nodes (graph st))).
    { by apply max_list_elem_of_le, list_elem_of_fmap_2. }
    lia.
Qed.

(** X16: a duplication pass of an acyclic subgraph into an acyclic
    supergraph leaves the supergraph acyclic. *)
Theorem merge_preserves_acyclic nodes subgraph nodeid its st :
  store_ok st →
  merge_ready st subgraph nodeid →
  acyclic (graph st) →
  acyclic subgraph →
  ∃ st',
    _merge_graphs nodes subgraph nodeid its st = (Ok tt, st')
    ∧ acyclic (graph st').
Proof.
  intros Hok Hready Hg Hs.
  destruct (acyclic_ranking _ (store_ok_graph_ok _ Hok) Hg) as [rank_g Hrg].
  destruct (merge_ready_graph_ok _ _ _ Hready) as [Hsub _].
  destruct (acyclic_ranking _ Hsub Hs) as [rank_s Hrs].
  destruct (merge_graphs_result nodes subgraph nodeid its st Hok Hready)
    as (st' & nodeidx & Hrun & _).
  exists st'. split; [done|].
  eapply ranking_acyclic.
  by apply (merge_graphs_ranking nodes subgraph nodeid its st st' rank_g rank_s).
Qed.

Lemma merge_preserves_acyclic_witness :
  store_ok chain_store
  ∧ merge_ready chain_store chain_subgraph "AI"
  ∧ acyclic (graph chain_store)
  ∧ acyclic chain_subgraph
  ∧ ∃ st',
      _merge_graphs [1; 2] chain_subgraph "AI" chain_iterables chain_store
      = (Ok tt, st')
      ∧ acyclic (graph st').
Proof.
  assert (store_ok chain_store) as H1
    by (apply (bool_decide_unpack _); by vm_compute).
  assert (merge_ready chain_store chain_subgraph "AI") as H2
    by (apply (bool_decide_unpack _); by vm_compute).
  assert (acyclic (graph chain_store)) as H3.
  { apply (ranking_acyclic _ id).
    unfold ranking.
    apply (proj1 (Forall_forall (λ e, id (e_src e) < id (e_dst e)) _)).
    apply (bool_decide_unpack _). by vm_compute. }
  assert (acyclic chain_subgraph) as H4.
  { apply (ranking_acyclic _ id).
    unfold ranking.
    apply (proj1 (Forall_forall (λ e, id (e_src e) < id (e_dst e)) _)).
    apply (bool_decide_unpack _). by vm_compute. }
  split_and!; [done..|].
  apply (merge_preserves_acyclic [1; 2] chain_subgraph "AI" chain_iterables
           chain_store H1 H2 H3 H4).
Defined.

(** ** One turn of the driver's loop *)

Lemma taken_spec node st :
  graph (taken node st) = graph st
  ∧ next_node (taken node st) = next_node st
  ∧ next_connect (taken node st) = next_connect st
  ∧ connect_at (taken node st) = connect_at st
  ∧ ∀ r, node_at (taken node st) r
         = if decide (r = node)
           then with_id (_id (node_at st node) +:+ "I")
                  (with_iterables (ItDict []) (node_at st node))
           else node_at st r.
Proof.
  unfold taken. split_and!; try done. intros r.
  rewrite !node_at_update_node.
  destruct (decide (node = r)) as [->|Hne].
  - by rewrite !decide_True.
  - by rewrite !decide_False by done.
Qed.

Lemma expand_node_run node st d :
  iterables (node_at st node) = ItDict d →
  expand_node node st
  = let st2 := taken node st in
    let subnodes := nx.dfs_preorder (graph st2) node in
    match _merge_graphs subnodes (nx.subgraph (graph st2) subnodes)
            (_id (node_at st2 node)) d st2 with
    | (Ok _, st') => (Ok true, st')
    | (Raise e, st') => (Raise e, st')
    end.
Proof.
  intros Hd. unfold expand_node. rewrite bind_run. cbn [get_state].
  unfold iterables_items. rewrite Hd. cbn [from_option_or].
  rewrite bind_run. cbn [mret M_ret].
  rewrite bind_run. cbn [modify]. rewrite bind_run. cbn [modify].
  rewrite bind_run. cbn [get_state]. rewrite bind_run. cbv zeta.
  fold (taken node st).
  by destruct (_merge_graphs _ _ _ d (taken node st)) as [[[]|e] st'].
Qed.

Lemma expand_step_select st order :
  nx.topological_sort (graph st) = Some order →
  normal st →
  expand_step st
  = match filter (λ n, has_iterables (node_at st n)) (reverse order) with
    | node :: _ => expand_node node st
    | [] => (Ok false, st)
    end.
Proof.
  intros Hsort Hd. unfold expand_step. rewrite bind_run. cbn [get_state].
  rewrite Hsort. cbn [from_option_or]. rewrite bind_run. cbn [mret M_ret].
  rewrite select_iterable_dicts.
  - cbn [from_option_or]. rewrite bind_run. cbn [mret M_ret].
    by destruct (filter _ (reverse order)).
  - intros n Hn. apply Hd. rewrite elem_of_reverse in Hn.
    destruct (topo_order_sound _ _ _ _ Hsort) as (Hmem & _). by apply Hmem.
Qed.

Lemma index_of_app_l {A} `{EqDecision A} (l1 l2 : list A) (x : A) :
  x ∈ l1 → index_of x (l1 ++ l2) < length l1.
Proof.
  intros Hx.
  assert (x ∈ l1 ++ l2) as Hin by (apply elem_of_app; auto).
  pose proof (index_of_elem _ _ Hin) as Hl.
  destruct (decide (index_of x (l1 ++ l2) < length l1)) as [|Hge]; [done|].
  apply list_elem_of_lookup in Hx as [j Hj].
  pose proof (lookup_lt_Some _ _ _ Hj) as Hlt.
  unfold index_of in *.
  destruct (py_index x (l1 ++ l2)) as [i|] eqn:Hi.
  - apply py_index_Some in Hi as [_ Hmin]. simpl in Hge.
    exfalso. apply (Hmin j x); [by apply lookup_app_l_Some|lia|done].
  - by apply py_index_None in Hi.
Qed.

Lemma reachable_in_graph g u v :
  graph_ok g → reachable g u v → u ∈ g_nodes g → v ∈ g_nodes g.
Proof.
  intros [_ Hends]. induction 1 as [|u w v (e & He & <- & <-) _ IH]; [done|].
  intros _. apply IH. by destruct (Hends e He).
Qed.

(** The node selected in the reversed topological order has no descendant
    that still carries iterables. *)
Lemma selected_leaf_first st order node rest :
  store_ok st →
  nx.topological_sort (graph st) = Some order →
  filter (λ n, has_iterables (node_at st n)) (reverse order) = node :: rest →
  node ∈ g_nodes (graph st)
  ∧ has_iterables (node_at st node)
  ∧ ∀ y, reachable (graph st) node y → y ≠ node →
         y ∈ g_nodes (graph st) ∧ ¬ has_iterables (node_at st y).
Proof.
  intros Hok Hsort Hsel.
  pose proof (store_ok_graph_ok _ Hok) as Hg.
  destruct (topological_sort_sound _ _ Hg Hsort) as (Hmem & Hnd & Hrank).
  apply filter_head in Hsel as (p & q & Hrev & Hp & Hnode & _).
  assert (order = reverse q ++ node :: reverse p) as Horder.
  { rewrite <-(reverse_involutive order), Hrev.
    by rewrite reverse_app, reverse_cons, <-(assoc_L (++)). }
  assert (node ∈ order) as Hin by (rewrite Horder; set_solver).
  split_and!; [by apply Hmem|done|].
  intros y Hreach Hne.
  destruct (ranking_reachable _ _ _ _ Hrank Hreach) as [->|Hlt]; [done|].
  cbv beta in Hlt.
  assert (y ∈ order) as Hy.
  { apply Hmem. eapply reachable_in_graph; [done..|]. by apply Hmem. }
  split; [by apply Hmem|].
  assert (index_of node order = length (reverse q)) as Hidx.
  { apply index_of_lookup; [done|]. rewrite Horder.
    by rewrite list_lookup_middle. }
  rewrite Horder in Hy.
  apply elem_of_app in Hy as [Hy|Hy].
  - pose proof (index_of_app_l _ (node :: reverse p) _ Hy) as Hlt'.
    rewrite <-Horder in Hlt'. lia.
  - apply elem_of_cons in Hy as [->|Hy]; [done|].
    rewrite elem_of_reverse in Hy. rewrite Forall_forall in Hp. by apply Hp.
Qed.

Lemma store_ok_taken node st : store_ok st → store_ok (taken node st).
Proof. done. Qed.

Lemma driver_merge_ready node st :
  store_ok st → node ∈ g_nodes (graph st) →
  let st2 := taken node st in
  let subnodes := nx.dfs_preorder (graph st2) node in
  merge_ready st2 (nx.subgraph (graph st2) subnodes) (_id (node_at st2 node)).
Proof.
  intros Hok Hnode st2 subnodes.
  pose proof (store_ok_graph_ok _ Hok) as Hg.
  destruct Hok as (Hnd & Hedges & Hnodes).
  rewrite Forall_forall in Hedges. rewrite Forall_forall in Hnodes.
  change (graph st2) with (graph st) in *.
  change (next_node st2) with (next_node st).
  destruct (subgraph_ok subnodes _ Hg) as [Hsnd Hsends].
  unfold merge_ready.
  change (graph st2) with (graph st).
  change (next_node st2) with (next_node st).
  change (next_connect st2) with (next_connect st).
  split_and!.
  - done.
  - apply Forall_forall. intros e He. destruct (Hsends e He).
    split_and!; [done..|]. apply subgraph_edges in He as [He _].
    by destruct (Hedges e He) as (_ & _ & ?).
  - apply Forall_forall. intros r [Hr _]%subgraph_nodes. auto.
  - apply Forall_forall. intros e He. by destruct (Hedges e He) as (_ & _ & ?).
  - apply (list_elem_of_fmap_2 (λ n, _id (node_at st2 n))).
    apply subgraph_nodes. split; [done|]. apply dfs_preorder_source.
Qed.

Lemma has_iterables_taken s nd :
  has_iterables (with_id s (with_iterables (ItDict []) nd)) = false.
Proof. reflexivity. Qed.

Lemma copy_range_inv (N n k x : nat) :
  N ≤ x < N + k * n → ∃ i j, i < k ∧ j < n ∧ x = N + i * n + j.
Proof.
  intros Hx. assert (n ≠ 0) as Hn by nia.
  exists ((x - N) / n), ((x - N) mod n).
  pose proof (Nat.div_mod_eq (x - N) n).
  pose proof (Nat.mod_upper_bound (x - N) n Hn).
  split_and!; [|done|lia].
  apply Nat.Div0.div_lt_upper_bound. lia.
Qed.

(** One turn of the loop on a store with a pending node: the turn succeeds,
    keeps the store well formed, normal and acyclic, and leaves one pending
    node less. *)
Lemma expand_step_progress st order node rest :
  store_ok st → normal st →
  nx.topological_sort (graph st) = Some order →
  filter (λ n, has_iterables (node_at st n)) (reverse order) = node :: rest →
  ∃ st',
    expand_step st = (Ok true, st')
    ∧ store_ok st' ∧ normal st' ∧ acyclic (graph st')
    ∧ pending_count st = S (pending_count st').
Proof.
  intros Hok Hnormal Hsort Hsel.
  destruct (selected_leaf_first st order node rest Hok Hsort Hsel)
    as (Hnode & Hpend & Hleaf).
  destruct (Hnormal node Hnode) as [d Hd].
  rewrite (expand_step_select st order Hsort Hnormal), Hsel,
    (expand_node_run node st d Hd). cbv zeta.
  pose proof (driver_merge_ready node st Hok Hnode) as Hready.
  cbv zeta in Hready.
  pose proof (store_ok_taken node st Hok) as Hok2.
  destruct (taken_spec node st) as (_ & _ & _ & _ & Hn2).
  pose proof (store_ok_graph_ok _ Hok) as Hg.
  destruct (topological_sort_sound _ _ Hg Hsort) as (_ & _ & Hrank).
  set (st2 := taken node st) in *.
  change (graph st2) with (graph st) in *.
  set (subnodes := nx.dfs_preorder (graph st) node) in *.
  set (subgraph := nx.subgraph (graph st) subnodes) in *.
  destruct (merge_graphs_result subnodes subgraph (_id (node_at st2 node)) d
              st2 Hok2 Hready)
    as (st' & nodeidx & Hrun & _ & Hok' & Hnn & Hframe & Hcopies & Hnodes
        & Hkeep & Hnew & Hedges).
  change (graph st2) with (graph st) in *.
  change (next_node st2) with (next_node st) in *.
  rewrite Hrun. exists st'.
  destruct Hok as (Hnd & Hedges0 & Hnodes0).
  rewrite Forall_forall in Hnodes0.
  (* the nodes handed to the pass carry no iterables *)
  assert (∀ y, y ∈ g_nodes subgraph →
            y ∈ g_nodes (graph st) ∧ ¬ has_iterables (node_at st2 y)) as Hsub.
  { intros y [Hy Hin]%subgraph_nodes. split; [done|]. rewrite Hn2.
    case_decide as Hyn; [rewrite has_iterables_taken; exact id|].
    apply Hleaf; [|done]. by apply dfs_preorder_sound. }
  assert (∀ x, x ∈ g_nodes (graph st) → x ≠ node →
            node_at st' x = node_at st x) as Hsame.
  { intros x Hx Hne. rewrite Hframe by by apply Hnodes0.
    rewrite Hn2. by rewrite decide_False. }
  assert (∀ x, next_node st ≤ x
               < next_node st + length (walk d 0 ∅ true)
                                * length (g_nodes subgraph) →
            ∃ y, y ∈ g_nodes subgraph
                 ∧ iterables (node_at st' x) = iterables (node_at st2 y))
    as Hcopy.
  { intros x (i & j & Hi & Hj & ->)%copy_range_inv.
    destruct (lookup_lt_is_Some_2 _ _ Hi) as [params Hparams].
    destruct (lookup_lt_is_Some_2 _ _ Hj) as [y Hy].
    exists y. split; [by eapply list_elem_of_lookup_2|].
    pose proof (Hcopies i params j y Hparams Hy) as Heq.
    unfold copy_ref in Heq. change (next_node st2) with (next_node st) in Heq.
    rewrite Heq.
    by destruct (copied_node_fields i params (bool_decide (j = nodeidx))
                   (node_at st2 y)) as (_ & -> & _). }
  assert (node ∈ g_nodes subgraph) as Hnsub.
  { apply subgraph_nodes. split; [done|]. apply dfs_preorder_source. }
  split_and!; [done|done| | |].
  - (* normal *)
    intros x Hx. destruct (Hnodes x Hx) as [[Hin _]|Hrange].
    + rewrite Hframe by by apply Hnodes0. rewrite Hn2.
      case_decide; [by eexists|]. by apply Hnormal.
    + destruct (Hcopy x Hrange) as (y & Hy & ->).
      destruct (Hsub y Hy) as [Hyg _]. rewrite Hn2.
      case_decide; [by eexists|]. by apply Hnormal.
  - (* acyclic *)
    eapply ranking_acyclic.
    apply (merge_graphs_ranking subnodes subgraph (_id (node_at st2 node)) d
             st2 st' (λ x, index_of x order) (λ x, index_of x order));
      [done..|].
    intros e [He _]%subgraph_edges. by apply Hrank.
  - (* one pending node less *)
    unfold pending_count.
    change (S (length (filter (λ n, has_iterables (node_at st' n))
                         (g_nodes (graph st')))))
      with (length (node :: filter (λ n, has_iterables (node_at st' n))
                              (g_nodes (graph st')))).
    apply Permutation_length, NoDup_Permutation.
    + by apply NoDup_filter.
    + apply NoDup_cons. split; [|apply NoDup_filter; by destruct Hok'].
      intros [_ Hin]%list_elem_of_filter.
      destruct (Hnodes node Hin) as [[_ [Hn|Hn]]|Hrange].
      * apply Hn, dfs_preorder_source.
      * done.
      * apply Hnodes0 in Hnode. lia.
    + intros x. rewrite elem_of_cons, !list_elem_of_filter. split.
      * intros [Hp Hx]. destruct (decide (x = node)) as [|Hne]; [by left|].
        right. assert (x ∉ subnodes) as Hout.
        { intros Hin. destruct (Hsub x) as [_ Hnp];
            [by apply subgraph_nodes|].
          apply Hnp. rewrite Hn2. by rewrite decide_False. }
        split; [|by apply Hkeep]. by rewrite Hsame.
      * intros [->|[Hp Hx]]; [done|].
        destruct (Hnodes x Hx) as [[Hin Hout]|Hrange].
        -- assert (x ≠ node) as Hne.
           { intros ->. destruct Hout as [Hn|Hn]; [|done].
             apply Hn, dfs_preorder_source. }
           rewrite Hsame in Hp by done. done.
        -- destruct (Hcopy x Hrange) as (y & Hy & Heq).
           destruct (Hsub y Hy) as [_ Hnp]. exfalso. apply Hnp.
           unfold has_iterables in *. by rewrite <-Heq.
Qed.

(** ** The loop of [_generate_expanded_graph] *)

Lemma pending_order st order :
  graph_ok (graph st) →
  nx.topological_sort (graph st) = Some order →
  filter (λ n, has_iterables (node_at st n)) (reverse order)
  ≡ₚ filter (λ n, has_iterables (node_at st n)) (g_nodes (graph st)).
Proof.
  intros Hg Hsort.
  destruct (topological_sort_sound _ _ Hg Hsort) as (Hmem & Hnd & _).
  apply filter_Permutation. rewrite reverse_Permutation.
  apply NoDup_Permutation; [done|by destruct Hg|done].
Qed.

Lemma expand_step_done st order :
  graph_ok (graph st) → normal st →
  nx.topological_sort (graph st) = Some order →
  filter (λ n, has_iterables (node_at st n)) (reverse order) = [] →
  expand_step st = (Ok false, st) ∧ pending_count st = 0.
Proof.
  intros Hg Hnormal Hsort Hsel. split.
  - by rewrite (expand_step_select st order Hsort Hnormal), Hsel.
  - unfold pending_count. by rewrite <-(pending_order st order Hg Hsort), Hsel.
Qed.

Lemma expand_loop_terminates c :
  ∀ st fuel,
    pending_count st = c → c < fuel →
    store_ok st → normal st → acyclic (graph st) →
    ∃ st', expand_loop fuel st = (Ok tt, st')
           ∧ pending_count st' = 0
           ∧ store_ok st' ∧ normal st' ∧ acyclic (graph st').
Proof.
  induction c as [|c IH]; intros st fuel Hc Hfuel Hok Hnormal Hac;
    (destruct fuel as [|fuel]; [lia|]);
    destruct (topological_sort_complete _ Hac) as [order Hsort];
    pose proof (store_ok_graph_ok _ Hok) as Hg;
    cbn [expand_loop]; rewrite bind_run;
    destruct (filter (λ n, has_iterables (node_at st n)) (reverse order))
      as [|node rest] eqn:Hsel.
  - destruct (expand_step_done st order Hg Hnormal Hsort Hsel) as [-> Hzero].
    by exists st.
  - destruct (expand_step_progress st order node rest Hok Hnormal Hsort Hsel)
      as (st' & _ & _ & _ & _ & Hcount). lia.
  - destruct (expand_step_done st order Hg Hnormal Hsort Hsel) as [-> Hzero].
    lia.
  - destruct (expand_step_progress st order node rest Hok Hnormal Hsort Hsel)
      as (st' & -> & Hok' & Hnormal' & Hac' & Hcount).
    apply IH; [lia|lia|done..].
Qed.

Lemma normal_iterables_dict it : ∃ d, normal_iterables it = ItDict d.
Proof. destruct it; by eexists. Qed.

Lemma normal_iterables_idemp it :
  normal_iterables (normal_iterables it) = normal_iterables it.
Proof. by destruct it. Qed.

Lemma normalize_store_normal st : normal (normalize_store st).
Proof.
  destruct (normalize_store_spec st) as (Hg & _ & _ & _ & Hn).
  intros n Hin. rewrite Hg in Hin. destruct (Hn n) as (_ & _ & _ & ->).
  rewrite decide_True by done. apply normal_iterables_dict.
Qed.

Lemma normalize_store_ok st : store_ok st → store_ok (normalize_store st).
Proof.
  destruct (normalize_store_spec st) as (Hg & Hnn & Hnc & _).
  unfold store_ok. by rewrite Hg, Hnn, Hnc.
Qed.

Lemma normalize_store_pending st :
  pending_count (normalize_store st) = pending_count st.
Proof.
  destruct (normalize_store_spec st) as (Hg & _ & _ & _ & Hn).
  unfold pending_count. rewrite Hg. f_equal.
  apply list_filter_iff. intros n. unfold has_iterables.
  destruct (Hn n) as (_ & _ & _ & ->).
  case_decide; [|done]. by rewrite normal_iterables_idemp.
Qed.

(** ** [_generate_expanded_graph] as a whole *)

Lemma filter_none {A} (P : A → Prop) `{∀ x, Decision (P x)} (l : list A) :
  Forall (λ x, ¬ P x) l → filter P l = [].
Proof.
  induction 1 as [|x l Hx _ IH]; [done|].
  by rewrite filter_cons, decide_False.
Qed.

(** X17: on an acyclic graph none of whose nodes carries iterables the
    driver returns at once and the store is exactly as it was. *)
Theorem generate_identity st fuel :
  acyclic (graph st) →
  Forall (λ n, iterables (node_at st n) = ItDict []) (g_nodes (graph st)) →
  _generate_expanded_graph (S fuel) st = (Ok tt, st).
Proof.
  intros Hac Hall. rewrite Forall_forall in Hall.
  assert (normal st) as Hnormal by (intros n Hn; eexists; by apply Hall).
  rewrite generate_expanded_graph_run, normalize_store_dicts by done.
  destruct (topological_sort_complete _ Hac) as [order Hsort].
  cbn [expand_loop]. rewrite bind_run.
  rewrite (expand_step_select st order Hsort Hnormal), filter_none; [done|].
  apply Forall_forall. intros n Hn. rewrite elem_of_reverse in Hn.
  destruct (topo_order_sound _ _ _ _ Hsort) as (Hmem & _).
  unfold has_iterables. rewrite (Hall n) by by apply Hmem. exact id.
Qed.

Lemma generate_identity_witness :
  _generate_expanded_graph 1 chain_store = (Ok tt, chain_store).
Proof.
  apply (generate_identity chain_store 0).
  - apply (ranking_acyclic _ id). unfold ranking.
    apply (proj1 (Forall_forall (λ e, id (e_src e) < id (e_dst e)) _)).
    apply (bool_decide_unpack _). by vm_compute.
  - change (g_nodes (graph chain_store)) with [0; 1; 2].
    repeat (apply Forall_cons_2; [reflexivity|]). apply Forall_nil_2.
Defined.

(** X18: on a graph with a cycle the driver raises NetworkXUnfeasible from
    its first topological sort.  The graph, the identities, the
    parameterizations and the inputs are as they were; the iterables of the
    graph's nodes have already been brought to dictionary form. *)
Theorem generate_cycle st fuel :
  graph_ok (graph st) →
  has_cycle (graph st) →
  ∃ st',
    _generate_expanded_graph (S fuel) st = (Raise NetworkXUnfeasible, st')
    ∧ graph st' = graph st
    ∧ next_node st' = next_node st
    ∧ next_connect st' = next_connect st
    ∧ ∀ r, _id (node_at st' r) = _id (node_at st r)
           ∧ parameterization (node_at st' r) = parameterization (node_at st r)
           ∧ inputs (node_at st' r) = inputs (node_at st r)
           ∧ iterables (node_at st' r)
             = if decide (r ∈ g_nodes (graph st))
               then normal_iterables (iterables (node_at st r))
               else iterables (node_at st r).
Proof.
  intros Hg Hcyc. exists (normalize_store st).
  destruct (normalize_store_spec st) as (Hgr & Hnn & Hnc & _ & Hn).
  split_and!; [|done..].
  rewrite generate_expanded_graph_run. cbn [expand_loop]. rewrite bind_run.
  rewrite expand_step_cycle; [done|].
  rewrite Hgr. by apply topological_sort_cycle.
Qed.

Lemma generate_cycle_witness :
  graph_ok (graph loop_store)
  ∧ has_cycle (graph loop_store)
  ∧ ∃ st',
      _generate_expanded_graph 1 loop_store = (Raise NetworkXUnfeasible, st')
      ∧ graph st' = graph loop_store
      ∧ next_node st' = next_node loop_store
      ∧ next_connect st' = next_connect loop_store
      ∧ ∀ r, _id (node_at st' r) = _id (node_at loop_store r)
             ∧ parameterization (node_at st' r)
               = parameterization (node_at loop_store r)
             ∧ inputs (node_at st' r) = inputs (node_at loop_store r)
             ∧ iterables (node_at st' r)
               = if decide (r ∈ g_nodes (graph loop_store))
                 then normal_iterables (iterables (node_at loop_store r))
                 else iterables (node_at loop_store r).
Proof.
  assert (graph_ok (graph loop_store)) as H1.
  { split.
    - apply (bool_decide_unpack _). by vm_compute.
    - apply (proj1 (Forall_forall
        (λ e, e_src e ∈ g_nodes (graph loop_store)
              ∧ e_dst e ∈ g_nodes (graph loop_store)) _)).
      apply (bool_decide_unpack _). by vm_compute. }
  assert (has_cycle (graph loop_store)) as H2.
  { exists 0. apply (tc_l _ _ 1).
    - exists (mkEdge 0 1 0). split_and!; [|done..].
      apply (bool_decide_unpack _). by vm_compute.
    - apply tc_once. exists (mkEdge 1 0 1). split_and!; [|done..].
      apply (bool_decide_unpack _). by vm_compute. }
  split_and!; [done..|]. apply (generate_cycle loop_store 0 H1 H2).
Defined.

Lemma pending_selected st order :
  graph_ok (graph st) →
  nx.topological_sort (graph st) = Some order →
  0 < pending_count st →
  ∃ node rest,
    filter (λ n, has_iterables (node_at st n)) (reverse order) = node :: rest.
Proof.
  intros Hg Hsort Hpos. pose proof (pending_order st order Hg Hsort) as Hperm.
  apply Permutation_length in Hperm. fold (pending_count st) in Hperm.
  destruct (filter _ (reverse order)) as [|node rest]; [simpl in Hperm; lia|].
  by exists node, rest.
Qed.

(** X19: a turn of the loop expands the first node with iterables in the
    reversed topological order of the current graph, and that node has no
    descendant that still carries iterables: expansion goes from the sinks
    towards the sources. *)
Theorem expand_step_sinkward st :
  store_ok st → normal st → acyclic (graph st) → 0 < pending_count st →
  ∃ order p node q,
    nx.topological_sort (graph st) = Some order
    ∧ reverse order = p ++ node :: q
    ∧ Forall (λ x, ¬ has_iterables (node_at st x)) p
    ∧ has_iterables (node_at st node)
    ∧ expand_step st = expand_node node st
    ∧ ∀ y, reachable (graph st) node y → y ≠ node →
           ¬ has_iterables (node_at st y).
Proof.
  intros Hok Hnormal Hac Hpos.
  pose proof (store_ok_graph_ok _ Hok) as Hg.
  destruct (topological_sort_complete _ Hac) as [order Hsort].
  destruct (pending_selected st order Hg Hsort Hpos) as (node & rest & Hsel).
  destruct (selected_leaf_first st order node rest Hok Hsort Hsel)
    as (_ & Hpend & Hleaf).
  pose proof Hsel as Hhead.
  apply filter_head in Hhead as (p & q & Hrev & Hp & _ & _).
  exists order, p, node, q. split_and!; [done..| |].
  - by rewrite (expand_step_select st order Hsort Hnormal), Hsel.
  - intros y Hy Hne. by apply Hleaf.
Qed.

Lemma expand_step_sinkward_witness :
  store_ok (normalize_store sweep_store)
  ∧ normal (normalize_store sweep_store)
  ∧ acyclic (graph (normalize_store sweep_store))
  ∧ 0 < pending_count (normalize_store sweep_store)
  ∧ ∃ order p node q,
      nx.topological_sort (graph (normalize_store sweep_store)) = Some order
      ∧ reverse order = p ++ node :: q
      ∧ Forall (λ x, ¬ has_iterables (node_at (normalize_store sweep_store) x))
               p
      ∧ has_iterables (node_at (normalize_store sweep_store) node)
      ∧ expand_step (normalize_store sweep_store)
        = expand_node node (normalize_store sweep_store)
      ∧ ∀ y, reachable (graph (normalize_store sweep_store)) node y →
             y ≠ node →
             ¬ has_iterables (node_at (normalize_store sweep_store) y).
Proof.
  assert (store_ok (normalize_store sweep_store)) as H1
    by (apply (bool_decide_unpack _); by vm_compute).
  assert (normal (normalize_store sweep_store)) as H2
    by apply normalize_store_normal.
  assert (acyclic (graph (normalize_store sweep_store))) as H3.
  { apply (ranking_acyclic _ id). unfold ranking.
    apply (proj1 (Forall_forall (λ e, id (e_src e) < id (e_dst e)) _)).
    apply (bool_decide_unpack _). by vm_compute. }
  assert (0 < pending_count (normalize_store sweep_store)) as H4
    by (apply (bool_decide_unpack _); by vm_compute).
  split_and!; [done..|].
  apply (expand_step_sinkward (normalize_store sweep_store) H1 H2 H3 H4).
Defined.

(** X20: a turn of the loop on a well-formed acyclic store with a pending
    node succeeds and leaves exactly one pending node less: the iterables of
    the expanded node are gone and no copy carries any.  The store stays
    well formed, in dictionary form and acyclic. *)
Theorem expand_step_one_less st :
  store_ok st → normal st → acyclic (graph st) → 0 < pending_count st →
  ∃ st',
    expand_step st = (Ok true, st')
    ∧ pending_count st = S (pending_count st')
    ∧ store_ok st' ∧ normal st' ∧ acyclic (graph st').
Proof.
  intros Hok Hnormal Hac Hpos.
  pose proof (store_ok_graph_ok _ Hok) as Hg.
  destruct (topological_sort_complete _ Hac) as [order Hsort].
  destruct (pending_selected st order Hg Hsort Hpos) as (node & rest & Hsel).
  destruct (expand_step_progress st order node rest Hok Hnormal Hsort Hsel)
    as (st' & Hrun & Hok' & Hnormal' & Hac' & Hcount).
  by exists st'.
Qed.

Lemma expand_step_one_less_witness :
  store_ok (normalize_store sweep_store)
  ∧ normal (normalize_store sweep_store)
  ∧ acyclic (graph (normalize_store sweep_store))
  ∧ 0 < pending_count (normalize_store sweep_store)
  ∧ ∃ st',
      expand_step (normalize_store sweep_store) = (Ok true, st')
      ∧ pending_count (normalize_store sweep_store) = S (pending_count st')
      ∧ store_ok st' ∧ normal st' ∧ acyclic (graph st').
Proof.
  assert (store_ok (normalize_store sweep_store)) as H1
    by (apply (bool_decide_unpack _); by vm_compute).
  assert (normal (normalize_store sweep_store)) as H2
    by apply normalize_store_normal.
  assert (acyclic (graph (normalize_store sweep_store))) as H3.
  { apply (ranking_acyclic _ id). unfold ranking.
    apply (proj1 (Forall_forall (λ e, id (e_src e) < id (e_dst e)) _)).
    apply (bool_decide_unpack _). by vm_compute. }
  assert (0 < pending_count (normalize_store sweep_store)) as H4
    by (apply (bool_decide_unpack _); by vm_compute).
  split_and!; [done..|].
  apply (expand_step_one_less (normalize_store sweep_store) H1 H2 H3 H4).
Defined.

(** X21: on a well-formed acyclic graph the driver terminates: with one
    turn of the loop per node that carries iterables, and one more to see
    that none is left, it returns a graph in which no node carries
    iterables; that graph is again well formed and acyclic. *)
Theorem generate_terminates st fuel :
  store_ok st → acyclic (graph st) → pending_count st < fuel →
  ∃ st',
    _generate_expanded_graph fuel st = (Ok tt, st')
    ∧ Forall (λ n, iterables (node_at st' n) = ItDict [])
             (g_nodes (graph st'))
    ∧ store_ok st' ∧ acyclic (graph st').
Proof.
  intros Hok Hac Hfuel. rewrite generate_expanded_graph_run.
  destruct (expand_loop_terminates (pending_count st) (normalize_store st) fuel)
    as (st' & Hrun & Hzero & Hok' & Hnormal' & Hac').
  - apply normalize_store_pending.
  - done.
  - by apply normalize_store_ok.
  - apply normalize_store_normal.
  - by destruct (normalize_store_spec st) as (-> & _).
  - exists st'. split_and!; [done| |done..].
    apply Forall_forall. intros n Hn.
    destruct (Hnormal' n Hn) as [d Hd]. rewrite Hd.
    destruct d as [|kv d]; [done|]. exfalso.
    assert (n ∈ filter (λ n, has_iterables (node_at st' n))
                  (g_nodes (graph st'))) as Hin.
    { apply list_elem_of_filter. split; [|done].
      unfold has_iterables. by rewrite Hd. }
    unfold pending_count in Hzero. apply length_zero_iff_nil in Hzero.
    rewrite Hzero in Hin. by apply elem_of_nil in Hin.
Qed.

Lemma generate_terminates_witness :
  store_ok sweep_store
  ∧ acyclic (graph sweep_store)
  ∧ pending_count sweep_store < 2
  ∧ ∃ st',
      _generate_expanded_graph 2 sweep_store = (Ok tt, st')
      ∧ Forall (λ n, iterables (node_at st' n) = ItDict [])
               (g_nodes (graph st'))
      ∧ store_ok st' ∧ acyclic (graph st').
Proof.
  assert (store_ok sweep_store) as H1
    by (apply (bool_decide_unpack _); by vm_compute).
  assert (acyclic (graph sweep_store)) as H2.
  { apply (ranking_acyclic _ id). unfold ranking.
    apply (proj1 (Forall_forall (λ e, id (e_src e) < id (e_dst e)) _)).
    apply (bool_decide_unpack _). by vm_compute. }
  assert (pending_count sweep_store < 2) as H3
    by (apply (bool_decide_unpack _); by vm_compute).
  split_and!; [done..|].
  apply (generate_terminates sweep_store 2 H1 H2 H3).
Defined.

(** X22: when the iterables of the node being expanded hold a producer
    without values, the turn succeeds, makes no copy, and the node and all
    its descendants are gone from the graph together with their edges;
    nothing is raised. *)
Theorem expand_node_empty_producer node st d name :
  store_ok st →
  node ∈ g_nodes (graph st) →
  iterables (node_at st node) = ItDict d →
  (name, []) ∈ d →
  ∃ st',
    expand_node node st = (Ok true, st')
    ∧ next_node st' = next_node st
    ∧ (∀ y, y ∈ g_nodes (graph st')
            ↔ y ∈ g_nodes (graph st) ∧ ¬ reachable (graph st) node y)
    ∧ (∀ e, e ∈ g_edges (graph st')
            ↔ e ∈ g_edges (graph st)
              ∧ ¬ reachable (graph st) node (e_src e)
              ∧ ¬ reachable (graph st) node (e_dst e)).
Proof.
  intros Hok Hnode Hd Hempty.
  rewrite (expand_node_run node st d Hd). cbv zeta.
  change (graph (taken node st)) with (graph st).
  rewrite merge_graphs_no_assignment.
  - eexists. split_and!; [done..| |].
    + intros y. cbn [graph set_graph]. rewrite remove_nodes_from_nodes.
      change (graph (taken node st)) with (graph st).
      split; intros [Hy Hn]; (split; [done|]); intros Hr; apply Hn.
      * by apply dfs_preorder_complete.
      * by apply dfs_preorder_sound.
    + intros e. cbn [graph set_graph]. rewrite remove_nodes_from_edges.
      change (graph (taken node st)) with (graph st).
      split; intros (He & Hs & Hd'); (split_and!; [done|..]); intros Hr.
      * by apply Hs, dfs_preorder_complete.
      * by apply Hd', dfs_preorder_complete.
      * by apply Hs, dfs_preorder_sound.
      * by apply Hd', dfs_preorder_sound.
  - intros n [Hn _]%subgraph_nodes.
    change (graph (taken node st)) with (graph st).
    by apply (list_elem_of_fmap_2 (λ n, _id (node_at (taken node st) n))).
  - by eapply walk_empty.
Qed.

Lemma expand_node_empty_producer_witness :
  store_ok barren_store
  ∧ 1 ∈ g_nodes (graph barren_store)
  ∧ iterables (node_at barren_store 1) = ItDict [("a", [])]
  ∧ ∃ st',
      expand_node 1 barren_store = (Ok true, st')
      ∧ next_node st' = next_node barren_store
      ∧ (∀ y, y ∈ g_nodes (graph st')
              ↔ y ∈ g_nodes (graph barren_store)
                ∧ ¬ reachable (graph barren_store) 1 y)
      ∧ (∀ e, e ∈ g_edges (graph st')
              ↔ e ∈ g_edges (graph barren_store)
                ∧ ¬ reachable (graph barren_store) 1 (e_src e)
                ∧ ¬ reachable (graph barren_store) 1 (e_dst e)).
Proof.
  assert (store_ok barren_store) as H1
    by (apply (bool_decide_unpack _); by vm_compute).
  assert (1 ∈ g_nodes (graph barren_store)) as H2
    by (apply (bool_decide_unpack _); by vm_compute).
  split_and!; [done..|].
  apply (expand_node_empty_producer 1 barren_store [("a", [])] "a" H1 H2);
    [done|]. apply list_elem_of_singleton. done.
Defined.

(** X23: the turn that expands [node] marks the node itself (its identity
    gets an "I", its iterables are emptied; the object stays so even though
    the node leaves the graph), leaves every other object that was there
    alone, and makes the copies from the marked node and its descendants:
    copy [i] of the node is named [<id>I<i>], copy [i] of a descendant
    [<id><i>]; the copies of the node carry no iterables, and every copy has
    the assignment's path segment in front of its parameterization. *)
Theorem expand_node_copies node st d :
  store_ok st →
  node ∈ g_nodes (graph st) →
  iterables (node_at st node) = ItDict d →
  let ns := g_nodes (nx.subgraph (graph st) (nx.dfs_preorder (graph st) node)) in
  ∃ st',
    expand_node node st = (Ok true, st')
    ∧ node_at st' node
      = with_id (_id (node_at st node) +:+ "I")
          (with_iterables (ItDict []) (node_at st node))
    ∧ (∀ r, r < next_node st → r ≠ node → node_at st' r = node_at st r)
    ∧ ∀ i params j x,
        walk d 0 ∅ true !! i = Some params → ns !! j = Some x →
        let c := node_at st' (next_node st + i * length ns + j) in
        _id c = _id (node_at st x)
                +:+ (if decide (x = node) then "I" else "") +:+ pretty i
        ∧ iterables c
          = (if decide (x = node) then ItDict [] else iterables (node_at st x))
        ∧ parameterization c
          = Some (path_segment params
                  :: default [] (parameterization (node_at st x))).
Proof.
  intros Hok Hnode Hd ns.
  rewrite (expand_node_run node st d Hd). cbv zeta.
  pose proof (driver_merge_ready node st Hok Hnode) as Hready.
  cbv zeta in Hready.
  pose proof (store_ok_taken node st Hok) as Hok2.
  destruct (taken_spec node st) as (_ & _ & _ & _ & Hn2).
  destruct Hok as (_ & _ & Hnodes0). rewrite Forall_forall in Hnodes0.
  set (st2 := taken node st) in *.
  change (graph st2) with (graph st) in *.
  destruct (merge_graphs_result (nx.dfs_preorder (graph st) node) _ _ d st2
              Hok2 Hready)
    as (st' & nodeidx & Hrun & _ & _ & _ & Hframe & Hcopies & _).
  change (next_node st2) with (next_node st) in *.
  rewrite Hrun. exists st'. split_and!; [done| | |].
  - rewrite Hframe by by apply Hnodes0. rewrite Hn2. by rewrite decide_True.
  - intros r Hr Hne. rewrite Hframe by done. rewrite Hn2.
    by rewrite decide_False.
  - intros i params j x Hi Hj.
    pose proof (Hcopies i params j x Hi Hj) as Heq.
    unfold copy_ref in Heq. change (next_node st2) with (next_node st) in Heq.
    fold ns in Heq. rewrite Heq.
    destruct (copied_node_fields i params (bool_decide (j = nodeidx))
                (node_at st2 x)) as (-> & -> & -> & _).
    rewrite Hn2. destruct (decide (x = node)) as [->|Hx].
    + cbn [_id iterables parameterization with_id with_iterables].
      by rewrite string_app_assoc.
    + by rewrite string_app_nil.
Qed.

Lemma expand_node_copies_witness :
  store_ok (normalize_store sweep_store)
  ∧ 1 ∈ g_nodes (graph (normalize_store sweep_store))
  ∧ iterables (node_at (normalize_store sweep_store) 1)
    = ItDict [("a", [VInt 1; VInt 2])]
  ∧ let st := normalize_store sweep_store in
    let ns :=
      g_nodes (nx.subgraph (graph st) (nx.dfs_preorder (graph st) 1)) in
    ∃ st',
      expand_node 1 st = (Ok true, st')
      ∧ node_at st' 1
        = with_id (_id (node_at st 1) +:+ "I")
            (with_iterables (ItDict []) (node_at st 1))
      ∧ (∀ r, r < next_node st → r ≠ 1 → node_at st' r = node_at st r)
      ∧ ∀ i params j x,
          walk [("a", [VInt 1; VInt 2])] 0 ∅ true !! i = Some params →
          ns !! j = Some x →
          let c := node_at st' (next_node st + i * length ns + j) in
          _id c = _id (node_at st x)
                  +:+ (if decide (x = 1) then "I" else "") +:+ pretty i
          ∧ iterables c
            = (if decide (x = 1) then ItDict []
               else iterables (node_at st x))
          ∧ parameterization c
            = Some (path_segment params
                    :: default [] (parameterization (node_at st x))).
Proof.
  assert (store_ok (normalize_store sweep_store)) as H1
    by (apply (bool_decide_unpack _); by vm_compute).
  assert (1 ∈ g_nodes (graph (normalize_store sweep_store))) as H2
    by (apply (bool_decide_unpack _); by vm_compute).
  assert (iterables (node_at (normalize_store sweep_store) 1)
          = ItDict [("a", [VInt 1; VInt 2])]) as H3 by reflexivity.
  split_and!; [done..|].
  apply (expand_node_copies 1 (normalize_store sweep_store)
           [("a", [VInt 1; VInt 2])] H1 H2 H3).
Defined.

(** ** Edges that are added stay *)

Lemma add_edge_mem e g : e ∈ g_edges (nx.add_edge e g).
Proof.
  unfold nx.add_edge. case_decide as Hex; cbn [g_edges].
  - apply Exists_exists in Hex as (e' & He' & Hsame).
    apply list_elem_of_fmap. exists e'. split; [|done].
    by rewrite decide_True.
  - apply elem_of_app. right. by apply list_elem_of_singleton.
Qed.

Lemma add_edge_keep e e' g :
  e' ∈ g_edges g → (nx.same_ends e e' → e = e') →
  e' ∈ g_edges (nx.add_edge e g).
Proof.
  intros He' Hsame. unfold nx.add_edge. rewrite !add_node_edges.
  case_decide as Hex; cbn [g_edges].
  - apply list_elem_of_fmap. exists e'. split; [|done].
    case_decide; [symmetry; by apply Hsame|done].
  - apply elem_of_app. by left.
Qed.

Lemma add_edges_from_keep e es g :
  e ∈ g_edges g → (∀ e', e' ∈ es → nx.same_ends e' e → e' = e) →
  e ∈ g_edges (nx.add_edges_from es g).
Proof.
  unfold nx.add_edges_from. revert g.
  induction es as [|x es IH]; intros g He Hsame; [done|].
  cbn [foldl]. apply IH.
  - apply add_edge_keep; [done|]. apply Hsame. set_solver.
  - intros e' He'. apply Hsame. set_solver.
Qed.

Lemma add_edges_from_mem e es g :
  e ∈ es → (∀ e', e' ∈ es → nx.same_ends e' e → e' = e) →
  e ∈ g_edges (nx.add_edges_from es g).
Proof.
  unfold nx.add_edges_from. revert g.
  induction es as [|x es IH]; intros g He Hsame; [by apply elem_of_nil in He|].
  cbn [foldl]. destruct (decide (e ∈ es)) as [Hin|Hnot].
  - apply IH; [done|]. intros e' He'. apply Hsame. set_solver.
  - apply elem_of_cons in He as [->|He]; [|done].
    apply (add_edges_from_keep x es); [apply add_edge_mem|].
    intros e' He'. apply Hsame. set_solver.
Qed.

Lemma simple_same_ends g e e' :
  simple g → e ∈ g_edges g → e' ∈ g_edges g →
  e_src e = e_src e' → e_dst e = e_dst e' → e = e'.
Proof.
  intros Hs [i Hi]%list_elem_of_lookup [j Hj]%list_elem_of_lookup Hsrc Hdst.
  assert (i = j) as ->; [|congruence].
  apply (NoDup_lookup _ i j (e_src e, e_dst e) Hs).
  - by rewrite list_lookup_fmap, Hi.
  - rewrite list_lookup_fmap, Hj. cbn. by rewrite Hsrc, Hdst.
Qed.

(** ** What the first loop of [_merge_graphs] records *)

Lemma record_edge_lookup subgraph nid edgeinfo e nid' :
  default [] (record_edge subgraph nid edgeinfo e !! nid')
  = default [] (edgeinfo !! nid')
    ++ (if decide (nid' = nid)
        then (λ e, (e_src e, e_connect e))
               <$> filter (λ e, e_src e ∉ g_nodes subgraph) [e]
        else []).
Proof.
  unfold record_edge. rewrite filter_cons, filter_nil.
  destruct (decide (e_src e ∉ g_nodes subgraph)) as [Hout|Hin].
  - destruct (decide (nid' = nid)) as [->|Hne].
    + rewrite lookup_insert_eq. cbn [default fmap list_fmap].
      case_decide as Hdom; [|done].
      rewrite lookup_insert_eq. apply not_elem_of_dom in Hdom.
      by rewrite Hdom.
    + rewrite lookup_insert_ne by done. rewrite app_nil_r.
      case_decide; [|done]. by rewrite lookup_insert_ne.
  - case_decide; by rewrite app_nil_r.
Qed.

Lemma record_edges_lookup subgraph nid edgeinfo es nid' :
  default [] (foldl (record_edge subgraph nid) edgeinfo es !! nid')
  = default [] (edgeinfo !! nid')
    ++ (if decide (nid' = nid)
        then (λ e, (e_src e, e_connect e))
               <$> filter (λ e, e_src e ∉ g_nodes subgraph) es
        else []).
Proof.
  revert edgeinfo. induction es as [|e es IH]; intros edgeinfo.
  - cbn [foldl]. case_decide; by rewrite app_nil_r.
  - cbn [foldl]. rewrite IH, record_edge_lookup, <-(assoc_L (++)).
    f_equal. case_decide; [|done].
    by rewrite <-fmap_app, <-filter_app.
Qed.

Lemma first_with_id_index st nid nidx :
  py_index nid ((λ n, _id (node_at st n)) <$> g_nodes (graph st)) = Some nidx →
  first_with_id st nid = Some (g_nodes (graph st) !!! nidx).
Proof.
  intros Hidx. unfold first_with_id. rewrite Hidx. cbn [mbind option_bind].
  apply py_index_Some in Hidx as [Hl _].
  apply list_lookup_fmap_Some in Hl as (sn & _ & Hsn).
  by rewrite (list_lookup_total_correct _ _ _ Hsn).
Qed.

Lemma edgeinfo_fold_spec st subgraph l nid info :
  (∀ n, n ∈ l →
        _id (node_at st n) ∈ (λ n, _id (node_at st n)) <$> g_nodes (graph st)) →
  info ∈ default []
    (foldl (λ edgeinfo n,
              foldl (record_edge subgraph (_id (node_at st n))) edgeinfo
                (nx.in_edges (graph st)
                   (g_nodes (graph st) !!!
                      default 0 (py_index (_id (node_at st n))
                        ((λ n, _id (node_at st n)) <$> g_nodes (graph st))))))
           ∅ l !! nid)
  ↔ nid ∈ (λ n, _id (node_at st n)) <$> l
    ∧ ∃ e0, e0 ∈ g_edges (graph st) ∧ (e_src e0 ∉ g_nodes subgraph)
            ∧ first_with_id st nid = Some (e_dst e0)
            ∧ info = (e_src e0, e_connect e0).
Proof.
  induction l as [|n l IH] using rev_ind; intros Hids.
  - cbn [foldl]. rewrite lookup_empty. cbn. set_solver.
  - rewrite foldl_app. cbn [foldl]. rewrite record_edges_lookup, elem_of_app.
    rewrite IH by (intros; apply Hids; set_solver). clear IH.
    assert (n ∈ l ++ [n]) as Hn by set_solver.
    destruct (py_index_is_Some _ _ (Hids n Hn)) as [nidx Hidx].
    rewrite Hidx. cbn [default].
    pose proof (first_with_id_index st _ nidx Hidx) as Hfirst.
    rewrite fmap_app, elem_of_app. cbn [fmap list_fmap].
    rewrite list_elem_of_singleton.
    split.
    + intros [[Hnid He]|Hnew]; [by auto|].
      case_decide as Heq; [|by apply elem_of_nil in Hnew]. subst nid.
      apply list_elem_of_fmap in Hnew as (e0 & -> & [Hout He0]%list_elem_of_filter).
      apply in_edges_elem in He0 as [He0 Hdst].
      split; [by right|]. exists e0. split_and!; [done..| |done].
      by rewrite Hfirst, Hdst.
    + intros [[Hnid|Hnid] (e0 & He0 & Hout & Hf & ->)].
      * left. split; [done|]. by exists e0.
      * right. rewrite decide_True by done. subst nid.
        apply list_elem_of_fmap. exists e0. split; [done|].
        apply list_elem_of_filter. split; [done|].
        apply in_edges_elem. split; [done|].
        rewrite Hfirst in Hf. by injection Hf.
Qed.

Lemma edgeinfo_of_spec st subgraph nid info :
  (∀ n, n ∈ g_nodes subgraph →
        _id (node_at st n) ∈ (λ n, _id (node_at st n)) <$> g_nodes (graph st)) →
  info ∈ default [] (edgeinfo_of st subgraph !! nid)
  ↔ nid ∈ (λ n, _id (node_at st n)) <$> g_nodes subgraph
    ∧ ∃ e0, e0 ∈ g_edges (graph st) ∧ (e_src e0 ∉ g_nodes subgraph)
            ∧ first_with_id st nid = Some (e_dst e0)
            ∧ info = (e_src e0, e_connect e0).
Proof. apply edgeinfo_fold_spec. Qed.

Lemma collect_edgeinfo_exact subgraph st :
  (∀ n, n ∈ g_nodes subgraph →
        _id (node_at st n) ∈ (λ n, _id (node_at st n)) <$> g_nodes (graph st)) →
  collect_edgeinfo subgraph st = (Ok (edgeinfo_of st subgraph), st).
Proof.
  intros Hids. unfold collect_edgeinfo, edgeinfo_of.
  rewrite bind_run. cbn [get_state].
  apply (fold_each_pure _ _ _
    (λ edgeinfo n,
       foldl (record_edge subgraph (_id (node_at st n))) edgeinfo
         (nx.in_edges (graph st)
            (g_nodes (graph st) !!!
               default 0 (py_index (_id (node_at st n))
                  ((λ n, _id (node_at st n)) <$> g_nodes (graph st))))))
    (λ _, True)); [done|].
  intros edgeinfo n Hn _.
  destruct (py_index_is_Some _ _ (Hids n Hn)) as [nidx Hidx].
  rewrite Hidx. cbn [from_option_or default]. by rewrite bind_run.
Qed.

(** ** Edge payloads after a duplication pass *)

Lemma merge_graphs_run_exact nodes subgraph nodeid iterables st nodeidx :
  NoDup (g_nodes subgraph) →
  (∀ r, r ∈ g_nodes subgraph → r < next_node st) →
  (∀ n, n ∈ g_nodes subgraph →
        _id (node_at st n) ∈ (λ n, _id (node_at st n)) <$> g_nodes (graph st)) →
  py_index nodeid ((λ n, _id (node_at st n)) <$> g_nodes subgraph)
    = Some nodeidx →
  _merge_graphs nodes subgraph nodeid iterables st
  = (Ok tt,
     merge_store subgraph nodeidx (edgeinfo_of st subgraph)
       (walk iterables 0 ∅ true)
       (set_graph (nx.remove_nodes_from nodes (graph st)) st)).
Proof.
  intros Hnd Hold Hids Hidx.
  unfold _merge_graphs.
  rewrite bind_run, (collect_edgeinfo_exact subgraph st Hids).
  rewrite bind_run. cbn [modify]. unfold merge_store.
  set (st0 := set_graph (nx.remove_nodes_from nodes (graph st)) st).
  assert (nodeidx < length (g_nodes subgraph)) as Hlt.
  { apply py_index_Some in Hidx as [Hidx _].
    apply lookup_lt_Some in Hidx. by rewrite length_fmap in Hidx. }
  apply (for_each_store_inv _ _
    (λ ip stk, merge_copy_store subgraph nodeidx (edgeinfo_of st subgraph)
                 ip.1 ip.2 stk)
    (λ stk, next_node st0 ≤ next_node stk
            ∧ ∀ r, r < next_node st0 → node_at stk r = node_at st0 r)).
  - done.
  - intros [i params] stk Hip [Hle Hframe].
    apply elem_of_lookup_imap in Hip as (i' & params' & [= -> ->] & Hi).
    split.
    + apply merge_copy_run.
      * eapply walk_named. by eapply list_elem_of_lookup_2.
      * by rewrite (copied_ids subgraph st0 stk).
    + cbn [fst snd].
      destruct (merge_copy_store_spec subgraph nodeidx
                  (edgeinfo_of st subgraph) i' params' stk Hnd Hlt)
        as (Hnn & _ & _ & Hfr & _).
      split; [lia|]. intros r Hr. rewrite Hfr by lia. by apply Hframe.
Qed.

Lemma index_of_inj {A} `{EqDecision A} (l : list A) (x y : A) :
  x ∈ l → y ∈ l → index_of x l = index_of y l → x = y.
Proof.
  intros Hx%index_of_elem Hy%index_of_elem Heq. rewrite Heq in Hx. congruence.
Qed.

(** Every copy of an edge of the subgraph and every reconnected edge is in
    the supergraph when the loop over the assignments has ended. *)
Lemma merge_store_present subgraph nodeidx edgeinfo assignments st :
  graph_ok subgraph → simple subgraph →
  nodeidx < length (g_nodes subgraph) →
  (∀ r, r ∈ g_nodes subgraph → r < next_node st) →
  (∀ nid info, info ∈ default [] (edgeinfo !! nid) → info.1 < next_node st) →
  (∀ nid info info', info ∈ default [] (edgeinfo !! nid) →
     info' ∈ default [] (edgeinfo !! nid) → info.1 = info'.1 → info = info') →
  let ns := g_nodes subgraph in
  let n := length ns in
  let m := length (copied_connects subgraph) in
  let st' := merge_store subgraph nodeidx edgeinfo assignments st in
  (∀ i e0, i < length assignments → e0 ∈ g_edges subgraph →
     mkEdge (next_node st + i * n + index_of (e_src e0) ns)
            (next_node st + i * n + index_of (e_dst e0) ns)
            (next_connect st + i * m
             + index_of (e_connect e0) (copied_connects subgraph))
       ∈ g_edges (graph st'))
  ∧ (∀ i j y info, i < length assignments → ns !! j = Some y →
       info ∈ default [] (edgeinfo !! _id (node_at st y)) →
       mkEdge info.1 (next_node st + i * n + j) info.2 ∈ g_edges (graph st')).
Proof.
  intros [Hnd Hends] Hsimple Hidx Hold Hsrc Hfun ns n m. subst ns n m.
  cbv zeta.
  remember (length (g_nodes subgraph)) as n eqn:Hn.
  remember (length (copied_connects subgraph)) as m eqn:Hm.
  induction assignments as [|params assignments IH] using rev_ind.
  - split; intros; simpl in *; lia.
  - rewrite merge_store_snoc, length_app. simpl.
    set (stk := merge_store subgraph nodeidx edgeinfo assignments st) in *.
    destruct IH as [IHint IHrec].
    destruct (merge_store_store subgraph nodeidx edgeinfo assignments st
                Hnd ltac:(by rewrite <-Hn) Hold) as (Hnn & Hnc & Hframe & _).
    fold stk in Hnn, Hnc, Hframe.
    rewrite <-Hn in Hnn, Hframe. rewrite <-Hm in Hnc.
    destruct (merge_copy_store_spec subgraph nodeidx edgeinfo
                (length assignments) params stk Hnd ltac:(by rewrite <-Hn))
      as (_ & _ & _ & _ & _ & Hg).
    rewrite <-Hn in Hg. rewrite Hg. clear Hg.
    set (gc := seq (next_node stk) n).
    set (st1 := (deepcopy subgraph stk).2).
    assert (∀ j y, g_nodes subgraph !! j = Some y →
              _id (node_at st1 (next_node stk + j)) = _id (node_at st y))
      as Hid1.
    { intros j y Hy. unfold st1.
      rewrite (deepcopy_node_new subgraph stk _ _ Hy).
      rewrite Hframe; [done|].
      apply list_elem_of_lookup_2, Hold in Hy. lia. }
    assert (∀ e, e ∈ gc ≫= recorded_edges edgeinfo st1 →
       ∃ j y info, g_nodes subgraph !! j = Some y
         ∧ info ∈ default [] (edgeinfo !! _id (node_at st y))
         ∧ e = mkEdge info.1 (next_node stk + j) info.2) as Hrec.
    { intros e (r & He & Hr)%list_elem_of_bind.
      apply elem_of_seq in Hr.
      destruct (lookup_lt_is_Some_2 (g_nodes subgraph) (r - next_node stk))
        as [y Hy]; [lia|].
      unfold recorded_edges in He.
      apply list_elem_of_fmap in He as (info & -> & Hinfo).
      exists (r - next_node stk), y, info.
      split_and!; [done| |f_equal; lia].
      rewrite <-(Hid1 _ _ Hy).
      by replace (next_node stk + (r - next_node stk)) with r by lia. }
    assert (∀ e, e ∈ g_edges (graph_copy stk subgraph) →
              next_node stk ≤ e_src e ∧ next_node stk ≤ e_dst e) as Hcp.
    { intros e (e0 & -> & He0)%list_elem_of_fmap.
      unfold edge_copy, node_copy. cbn [e_src e_dst]. lia. }
    assert (∀ e, e ∈ g_edges (graph stk) → e_dst e < next_node stk →
      e ∈ g_edges
            (nx.add_edges_from (gc ≫= recorded_edges edgeinfo st1)
               (nx.add_edges_from (g_edges (graph_copy stk subgraph))
                  (nx.add_nodes_from gc (graph stk))))) as Hkeep.
    { intros e He Hdst. apply add_edges_from_keep.
      - apply add_edges_from_keep; [by rewrite add_nodes_from_edges|].
        intros e' [_ Hd]%Hcp [_ Hsame]. exfalso.
        revert Hd Hsame Hdst. generalize (next_node stk). intros. lia.
      - intros e' (j & y & info & Hy & _ & ->)%Hrec [_ Hsame].
        cbn [e_dst] in Hsame. exfalso.
        revert Hsame Hdst. generalize (next_node stk). intros. lia. }
    split.
    + intros i e0 Hi He0.
      destruct (Hends e0 He0) as [Hs0 Hd0].
      pose proof (index_of_lt _ _ Hs0) as Hslt.
      pose proof (index_of_lt _ _ Hd0) as Hdlt.
      rewrite <-Hn in Hslt, Hdlt.
      destruct (decide (i < length assignments)) as [Hlt|Hge].
      * apply Hkeep; [by apply IHint|]. cbn [e_dst]. nia.
      * assert (i = length assignments) as -> by lia.
        rewrite <-Hnn, <-Hnc.
        change (mkEdge (next_node stk + index_of (e_src e0) (g_nodes subgraph))
                  (next_node stk + index_of (e_dst e0) (g_nodes subgraph))
                  (next_connect stk
                   + index_of (e_connect e0) (copied_connects subgraph)))
          with (edge_copy stk subgraph e0).
        apply add_edges_from_keep.
        -- apply add_edges_from_mem;
             [by apply (list_elem_of_fmap_2 (edge_copy stk subgraph))|].
           intros e' (e0' & -> & He0')%list_elem_of_fmap [Hs Hd].
           destruct (Hends e0' He0') as [Hs0' Hd0'].
           unfold edge_copy, node_copy in Hs, Hd. cbn [e_src e_dst] in Hs, Hd.
           f_equal. apply (simple_same_ends subgraph); [done..| |].
           ++ apply (index_of_inj (g_nodes subgraph)); [done..|lia].
           ++ apply (index_of_inj (g_nodes subgraph)); [done..|lia].
        -- intros e' (j & y & info & Hy & Hinfo & ->)%Hrec [Hs _].
           unfold edge_copy, node_copy in Hs. cbn [e_src] in Hs.
           apply Hsrc in Hinfo. exfalso. lia.
    + intros i j y info Hi Hy Hinfo.
      pose proof (lookup_lt_Some _ _ _ Hy) as Hj. rewrite <-Hn in Hj.
      destruct (decide (i < length assignments)) as [Hlt|Hge].
      * apply Hkeep; [by eapply IHrec|]. cbn [e_dst]. nia.
      * assert (i = length assignments) as -> by lia.
        rewrite <-Hnn.
        apply add_edges_from_mem.
        -- apply list_elem_of_bind. exists (next_node stk + j). split.
           ++ unfold recorded_edges. rewrite (Hid1 j y Hy).
              by apply (list_elem_of_fmap_2
                          (λ info, mkEdge info.1 (next_node stk + j) info.2)).
           ++ apply elem_of_seq. lia.
        -- intros e' (j' & y' & info' & Hy' & Hinfo' & ->)%Hrec [Hs Hd].
           cbn [e_src e_dst] in Hs, Hd.
           assert (j' = j) as -> by lia.
           assert (y' = y) as -> by congruence.
           by rewrite (Hfun _ info' info Hinfo' Hinfo Hs).
Qed.

Lemma first_with_id_unique st y :
  NoDup ((λ n, _id (node_at st n)) <$> g_nodes (graph st)) →
  y ∈ g_nodes (graph st) →
  first_with_id st (_id (node_at st y)) = Some y.
Proof.
  intros Hnd [j Hj]%list_elem_of_lookup. unfold first_with_id.
  rewrite (py_index_lookup _ j) by (by rewrite ?list_lookup_fmap, ?Hj).
  done.
Qed.

(** C3 (as amended): after a duplication pass of a well-formed graph

    - every edge of the supergraph is an edge that was there before and
      survived the removal, or the copy, in some copy [i] of the subgraph,
      of an edge of the subgraph, carrying a fresh connect object equal to
      the payload of that edge, or the reconnection to the copy of a node
      [y] of an inbound edge recorded for [y] (an edge that enters, from
      outside the subgraph, the node of the supergraph found for the
      identity of [y]), carrying the very connect object of that edge;
    - for every copy [i], every edge of the subgraph has its copy in the
      supergraph, with a fresh connect object equal to the payload of the
      edge;
    - for every copy [i] and every node [y] of the subgraph, every inbound
      edge recorded for [y] is reconnected to the copy of [y], with the
      connect object it carried, which all copies therefore share. *)
Theorem merge_edge_payloads nodes subgraph nodeid iterables st :
  store_ok st → simple (graph st) → simple subgraph →
  merge_ready st subgraph nodeid →
  ∃ st',
    _merge_graphs nodes subgraph nodeid iterables st = (Ok tt, st')
    ∧ (∀ e, e ∈ g_edges (graph st') →
        e ∈ g_edges (nx.remove_nodes_from nodes (graph st))
        ∨ (∃ i e0, i < length (walk iterables 0 ∅ true)
             ∧ e0 ∈ g_edges subgraph
             ∧ e_src e = copy_ref st subgraph i
                           (index_of (e_src e0) (g_nodes subgraph))
             ∧ e_dst e = copy_ref st subgraph i
                           (index_of (e_dst e0) (g_nodes subgraph))
             ∧ connect_at st' (e_connect e) = connect_at st (e_connect e0)
             ∧ e_connect e ≠ e_connect e0
             ∧ next_connect st ≤ e_connect e)
        ∨ (∃ i j y e0, i < length (walk iterables 0 ∅ true)
             ∧ g_nodes subgraph !! j = Some y
             ∧ inbound st subgraph y e0
             ∧ e = mkEdge (e_src e0) (copy_ref st subgraph i j) (e_connect e0)
             ∧ connect_at st' (e_connect e0) = connect_at st (e_connect e0)))
    ∧ (∀ i e0, i < length (walk iterables 0 ∅ true) →
         e0 ∈ g_edges subgraph →
         ∃ e, e ∈ g_edges (graph st')
              ∧ e_src e = copy_ref st subgraph i
                            (index_of (e_src e0) (g_nodes subgraph))
              ∧ e_dst e = copy_ref st subgraph i
                            (index_of (e_dst e0) (g_nodes subgraph))
              ∧ connect_at st' (e_connect e) = connect_at st (e_connect e0)
              ∧ e_connect e ≠ e_connect e0
              ∧ next_connect st ≤ e_connect e)
    ∧ (∀ i j y e0, i < length (walk iterables 0 ∅ true) →
         g_nodes subgraph !! j = Some y →
         inbound st subgraph y e0 →
         mkEdge (e_src e0) (copy_ref st subgraph i j) (e_connect e0)
           ∈ g_edges (graph st')
         ∧ connect_at st' (e_connect e0) = connect_at st (e_connect e0)).
Proof.
  intros Hok Hsg Hss Hready.
  destruct (merge_ready_graph_ok _ _ _ Hready) as [Hsub Hold].
  destruct Hready as (Hnd & Hedges & Hnodes & Hconn & Hid).
  rewrite Forall_forall in Hnodes. rewrite Forall_forall in Hedges.
  rewrite Forall_forall in Hconn.
  destruct Hok as (_ & Hedges0 & Hnodes0).
  rewrite Forall_forall in Hedges0. rewrite Forall_forall in Hnodes0.
  assert (∀ n, n ∈ g_nodes subgraph →
            _id (node_at st n)
              ∈ (λ n, _id (node_at st n)) <$> g_nodes (graph st)) as Hids.
  { intros n Hn. apply (list_elem_of_fmap_2 (λ n, _id (node_at st n))).
    by apply Hnodes. }
  destruct (py_index_is_Some _ _ Hid) as [nodeidx Hpy].
  assert (nodeidx < length (g_nodes subgraph)) as Hidx.
  { apply py_index_Some in Hpy as [Hpy _].
    apply lookup_lt_Some in Hpy. by rewrite length_fmap in Hpy. }
  pose proof (merge_graphs_run_exact nodes subgraph nodeid iterables st nodeidx
                Hnd Hold Hids Hpy) as Hrun.
  pose proof (λ nid info, edgeinfo_of_spec st subgraph nid info Hids) as Hspec.
  set (edgeinfo := edgeinfo_of st subgraph) in *.
  set (st0 := set_graph (nx.remove_nodes_from nodes (graph st)) st) in *.
  destruct (merge_store_store subgraph nodeidx edgeinfo
              (walk iterables 0 ∅ true) st0 Hnd Hidx Hold)
    as (_ & _ & _ & _ & Hcold & Hcnew).
  destruct (merge_store_graph subgraph nodeidx edgeinfo
              (walk iterables 0 ∅ true) st0 Hsub Hidx Hold)
    as (_ & _ & _ & _ & Hgedges).
  destruct (merge_store_present subgraph nodeidx edgeinfo
              (walk iterables 0 ∅ true) st0 Hsub Hss Hidx Hold)
    as [Hint Hrecd].
  { intros nid info (_ & e0 & He0 & _ & _ & ->)%Hspec. cbn [fst].
    destruct (Hedges0 e0 He0) as (Hs & _). by apply Hnodes0. }
  { intros nid info info' (_ & e0 & He0 & _ & Hf & ->)%Hspec
      (_ & e0' & He0' & _ & Hf' & ->)%Hspec Hsrc.
    cbn [fst] in Hsrc. rewrite Hf in Hf'. injection Hf' as Hdst.
    by rewrite (simple_same_ends _ e0 e0' Hsg He0 He0' Hsrc Hdst). }
  change (next_node st0) with (next_node st) in *.
  change (next_connect st0) with (next_connect st) in *.
  change (node_at st0) with (node_at st) in *.
  change (connect_at st0) with (connect_at st) in *.
  assert (∀ i e0, i < length (walk iterables 0 ∅ true) →
            e0 ∈ g_edges subgraph →
            connect_at
              (merge_store subgraph nodeidx edgeinfo (walk iterables 0 ∅ true)
                 st0)
              (next_connect st + i * length (copied_connects subgraph)
               + index_of (e_connect e0) (copied_connects subgraph))
            = connect_at st (e_connect e0)
            ∧ next_connect st + i * length (copied_connects subgraph)
              + index_of (e_connect e0) (copied_connects subgraph)
              ≠ e_connect e0
            ∧ next_connect st
              ≤ next_connect st + i * length (copied_connects subgraph)
                + index_of (e_connect e0) (copied_connects subgraph))
    as Hfresh.
  { intros i e0 Hi He0. destruct (Hedges e0 He0) as (_ & _ & Hc0).
    split_and!; [|lia..].
    apply Hcnew; [done| |done]. by apply (list_elem_of_fmap_2 e_connect). }
  eexists. split; [exact Hrun|]. split_and!.
  - intros e He.
    destruct (Hgedges e He)
      as [Hin|[(i & e0 & Hi & He0 & ->)|(i & j & y & info & Hi & Hy & Hinfo & ->)]].
    + by left.
    + right; left. exists i, e0. cbn [e_src e_dst e_connect].
      destruct (Hfresh i e0 Hi He0) as (? & ? & ?). done.
    + right; right.
      apply Hspec in Hinfo as (_ & e0 & He0 & Hout & Hf & ->).
      exists i, j, y, e0. cbn [fst snd]. split_and!; [done..|].
      apply Hcold. by apply Hconn.
  - intros i e0 Hi He0. eexists. split; [by apply Hint|].
    cbn [e_src e_dst e_connect].
    destruct (Hfresh i e0 Hi He0) as (? & ? & ?). done.
  - intros i j y e0 Hi Hy (He0 & Hout & Hf). split.
    + apply (Hrecd i j y (e_src e0, e_connect e0) Hi Hy).
      apply Hspec. split.
      * apply (list_elem_of_fmap_2 (λ n, _id (node_at st n))).
        by eapply list_elem_of_lookup_2.
      * by exists e0.
    + apply Hcold. by apply Hconn.
Qed.

Lemma merge_edge_payloads_witness :
  store_ok chain_store
  ∧ simple (graph chain_store)
  ∧ simple chain_subgraph
  ∧ merge_ready chain_store chain_subgraph "AI"
  ∧ ∃ st',
      _merge_graphs [1; 2] chain_subgraph "AI" chain_iterables chain_store
      = (Ok tt, st')
      ∧ (∀ e, e ∈ g_edges (graph st') →
          e ∈ g_edges (nx.remove_nodes_from [1; 2] (graph chain_store))
          ∨ (∃ i e0, i < length (walk chain_iterables 0 ∅ true)
               ∧ e0 ∈ g_edges chain_subgraph
               ∧ e_src e = copy_ref chain_store chain_subgraph i
                             (index_of (e_src e0) (g_nodes chain_subgraph))
               ∧ e_dst e = copy_ref chain_store chain_subgraph i
                             (index_of (e_dst e0) (g_nodes chain_subgraph))
               ∧ connect_at st' (e_connect e)
                 = connect_at chain_store (e_connect e0)
               ∧ e_connect e ≠ e_connect e0
               ∧ next_connect chain_store ≤ e_connect e)
          ∨ (∃ i j y e0, i < length (walk chain_iterables 0 ∅ true)
               ∧ g_nodes chain_subgraph !! j = Some y
               ∧ inbound chain_store chain_subgraph y e0
               ∧ e = mkEdge (e_src e0) (copy_ref chain_store chain_subgraph i j)
                       (e_connect e0)
               ∧ connect_at st' (e_connect e0)
                 = connect_at chain_store (e_connect e0)))
      ∧ (∀ i e0, i < length (walk chain_iterables 0 ∅ true) →
           e0 ∈ g_edges chain_subgraph →
           ∃ e, e ∈ g_edges (graph st')
                ∧ e_src e = copy_ref chain_store chain_subgraph i
                              (index_of (e_src e0) (g_nodes chain_subgraph))
                ∧ e_dst e = copy_ref chain_store chain_subgraph i
                              (index_of (e_dst e0) (g_nodes chain_subgraph))
                ∧ connect_at st' (e_connect e)
                  = connect_at chain_store (e_connect e0)
                ∧ e_connect e ≠ e_connect e0
                ∧ next_connect chain_store ≤ e_connect e)
      ∧ (∀ i j y e0, i < length (walk chain_iterables 0 ∅ true) →
           g_nodes chain_subgraph !! j = Some y →
           inbound chain_store chain_subgraph y e0 →
           mkEdge (e_src e0) (copy_ref chain_store chain_subgraph i j)
                  (e_connect e0)
             ∈ g_edges (graph st')
           ∧ connect_at st' (e_connect e0)
             = connect_at chain_store (e_connect e0)).
Proof.
  assert (store_ok chain_store) as H1
    by (apply (bool_decide_unpack _); by vm_compute).
  assert (simple (graph chain_store)) as H2
    by (apply (bool_decide_unpack _); by vm_compute).
  assert (simple chain_subgraph) as H3
    by (apply (bool_decide_unpack _); by vm_compute).
  assert (merge_ready chain_store chain_subgraph "AI") as H4
    by (apply (bool_decide_unpack _); by vm_compute).
  split_and!; [done..|].
  apply (merge_edge_payloads [1; 2] chain_subgraph "AI" chain_iterables
           chain_store H1 H2 H3 H4).
Defined.
